(** * Introduction to Computer Systems: allocator and proxy cache

    A shallow embedding of the two cores of the repository:

    - [Mm]: the explicit-free-list allocator of [malloc_implementation.c],
      over a byte-addressed arena grown by an sbrk primitive;
    - [Proxy]: the LRU response cache, the response relay loop and the
      request handling of [proxy.c], over a store of [Cache] nodes linked
      by pointers.

    C code is embedded in a state monad with two ways of not returning a
    value: [Fault] (an access outside mapped memory or through a null
    pointer, undefined behaviour in C) and [OutOfFuel] (a loop that did not
    finish within the given number of iterations). *)

From Stdlib Require Import Ascii.
From stdpp Require Import gmap strings list fin_maps pretty.

#[local] Set Warnings "-clear-no-such-hyp".

Open Scope Z_scope.

(** ** Results and the state monad *)

Inductive result (A : Type) : Type :=
| Done (a : A)
| Fault
| OutOfFuel.

Arguments Done {A} a.
Arguments Fault {A}.
Arguments OutOfFuel {A}.

Definition M (S A : Type) : Type := S → result (A * S).

Definition ret {S A} (a : A) : M S A := λ s, Done (a, s).

Definition bind {S A B} (c : M S A) (k : A → M S B) : M S B :=
  λ s, match c s with
       | Done (a, s') => k a s'
       | Fault => Fault
       | OutOfFuel => OutOfFuel
       end.

Definition fault {S A} : M S A := λ _, Fault.
Definition out_of_fuel {S A} : M S A := λ _, OutOfFuel.
Definition get {S} : M S S := λ s, Done (s, s).
Definition gets {S A} (f : S → A) : M S A := λ s, Done (f s, s).
Definition modify {S} (f : S → S) : M S unit := λ s, Done (tt, f s).

(** An optional value read from the state; [None] is an invalid access. *)
Definition read {S A} (f : S → option A) : M S A :=
  λ s, match f s with Some a => Done (a, s) | None => Fault end.

(** An optional state update; [None] is an invalid access. *)
Definition update {S} (f : S → option S) : M S unit :=
  λ s, match f s with Some s' => Done (tt, s') | None => Fault end.

(** The value and the final state of a run, when it returns. *)
Definition eval {S A} (c : M S A) (s : S) : option A :=
  match c s with Done (a, _) => Some a | _ => None end.

Declare Scope monad_scope.
Delimit Scope monad_scope with monad.
Notation "x <- c1 ;; c2" := (bind c1 (λ x, c2))
  (at level 100, c1 at next level, right associativity) : monad_scope.
Notation "c1 ;; c2" := (bind c1 (λ _, c2))
  (at level 100, right associativity) : monad_scope.
Open Scope monad_scope.

(** Unsigned wrap-around of [size_t] arithmetic (64-bit build). *)
Definition wrap64 (z : Z) : Z := z mod 2 ^ 64.

(** ** The allocator of [malloc_implementation.c]

    The contracts [REQUIRES] and [ENSURES] and the calls of [assert] are
    debugging aids that are compiled out of the allocator proper; the
    embedding is that of the code without them. *)

Module Mm.

(** Basic constants and macros. *)
Definition WSIZE : Z := 4.
Definition DSIZE : Z := 8.
Definition CHUNKSIZE : Z := 2048.
Definition ALLOCED : Z := 1.
Definition FREE : Z := 0.
Definition FURTHESTDOWN : Z := 200.
Definition MIN_SIZE : Z := 24.
Definition ALIGN : Z := 8.
Definition FITS : Z := 8.

Definition MAX (x y : Z) : Z := if y <? x then x else y.

(** [PACK(size, alloc)  ((size) | (alloc))] *)
Definition PACK (size alloc : Z) : Z := Z.lor size alloc.

(** The allocator state: the arena of the memory library, its break, and
    the two globals of the allocator. Addresses are absolute; the null
    pointer is address 0. *)
Record heap : Type := mkHeap {
  mem_heap : list Z;       (* the arena, one byte (0..255) per cell *)
  mem_start : Z;           (* address of the first arena byte *)
  mem_brk : Z;             (* address one past the last heap byte *)
  heap_listp : Z;          (* static char *heap_listp = 0 *)
  free_list_root : Z       (* static void *free_list_root *)
}.

Definition set_mem_heap (l : list Z) (h : heap) : heap :=
  mkHeap l (mem_start h) (mem_brk h) (heap_listp h) (free_list_root h).
Definition set_mem_brk (b : Z) (h : heap) : heap :=
  mkHeap (mem_heap h) (mem_start h) b (heap_listp h) (free_list_root h).
Definition set_heap_listp (p : Z) (h : heap) : heap :=
  mkHeap (mem_heap h) (mem_start h) (mem_brk h) p (free_list_root h).
Definition set_free_list_root (p : Z) (h : heap) : heap :=
  mkHeap (mem_heap h) (mem_start h) (mem_brk h) (heap_listp h) p.

(** A process image before any allocator call: both globals are zero and
    the break sits at the start of the arena. *)
Definition fresh_heap (arena : list Z) (start : Z) : heap :=
  mkHeap arena start start 0 0.

Definition mem_max_addr (h : heap) : Z := mem_start h + Z.of_nat (length (mem_heap h)).

(** Modelled from the spec: the sbrk primitive of the memory library
    ([memlib.h] is included by the allocator but its code is not part of
    the sources). The heap is a contiguous region grown only at its high
    end; [mem_sbrk n] returns the old break, or the sentinel (void * )-1
    when the arena cannot hold [n] more bytes. *)
Definition mem_sbrk (incr : Z) : M heap Z :=
  λ h, if (incr <? 0) || (mem_max_addr h <? mem_brk h + incr)
       then Done (-1, h)
       else Done (mem_brk h, set_mem_brk (mem_brk h + incr) h).

(** Modelled from the spec: [heap_lo()] and [heap_hi()], the first and the
    last byte of the heap. *)
Definition mem_heap_lo (h : heap) : Z := mem_start h.
Definition mem_heap_hi (h : heap) : Z := mem_brk h - 1.

(** *** Byte and word access *)

Definition load_byte (h : heap) (a : Z) : option Z :=
  if a <? mem_start h then None
  else mem_heap h !! Z.to_nat (a - mem_start h).

Definition store_byte (a v : Z) (h : heap) : option heap :=
  if a <? mem_start h then None
  else if mem_max_addr h <=? a then None
  else Some (set_mem_heap (<[Z.to_nat (a - mem_start h) := v]> (mem_heap h)) h).

(** Little-endian access to an [n]-byte unsigned integer. *)
Fixpoint load_le (n : nat) (h : heap) (a : Z) : option Z :=
  match n with
  | O => Some 0
  | S n' =>
      match load_byte h a, load_le n' h (a + 1) with
      | Some b, Some r => Some (Z.lor b (Z.shiftl r 8))
      | _, _ => None
      end
  end.

Fixpoint store_le (n : nat) (a v : Z) (h : heap) : option heap :=
  match n with
  | O => Some h
  | S n' =>
      match store_byte a (Z.land v 255) h with
      | Some h' => store_le n' (a + 1) (Z.shiftr v 8) h'
      | None => None
      end
  end.

Fixpoint load_bytes (n : nat) (h : heap) (a : Z) : option (list Z) :=
  match n with
  | O => Some []
  | S n' =>
      match load_byte h a, load_bytes n' h (a + 1) with
      | Some b, Some bs => Some (b :: bs)
      | _, _ => None
      end
  end.

Fixpoint store_bytes (a : Z) (bs : list Z) (h : heap) : option heap :=
  match bs with
  | [] => Some h
  | b :: bs' =>
      match store_byte a b h with
      | Some h' => store_bytes (a + 1) bs' h'
      | None => None
      end
  end.

(** [GET(p)  ( *(unsigned int * )(p))] and [PUT(p, val)]: the stored word
    keeps the low 32 bits of [val]. *)
Definition GET (p : Z) : M heap Z := read (λ h, load_le 4 h p).
Definition PUT (p val : Z) : M heap unit := update (store_le 4 p val).

(** [GET_SIZE(p)  (GET(p) & ~0x7)] and [GET_ALLOC(p)  (GET(p) & 0x1)] *)
Definition GET_SIZE (p : Z) : M heap Z := w <- GET p ;; ret (Z.land w (Z.lnot 7)).
Definition GET_ALLOC (p : Z) : M heap Z := w <- GET p ;; ret (Z.land w 1).

(** [HDRP(bp)] and [FTRP(bp)] *)
Definition HDRP (bp : Z) : Z := bp - WSIZE.
Definition FTRP (bp : Z) : M heap Z :=
  sz <- GET_SIZE (HDRP bp) ;; ret (bp + sz - DSIZE).

(** [NEXT_BLKP(bp)] and [PREV_BLKP(bp)] *)
Definition NEXT_BLKP (bp : Z) : M heap Z :=
  sz <- GET_SIZE (bp - WSIZE) ;; ret (bp + sz).
Definition PREV_BLKP (bp : Z) : M heap Z :=
  sz <- GET_SIZE (bp - DSIZE) ;; ret (bp - sz).

(** The links of a free block: two 8-byte pointers at the start of its
    payload. *)
Definition GET_NEXT_FREE (bp : Z) : M heap Z := read (λ h, load_le 8 h bp).
Definition GET_PREV_FREE (bp : Z) : M heap Z := read (λ h, load_le 8 h (bp + DSIZE)).
Definition PUT_NEXT_FREE (bp val : Z) : M heap unit := update (store_le 8 bp val).
Definition PUT_PREV_FREE (bp val : Z) : M heap unit := update (store_le 8 (bp + DSIZE) val).

(** *** The free list *)

(** [add_to_freelist]: push a block at the front of the list. *)
Definition add_to_freelist (bp : Z) : M heap unit :=
  root <- gets free_list_root ;;
  if root =? 0 then
    modify (set_free_list_root bp) ;;
    PUT_PREV_FREE bp 0 ;;
    PUT_NEXT_FREE bp 0
  else
    PUT_NEXT_FREE bp root ;;
    PUT_PREV_FREE bp 0 ;;
    PUT_PREV_FREE root bp ;;
    modify (set_free_list_root bp).

(** [remove_from_freelist]: sole member, head, tail, interior. The links
    of [bp] are read again wherever the source evaluates the macros
    again. *)
Definition remove_from_freelist (bp : Z) : M heap unit :=
  prv <- GET_PREV_FREE bp ;;
  nxt <- GET_NEXT_FREE bp ;;
  if (prv =? 0) && (nxt =? 0) then
    modify (set_free_list_root 0)
  else if prv =? 0 then
    nxt <- GET_NEXT_FREE bp ;;
    modify (set_free_list_root nxt) ;;
    PUT_PREV_FREE nxt 0
  else if nxt =? 0 then
    prv <- GET_PREV_FREE bp ;;
    PUT_NEXT_FREE prv 0
  else
    prv <- GET_PREV_FREE bp ;;
    nxt <- GET_NEXT_FREE bp ;;
    PUT_NEXT_FREE prv nxt ;;
    nxt <- GET_NEXT_FREE bp ;;
    prv <- GET_PREV_FREE bp ;;
    PUT_PREV_FREE nxt prv ;;
    PUT_PREV_FREE bp 0 ;;
    PUT_NEXT_FREE bp 0.

(** *** Coalescing *)

Definition coalesce (bp : Z) : M heap Z :=
  pb <- PREV_BLKP bp ;;
  pf <- FTRP pb ;;
  prev_block_alloc <- GET_ALLOC pf ;;
  nb <- NEXT_BLKP bp ;;
  next_block_alloc <- GET_ALLOC (HDRP nb) ;;
  size <- GET_SIZE (HDRP bp) ;;
  if negb (prev_block_alloc =? 0) && negb (next_block_alloc =? 0) then
    add_to_freelist bp ;;
    ret bp
  else if (prev_block_alloc =? 0) && negb (next_block_alloc =? 0) then
    (* prev block is free, next isnt *)
    pb <- PREV_BLKP bp ;;
    remove_from_freelist pb ;;
    pb <- PREV_BLKP bp ;;
    psz <- GET_SIZE (HDRP pb) ;;
    let size_to_the_side := wrap64 (size + psz) in
    pb <- PREV_BLKP bp ;;
    PUT (HDRP pb) (PACK size_to_the_side FREE) ;;
    ft <- FTRP bp ;;
    PUT ft (PACK size_to_the_side FREE) ;;
    pb <- PREV_BLKP bp ;;
    add_to_freelist pb ;;
    PREV_BLKP bp
  else if negb (prev_block_alloc =? 0) && (next_block_alloc =? 0) then
    (* next block is free, prev block isnt it *)
    nb <- NEXT_BLKP bp ;;
    remove_from_freelist nb ;;
    nb <- NEXT_BLKP bp ;;
    nsz <- GET_SIZE (HDRP nb) ;;
    let size_to_the_side := wrap64 (size + nsz) in
    nb <- NEXT_BLKP bp ;;
    nf <- FTRP nb ;;
    PUT nf (PACK size_to_the_side FREE) ;;
    PUT (HDRP bp) (PACK size_to_the_side FREE) ;;
    add_to_freelist bp ;;
    ret bp
  else
    (* next block is free and prev block is free *)
    nb <- NEXT_BLKP bp ;;
    remove_from_freelist nb ;;
    pb <- PREV_BLKP bp ;;
    remove_from_freelist pb ;;
    pb <- PREV_BLKP bp ;;
    psz <- GET_SIZE (HDRP pb) ;;
    nb <- NEXT_BLKP bp ;;
    nsz <- GET_SIZE (HDRP nb) ;;
    let size_to_the_side := wrap64 (wrap64 (size + psz) + nsz) in
    pb <- PREV_BLKP bp ;;
    PUT (HDRP pb) (PACK size_to_the_side FREE) ;;
    nb <- NEXT_BLKP bp ;;
    nf <- FTRP nb ;;
    PUT nf (PACK size_to_the_side FREE) ;;
    pb <- PREV_BLKP bp ;;
    add_to_freelist pb ;;
    PREV_BLKP bp.

(** *** Heap extension and initialisation *)

(** [extend_heap]: returns the block pointer, or 0 when sbrk fails. *)
Definition extend_heap (words : Z) : M heap Z :=
  let size := if negb (words mod 2 =? 0)
              then wrap64 (wrap64 (words + 1) * WSIZE)
              else wrap64 (words * WSIZE) in
  bp <- mem_sbrk size ;;
  if bp =? -1 then ret 0
  else
    PUT (HDRP bp) (PACK size 0) ;;
    ft <- FTRP bp ;;
    PUT ft (PACK size 0) ;;
    nb <- NEXT_BLKP bp ;;
    PUT (HDRP nb) (PACK 0 1) ;;
    coalesce bp.

(** [mm_init]: 0 on success, -1 on failure. *)
Definition mm_init : M heap Z :=
  p <- mem_sbrk (4 * WSIZE) ;;
  modify (set_heap_listp p) ;;
  if p =? -1 then ret (-1)
  else
    PUT p 0 ;;
    PUT (p + 1 * WSIZE) (PACK DSIZE 1) ;;
    PUT (p + 2 * WSIZE) (PACK DSIZE 1) ;;
    PUT (p + 3 * WSIZE) (PACK 0 1) ;;
    modify (set_heap_listp (p + 2 * WSIZE)) ;;
    modify (set_free_list_root 0) ;;
    bp <- extend_heap (CHUNKSIZE / WSIZE) ;;
    if bp =? 0 then ret (-1) else ret 0.

(** *** Placement *)

(** [place]: split when the remainder is at least the minimum block. *)
Definition place (bp asize : Z) : M heap unit :=
  csize <- GET_SIZE (HDRP bp) ;;
  if MIN_SIZE <=? wrap64 (csize - asize) then
    PUT (HDRP bp) (PACK asize 1) ;;
    ft <- FTRP bp ;;
    PUT ft (PACK asize 1) ;;
    remove_from_freelist bp ;;
    bp <- NEXT_BLKP bp ;;
    PUT (HDRP bp) (PACK (wrap64 (csize - asize)) 0) ;;
    ft <- FTRP bp ;;
    PUT ft (PACK (wrap64 (csize - asize)) 0) ;;
    add_to_freelist bp
  else
    PUT (HDRP bp) (PACK csize 1) ;;
    ft <- FTRP bp ;;
    PUT ft (PACK csize 1) ;;
    remove_from_freelist bp.

(** The loop of [find_fit]. [count] is the number of fitting blocks seen,
    [scount] the number of blocks inspected after the first fitting one.
    [best] is read only after the first fitting block has set it. *)
Fixpoint find_fit_loop (fuel : nat) (asize block count scount : Z)
    (start_counting : bool) (best bp : Z) : M heap Z :=
  if negb (block =? 0) && (count <? FITS) && (scount <? FURTHESTDOWN) then
    match fuel with
    | O => out_of_fuel
    | S fuel' =>
        blocksize <- GET_SIZE (HDRP block) ;;
        let scount := if start_counting then scount + 1 else scount in
        if asize <=? blocksize then
          let count := count + 1 in
          let start_counting := if count =? 1 then true else start_counting in
          let best1 := if count =? 1 then blocksize else best in
          let bp1 := if count =? 1 then block else bp in
          let best2 := if blocksize <? best1 then blocksize else best1 in
          let bp2 := if blocksize <? best1 then block else bp1 in
          next <- GET_NEXT_FREE block ;;
          find_fit_loop fuel' asize next count scount start_counting best2 bp2
        else
          next <- GET_NEXT_FREE block ;;
          find_fit_loop fuel' asize next count scount start_counting best bp
    end
  else ret bp.

Definition find_fit (fuel : nat) (asize : Z) : M heap Z :=
  root <- gets free_list_root ;;
  find_fit_loop fuel asize root 0 0 false 0 0.

(** *** Public operations *)

(** The adjusted block size computed by [mm_malloc] (lines 141-145). *)
Definition adjusted_size (size : Z) : Z :=
  if size <=? 2 * DSIZE then 3 * DSIZE
  else wrap64 ((2 * DSIZE) * (wrap64 (size + (2 * DSIZE) + ((2 * DSIZE) - 1)) / (2 * DSIZE))).

(** [mm_malloc] after the initialisation check, from the computation of
    [asize] on. *)
Definition malloc_place (fuel : nat) (asize : Z) : M heap Z :=
  bp <- find_fit fuel asize ;;
  if negb (bp =? 0) then
    place bp asize ;;
    ret bp
  else
    let extendsize := MAX asize CHUNKSIZE in
    bp <- extend_heap (extendsize / WSIZE) ;;
    if bp =? 0 then ret 0
    else
      place bp asize ;;
      ret bp.

Definition mm_malloc (fuel : nat) (size : Z) : M heap Z :=
  hl <- gets heap_listp ;;
  (if hl =? 0 then mm_init ;; ret tt else ret tt) ;;
  if size =? 0 then ret 0
  else malloc_place fuel (adjusted_size size).

Definition mm_free (bp : Z) : M heap unit :=
  if bp =? 0 then ret tt
  else
    size <- GET_SIZE (HDRP bp) ;;
    hl <- gets heap_listp ;;
    (if hl =? 0 then mm_init ;; ret tt else ret tt) ;;
    PUT (HDRP bp) (PACK size 0) ;;
    ft <- FTRP bp ;;
    PUT ft (PACK size 0) ;;
    coalesce bp ;;
    ret tt.

(** [memcpy(dst, src, n)] on regions that do not overlap. *)
Definition memcpy (dst src n : Z) : M heap unit :=
  bs <- read (λ h, load_bytes (Z.to_nat n) h src) ;;
  update (store_bytes dst bs).

(** The number of bytes [mm_realloc] copies (lines 351-352). *)
Definition realloc_copy_size (size : Z) (ptr : Z) : M heap Z :=
  oldsize <- GET_SIZE (HDRP ptr) ;;
  ret (if size <? oldsize then size else oldsize).

Definition mm_realloc (fuel : nat) (ptr size : Z) : M heap Z :=
  if size =? 0 then
    mm_free ptr ;;
    ret 0
  else if ptr =? 0 then
    mm_malloc fuel size
  else
    newptr <- mm_malloc fuel size ;;
    if newptr =? 0 then ret 0
    else
      oldsize <- realloc_copy_size size ptr ;;
      memcpy newptr ptr oldsize ;;
      mm_free ptr ;;
      ret newptr.

(** *** The heap checker *)

(** One iteration of the free-list loop of [mm_checkheap] (lines 384-433):
    [false] when a check fails and the function returns 0. *)
Definition check_free_block (block : Z) : M heap bool :=
  lo <- gets mem_heap_lo ;;
  hi <- gets mem_heap_hi ;;
  if negb ((lo <? block) && (block <? hi)) then ret false
  else
    sz <- GET_SIZE (HDRP block) ;;
    if negb (sz mod ALIGN =? 0) then ret false
    else
      nxt <- GET_NEXT_FREE block ;;
      links_ok <-
        (if negb (nxt =? 0) then
           prv <- GET_PREV_FREE block ;;
           if prv =? 0 then ret true
           else
             nxt <- GET_NEXT_FREE block ;;
             back <- GET_PREV_FREE nxt ;;
             ret (back =? block)
         else ret true) ;;
      if negb links_ok then ret false
      else
        nb <- NEXT_BLKP block ;;
        adjacent_ok <-
          (if negb (nb =? 0) then
             a <- GET_ALLOC (HDRP block) ;;
             nb <- NEXT_BLKP block ;;
             na <- GET_ALLOC (HDRP nb) ;;
             ret (negb (a =? na))
           else ret true) ;;
        if negb adjacent_ok then ret false
        else
          sz <- GET_SIZE (HDRP block) ;;
          if negb (MIN_SIZE <=? sz) then ret false
          else
            sz <- GET_SIZE (HDRP block) ;;
            ft <- FTRP block ;;
            fsz <- GET_SIZE ft ;;
            if negb (sz =? fsz) then ret false
            else
              a <- GET_ALLOC (HDRP block) ;;
              ft <- FTRP block ;;
              fa <- GET_ALLOC ft ;;
              ret (a =? fa).

(** The free-list loop: [None] when the function returns 0 from inside
    the loop, [Some i] when the loop ends with [i] free-list members. *)
Fixpoint check_free_list (fuel : nat) (block i : Z) : M heap (option Z) :=
  if block =? 0 then ret (Some i)
  else
    match fuel with
    | O => out_of_fuel
    | S fuel' =>
        ok <- check_free_block block ;;
        if ok then
          nxt <- GET_NEXT_FREE block ;;
          check_free_list fuel' nxt (i + 1)
        else ret None
    end.

(** The heap walk (lines 436-445): from [heap_listp], stepping by
    [NEXT_BLKP], until the block pointer is null. *)
Fixpoint check_heap_walk (fuel : nat) (block j : Z) : M heap (option Z) :=
  if block =? 0 then ret (Some j)
  else
    match fuel with
    | O => out_of_fuel
    | S fuel' =>
        sz <- GET_SIZE (HDRP block) ;;
        if negb (sz mod 8 =? 0) then ret None
        else
          a <- GET_ALLOC (HDRP block) ;;
          let j := if a =? FREE then j + 1 else j in
          nb <- NEXT_BLKP block ;;
          check_heap_walk fuel' nb j
    end.

(** [mm_checkheap]: 1 if everything in the heap meets the invariants,
    else 0. [fuel] bounds the iterations of each loop. *)
Definition mm_checkheap (fuel : nat) : M heap Z :=
  root <- gets free_list_root ;;
  r <- check_free_list fuel root 0 ;;
  match r with
  | None => ret 0
  | Some i =>
      hl <- gets heap_listp ;;
      r <- check_heap_walk fuel hl 0 ;;
      match r with
      | None => ret 0
      | Some j => if negb (i =? j) then ret 0 else ret 1
      end
  end.

(** *** Specification-side definitions *)

(** Rounding [x] up to a multiple of [m]. *)
Definition round_up (x m : Z) : Z := m * ((x + m - 1) / m).

(** The adjusted size as the specification words it: payload plus header
    and footer, rounded up to a 16-byte multiple, with a floor of 24. *)
Definition spec_adjusted_size (size : Z) : Z :=
  Z.max 24 (round_up (size + 8) 16).

(** The free list seen as the sequence of its blocks, each with the size
    in its header: [p] is the pointer to the first block. *)
Fixpoint free_list_from (h : heap) (p : Z) (L : list (Z * Z)) : Prop :=
  match L with
  | [] => p = 0
  | (b, sz) :: L' =>
      p = b ∧ b ≠ 0 ∧ GET_SIZE (HDRP b) h = Done (sz, h) ∧
      ∃ q, GET_NEXT_FREE b h = Done (q, h) ∧ free_list_from h q L'
  end.

(** A block qualifies when its size is at least [asize]. *)
Definition fits (asize : Z) (b : Z * Z) : bool := asize <=? b.2.

(** The prefix of [L] that ends with its [n]-th qualifying block; all of
    [L] when it has fewer. *)
Fixpoint upto_fits (asize : Z) (n : nat) (L : list (Z * Z)) : list (Z * Z) :=
  match L with
  | [] => []
  | b :: L' =>
      match n with
      | O => []
      | S n' => b :: upto_fits asize (if fits asize b then n' else n) L'
      end
  end.

(** The blocks the placement policy examines: everything up to the first
    qualifying block, then at most 200 further blocks, stopping once 8
    qualifying blocks have been seen. *)
Fixpoint examined (asize : Z) (L : list (Z * Z)) : list (Z * Z) :=
  match L with
  | [] => []
  | b :: L' =>
      if fits asize b
      then b :: upto_fits asize (8 - 1) (take 200 L')
      else b :: examined asize L'
  end.

(** Keep the smaller of the best block so far and the next one; the
    earlier block wins a tie. *)
Definition keep_smaller (best : Z * Z) (b : Z * Z) : Z * Z :=
  if b.2 <? best.2 then b else best.

(** The qualifying blocks among the examined ones. *)
Definition candidates (asize : Z) (L : list (Z * Z)) : list (Z * Z) :=
  List.filter (fits asize) (examined asize L).

(** The smallest candidate, the first of them on a tie; the null pointer
    when there is none. *)
Definition best_fit (cands : list (Z * Z)) : Z :=
  match cands with
  | [] => 0
  | c :: cs => (foldl keep_smaller c cs).1
  end.

(** A free list of two blocks in a 64-byte arena: 48 bytes at 4104, then
    24 bytes at 4152. *)
Definition two_free_blocks : heap :=
  mkHeap ([0; 0; 0; 0; 48; 0; 0; 0; 56; 16; 0; 0; 0; 0; 0; 0]
          ++ replicate 36 0
          ++ [24; 0; 0; 0; 0; 0; 0; 0; 0; 0; 0; 0])
         4096 4160 4104 4104.

(** *** Stores as total functions

    [poke_le n a v h] is the heap after an [n]-byte store that stays
    inside the arena ([store_le_poke] below); it lets a sequence of stores
    be written as a term. *)

Definition poke_byte (a v : Z) (h : heap) : heap :=
  set_mem_heap (<[Z.to_nat (a - mem_start h) := v]> (mem_heap h)) h.

Fixpoint poke_le (n : nat) (a v : Z) (h : heap) : heap :=
  match n with
  | O => h
  | S n' => poke_le n' (a + 1) (Z.shiftr v 8) (poke_byte a (Z.land v 255) h)
  end.

Definition mapped (h : heap) (a : Z) (n : nat) : Prop :=
  mem_start h ≤ a ∧ a + Z.of_nat n ≤ mem_max_addr h.

(** The heap as [mm_init] leaves it: the prologue, one free block of
    [CHUNKSIZE] bytes that is the only member of the free list, and the
    epilogue header. *)
Definition initialised (h : heap) : Prop :=
  let s := mem_start h in
  heap_listp h = s + 8 ∧ mem_brk h = s + 2064 ∧ free_list_root h = s + 16
  ∧ s + 2064 ≤ mem_max_addr h
  ∧ GET (s + 4) h = Done (PACK DSIZE 1, h)
  ∧ GET (s + 8) h = Done (PACK DSIZE 1, h)
  ∧ GET (s + 12) h = Done (PACK CHUNKSIZE 0, h)
  ∧ GET_NEXT_FREE (s + 16) h = Done (0, h)
  ∧ GET_PREV_FREE (s + 16) h = Done (0, h)
  ∧ GET (s + 2056) h = Done (PACK CHUNKSIZE 0, h)
  ∧ GET (s + 2060) h = Done (PACK 0 1, h).

(** *** Scenarios on a small arena *)

(** A zeroed arena of 4096 bytes mapped at address 4096. *)
Definition arena0 : heap := fresh_heap (replicate 4096 0) 4096.

(** A user write into a payload. *)
Definition user_write (p : Z) (bs : list Z) : M heap unit := update (store_bytes p bs).
Definition user_read (p : Z) (n : nat) : M heap (list Z) := read (λ h, load_bytes n h p).

(** Allocate 16 bytes, fill them with the byte 170, and grow the block to
    100 bytes. Returns the size of the old block, the number of bytes
    [mm_realloc] copies, and the first 24 bytes of the new payload. *)
Definition realloc_grow_scenario : M heap (Z * Z * list Z) :=
  mm_init ;;
  p <- mm_malloc 8 16 ;;
  user_write p (replicate 16 170) ;;
  old_block <- GET_SIZE (HDRP p) ;;
  copied <- realloc_copy_size 100 p ;;
  q <- mm_realloc 8 p 100 ;;
  bs <- user_read q 24 ;;
  ret (old_block, copied, bs).

(** *** Zero-initialised allocation *)

(** [memset(dst, c, n)] *)
Definition memset (dst c n : Z) : M heap unit :=
  update (store_bytes dst (replicate (Z.to_nat n) c)).

(** [mm_calloc] (lines 362-371). The allocator is built with [DRIVER]
    defined, which makes [malloc] the allocator's own [mm_malloc]
    (lines 76-81). The product [nmemb * size] is computed in [size_t]. *)
Definition mm_calloc (fuel : nat) (nmemb size : Z) : M heap Z :=
  let bytes := wrap64 (nmemb * size) in
  newptr <- mm_malloc fuel bytes ;;
  memset newptr 0 bytes ;;
  ret newptr.

(** *** Heaps with one free block at the end *)

(** The shape of the heap while every request has been served by
    splitting the last block: the free list has one member, the free block
    of [r] bytes at [b], which ends at the epilogue header; the block
    before it is allocated and has [psz] bytes (the prologue, right after
    [mm_init]). *)
Definition tail_free (h : heap) (b r psz : Z) : Prop :=
  heap_listp h = mem_start h + 8 ∧ mem_brk h = b + r ∧ free_list_root h = b
  ∧ b + r ≤ mem_max_addr h
  ∧ mem_start h + 8 ≤ b - psz
  ∧ (8 ≤ psz < 2 ^ 32 ∧ psz mod 8 = 0) ∧ (24 ≤ r < 2 ^ 32 ∧ r mod 8 = 0)
  ∧ load_le 4 h (b - psz - 4) = Some (PACK psz 1)
  ∧ load_le 4 h (b - 8) = Some (PACK psz 1)
  ∧ load_le 4 h (b - 4) = Some (PACK r 0)
  ∧ load_le 8 h b = Some 0
  ∧ load_le 8 h (b + 8) = Some 0
  ∧ load_le 4 h (b + r - 8) = Some (PACK r 0)
  ∧ load_le 4 h (b + r - 4) = Some (PACK 0 1).

(** A client that allocates blocks of the given sizes one after the
    other; returns the pointers. *)
Fixpoint mallocs (fuel : nat) (sizes : list Z) : M heap (list Z) :=
  match sizes with
  | [] => ret []
  | size :: rest =>
      p <- mm_malloc fuel size ;;
      ps <- mallocs fuel rest ;;
      ret (p :: ps)
  end.

(** The shape of the heap when the last block is allocated and the free
    list is empty: the block of [psz] bytes before the epilogue header at
    [e - 4] is allocated. *)
Definition tail_full (h : heap) (e psz : Z) : Prop :=
  heap_listp h = mem_start h + 8 ∧ mem_brk h = e ∧ free_list_root h = 0
  ∧ e ≤ mem_max_addr h
  ∧ mem_start h + 8 ≤ e - psz
  ∧ (8 ≤ psz < 2 ^ 32 ∧ psz mod 8 = 0)
  ∧ load_le 4 h (e - psz - 4) = Some (PACK psz 1)
  ∧ load_le 4 h (e - 8) = Some (PACK psz 1)
  ∧ load_le 4 h (e - 4) = Some (PACK 0 1).

(** A heap on which only allocations have taken place: everything below
    the mark [w] is allocated, and the heap ends with a free block that
    starts at [w] or, when the last block is allocated, with the epilogue
    at [w]. *)
Definition bump (h : heap) (w : Z) : Prop :=
  (∃ r psz, tail_free h w r psz) ∨ (∃ psz, tail_full h w psz).

(** What an allocation that starts at [w] leaves alone: from [h] to [h']
    the arena keeps its place, the break does not move down, and no byte
    below the header at [w - 4] changes. *)
Definition frame_below (h : heap) (w : Z) (h' : heap) : Prop :=
  mem_start h' = mem_start h ∧ mem_max_addr h' = mem_max_addr h
  ∧ mem_brk h ≤ mem_brk h'
  ∧ ∀ n a, a + Z.of_nat n ≤ w - 4 → load_le n h' a = load_le n h a.

(** The heap after a store of the bytes [bs] at [a] that stays inside the
    arena. *)
Fixpoint poke_bytes (a : Z) (bs : list Z) (h : heap) : heap :=
  match bs with
  | [] => h
  | b :: bs' => poke_bytes (a + 1) bs' (poke_byte a b h)
  end.


(** A computation that only reads the heap. *)
Definition reads_only {A} (c : M heap A) : Prop :=
  ∀ h a h', c h = Done (a, h') → h' = h.

(** *** Heaps for the scenarios *)

(** A zeroed arena of 8192 bytes mapped at address 4096, the heap after
    [mm_init] and allocations of the given sizes on it, and that heap
    after one more allocation. *)
Definition arena1 : heap := fresh_heap (replicate (Z.to_nat 8192) 0) 4096.

(** A heap whose free list starts outside the heap. *)
Definition stray_free_list : heap := mkHeap [] 4096 4096 4104 5.

End Mm.

(** ** The cache and the response relay of [proxy.c] *)

Module Proxy.

(** [cache.h] *)
Definition MAX_CACHE_SIZE : Z := 1049000.
Definition MAX_OBJECT_SIZE : Z := 102400.

(** A pointer to a [Cache] node; [None] is the null pointer. *)
Definition loc : Type := positive.

(** [struct Cache]. The buffers [url] and [response] are owned by the
    node: they are allocated for it and freed with it. *)
Record Cache : Type := mkCache {
  next : option loc;
  prev : option loc;
  url : option string;
  response : option (list Z);
  last_access : Z;
  response_size : Z
}.

Definition set_next (v : option loc) (e : Cache) : Cache :=
  mkCache v (prev e) (url e) (response e) (last_access e) (response_size e).
Definition set_prev (v : option loc) (e : Cache) : Cache :=
  mkCache (next e) v (url e) (response e) (last_access e) (response_size e).
Definition set_url (v : option string) (e : Cache) : Cache :=
  mkCache (next e) (prev e) v (response e) (last_access e) (response_size e).
Definition set_response (v : option (list Z)) (e : Cache) : Cache :=
  mkCache (next e) (prev e) (url e) v (last_access e) (response_size e).
Definition set_last_access (v : Z) (e : Cache) : Cache :=
  mkCache (next e) (prev e) (url e) (response e) v (response_size e).
Definition set_response_size (v : Z) (e : Cache) : Cache :=
  mkCache (next e) (prev e) (url e) (response e) (last_access e) v.

(** The state shared by the handler threads: the allocated [Cache] nodes,
    the two counters and the three semaphores. *)
Record proxy : Type := mkProxy {
  cache_mem : gmap loc Cache;
  remaining_cache_size : Z;        (* static int, initially MAX_CACHE_SIZE *)
  readers_count : Z;               (* static int, initially 0 *)
  count_mutex : Z;
  LRU_mutex : Z;
  write_mutex : Z
}.

Definition set_cache_mem (m : gmap loc Cache) (s : proxy) : proxy :=
  mkProxy m (remaining_cache_size s) (readers_count s)
    (count_mutex s) (LRU_mutex s) (write_mutex s).
Definition set_remaining (v : Z) (s : proxy) : proxy :=
  mkProxy (cache_mem s) v (readers_count s)
    (count_mutex s) (LRU_mutex s) (write_mutex s).
Definition set_readers (v : Z) (s : proxy) : proxy :=
  mkProxy (cache_mem s) (remaining_cache_size s) v
    (count_mutex s) (LRU_mutex s) (write_mutex s).
Definition set_count_mutex (v : Z) (s : proxy) : proxy :=
  mkProxy (cache_mem s) (remaining_cache_size s) (readers_count s)
    v (LRU_mutex s) (write_mutex s).
Definition set_LRU_mutex (v : Z) (s : proxy) : proxy :=
  mkProxy (cache_mem s) (remaining_cache_size s) (readers_count s)
    (count_mutex s) v (write_mutex s).
Definition set_write_mutex (v : Z) (s : proxy) : proxy :=
  mkProxy (cache_mem s) (remaining_cache_size s) (readers_count s)
    (count_mutex s) (LRU_mutex s) v.

(** Semaphore operations as seen by one thread running alone: [P] on a
    semaphore that is not available never returns. *)
Definition P (sem : proxy → Z) (set : Z → proxy → proxy) : M proxy unit :=
  λ s, if 0 <? sem s then Done (tt, set (sem s - 1) s) else OutOfFuel.
Definition V (sem : proxy → Z) (set : Z → proxy → proxy) : M proxy unit :=
  λ s, Done (tt, set (sem s + 1) s).

(** Access to a node through a pointer. *)
Definition deref (p : loc) : M proxy Cache := read (λ s, cache_mem s !! p).
Definition assign (p : loc) (f : Cache → Cache) : M proxy unit :=
  e <- deref p ;;
  modify (λ s, set_cache_mem (<[p := f e]> (cache_mem s)) s).
Definition deref_ptr (p : option loc) : M proxy loc :=
  match p with Some q => ret q | None => fault end.

(** The fields of a node that [Malloc] returns are not initialised. *)
Definition uninitialised : Cache := mkCache None None None None 0 0.

(** [Malloc(sizeof(struct Cache))]: a node at an address not in use. *)
Definition Malloc : M proxy loc :=
  λ s, let p := fresh (dom (cache_mem s)) in
       Done (p, set_cache_mem (<[p := uninitialised]> (cache_mem s)) s).

(** [free(c)] of a node. *)
Definition Free (p : loc) : M proxy unit :=
  deref p ;;
  modify (λ s, set_cache_mem (delete p (cache_mem s)) s).

(** [init_cache] *)
Definition init_cache (c : loc) : M proxy unit :=
  assign c (set_last_access 0) ;;
  assign c (set_url None) ;;
  assign c (set_next None) ;;
  assign c (set_prev None) ;;
  assign c (set_response None) ;;
  assign c (set_response_size 0).

(** The state of the process when [main] has allocated and initialised the
    sentinel: returns the sentinel. *)
Definition empty_proxy : proxy := mkProxy ∅ MAX_CACHE_SIZE 0 1 1 1.
Definition main_init : M proxy loc :=
  c <- Malloc ;;
  init_cache c ;;
  ret c.

(** The reader exit protocol of [search_cache]. *)
Definition reader_exit : M proxy unit :=
  P count_mutex set_count_mutex ;;
  modify (λ s, set_readers (readers_count s - 1) s) ;;
  rc <- gets readers_count ;;
  (if rc =? 0 then V write_mutex set_write_mutex else ret tt) ;;
  V count_mutex set_count_mutex.

(** The loop of [search_cache] (lines 447-468); [now] is what [time(NULL)]
    returns. *)
Fixpoint search_loop (fuel : nat) (c : option loc) (curl : string) (now : Z)
    : M proxy (option loc) :=
  match c with
  | None =>
      reader_exit ;;
      ret None
  | Some p =>
      match fuel with
      | O => out_of_fuel
      | S fuel' =>
          e <- deref p ;;
          match url e with
          | None => fault
          | Some u =>
              if String.eqb curl u then
                P LRU_mutex set_LRU_mutex ;;
                assign p (set_last_access now) ;;
                V LRU_mutex set_LRU_mutex ;;
                reader_exit ;;
                ret (Some p)
              else
                assign p (set_last_access now) ;;
                e <- deref p ;;
                search_loop fuel' (next e) curl now
          end
      end
  end.

(** [search_cache] *)
Definition search_cache (fuel : nat) (c : loc) (curl : string) (now : Z)
    : M proxy (option loc) :=
  Malloc ;;                 (* Cache *cache_hit = Malloc(...); cache_hit = NULL; *)
  P count_mutex set_count_mutex ;;
  modify (λ s, set_readers (readers_count s + 1) s) ;;
  rc <- gets readers_count ;;
  (if rc =? 1 then P write_mutex set_write_mutex else ret tt) ;;
  V count_mutex set_count_mutex ;;
  hd <- deref c ;;
  search_loop fuel (next hd) curl now.

(** The loop of [find_LRU]. *)
Fixpoint find_LRU_loop (fuel : nat) (t : Z) (temp : loc) (c : option loc)
    : M proxy loc :=
  match c with
  | None => ret temp
  | Some p =>
      match fuel with
      | O => out_of_fuel
      | S fuel' =>
          te <- deref temp ;;
          e <- deref p ;;
          if last_access te <? t
          then find_LRU_loop fuel' (last_access e) p (next e)
          else find_LRU_loop fuel' t temp (next e)
      end
  end.

(** [find_LRU] *)
Definition find_LRU (fuel : nat) (c : loc) (now : Z) : M proxy loc :=
  hd <- deref c ;;
  find_LRU_loop fuel now c (next hd).

(** [add_cache_entry]: add at the front of the list. *)
Definition add_cache_entry (c new_block : loc) : M proxy unit :=
  hd <- deref c ;;
  match next hd with
  | None =>
      assign c (set_next (Some new_block)) ;;
      assign new_block (set_next None) ;;
      assign new_block (set_prev (Some c))
  | Some first =>
      assign new_block (set_next (Some first)) ;;
      assign new_block (set_prev (Some c)) ;;
      assign c (set_next (Some new_block)) ;;
      nb <- deref new_block ;;
      n <- deref_ptr (next nb) ;;
      assign n (set_prev (Some new_block))
  end.

(** [free_cache_entry]: the buffers go with the node. *)
Definition free_cache_entry (c : loc) : M proxy unit := Free c.

(** [delete_cache_entry] *)
Definition delete_cache_entry (LRU : loc) : M proxy unit :=
  e <- deref LRU ;;
  match next e with
  | None =>
      pv <- deref_ptr (prev e) ;;
      assign pv (set_next None) ;;
      assign LRU (set_prev None) ;;
      free_cache_entry LRU
  | Some n =>
      assign n (set_prev (prev e)) ;;
      e <- deref LRU ;;
      pv <- deref_ptr (prev e) ;;
      assign pv (set_next (next e)) ;;
      assign LRU (set_next None) ;;
      assign LRU (set_prev None) ;;
      free_cache_entry LRU
  end.

(** The eviction loop of [write_to_cache] (lines 514-519). *)
Fixpoint evict_loop (fuel : nat) (c : loc) (obj_size now : Z) (LRU : loc)
    : M proxy loc :=
  e <- deref LRU ;;
  rem <- gets remaining_cache_size ;;
  if response_size e + rem <? obj_size then
    match fuel with
    | O => out_of_fuel
    | S fuel' =>
        modify (λ s, set_remaining (remaining_cache_size s + response_size e) s) ;;
        delete_cache_entry LRU ;;
        LRU <- find_LRU fuel' c now ;;
        evict_loop fuel' c obj_size now LRU
    end
  else ret LRU.

(** [write_to_cache]. [memcpy(dst, response, obj_size)] keeps the first
    [obj_size] bytes of the buffer. *)
Definition write_to_cache (fuel : nat) (c : loc) (c_url : string)
    (obj_size : Z) (resp : list Z) (now : Z) : M proxy unit :=
  P write_mutex set_write_mutex ;;
  let new_url := c_url in
  let new_response := take (Z.to_nat obj_size) resp in
  rem <- gets remaining_cache_size ;;
  (if obj_size <=? rem then
     new_block <- Malloc ;;
     assign new_block (set_response_size obj_size) ;;
     assign new_block (set_url (Some new_url)) ;;
     assign new_block (set_response (Some new_response)) ;;
     assign new_block (set_last_access now) ;;
     modify (λ s, set_remaining (remaining_cache_size s - obj_size) s) ;;
     add_cache_entry c new_block
   else
     LRU <- find_LRU fuel c now ;;
     LRU <- evict_loop fuel c obj_size now LRU ;;
     e <- deref LRU ;;
     modify (λ s, set_remaining (remaining_cache_size s + (response_size e - obj_size)) s) ;;
     assign LRU (set_url (Some new_url)) ;;
     assign LRU (set_response (Some new_response)) ;;
     assign LRU (set_response_size obj_size) ;;
     assign LRU (set_last_access now)) ;;
  V write_mutex set_write_mutex.

(** *** Relaying the response (lines 302-320 of [handle_request]) *)

(** [memcpy(response_buf + sum, response, n)] *)
Definition buf_write (buf : list Z) (off : Z) (bs : list Z) : list Z :=
  take (Z.to_nat off) buf ++ bs ++ drop (Z.to_nat off + length bs) buf.

(** The read loop. [reads] are the successive results of [Rio_readn] on
    the server connection; a read of no bytes ends the loop. The result is
    the buffer, [sum], [response_buf_left] and the bytes sent on to the
    client. *)
Fixpoint relay_loop (reads : list (list Z)) (response_buf : list Z)
    (sum response_buf_left : Z) (client : list Z) : list Z * Z * Z * list Z :=
  match reads with
  | [] => (response_buf, sum, response_buf_left, client)
  | chunk :: rest =>
      let n := Z.of_nat (length chunk) in
      if 0 <? n then
        let copied := 0 <? response_buf_left - n in
        let response_buf := if copied then buf_write response_buf sum chunk else response_buf in
        let sum := if copied then sum + n else sum in
        relay_loop rest response_buf sum (response_buf_left - n) (client ++ chunk)
      else (response_buf, sum, response_buf_left, client)
  end.

(** The relay from the initial values of [handle_request]: a zeroed
    buffer of [MAX_OBJECT_SIZE] bytes, [sum = 0] and
    [response_buf_left = MAX_OBJECT_SIZE]. *)
Definition relay (reads : list (list Z)) : list Z * Z * Z * list Z :=
  relay_loop reads (replicate (Z.to_nat MAX_OBJECT_SIZE) 0) 0 MAX_OBJECT_SIZE [].

(** The tail of [handle_request]: relay the response and insert it into
    the cache; returns the bytes written to the client. *)
Definition relay_response (fuel : nat) (c : loc) (url : string)
    (reads : list (list Z)) (now : Z) : M proxy (list Z) :=
  let '(response_buf, sum, response_buf_left, client) := relay reads in
  (if 0 <=? response_buf_left
   then write_to_cache fuel c url sum response_buf now
   else ret tt) ;;
  ret client.

(** The bytes that [relay_response] has [write_to_cache] store, if any. *)
Definition cached_object (reads : list (list Z)) : option (list Z) :=
  let '(response_buf, sum, response_buf_left, _) := relay reads in
  if 0 <=? response_buf_left
  then Some (take (Z.to_nat sum) response_buf)
  else None.

(** *** Specification-side definitions *)

(** The nodes of the list after the sentinel, in order: [p] points to the
    first of [ls], every node's [prev] points to its predecessor ([pv] for
    the first), and the last node's [next] is null. *)
Fixpoint dlist (m : gmap loc Cache) (pv : loc) (p : option loc) (ls : list loc)
    : Prop :=
  match ls with
  | [] => p = None
  | x :: ls' =>
      p = Some x ∧
      ∃ e, m !! x = Some e ∧ prev e = Some pv ∧ dlist m x (next e) ls'
  end.

(** The sum of [response_size] over the nodes [ls]. *)
Definition total_size (m : gmap loc Cache) (ls : list loc) : Z :=
  foldr (λ x acc, from_option response_size 0 (m !! x) + acc) 0 ls.

(** No thread is inside the cache: the semaphores are available. *)
Definition idle (s : proxy) : Prop :=
  readers_count s = 0 ∧ count_mutex s = 1 ∧ LRU_mutex s = 1 ∧ write_mutex s = 1.

(** The cache with sentinel [c] holds the live entries [ls]: the list is
    well linked, the sentinel is as [init_cache] left it, and the
    accounting invariant holds. *)
Definition cache_ok (c : loc) (ls : list loc) (m : gmap loc Cache) (rem : Z)
    : Prop :=
  NoDup (c :: ls)
  ∧ (∃ hd, m !! c = Some hd ∧ last_access hd = 0 ∧ dlist m c (next hd) ls)
  ∧ total_size m ls + rem = MAX_CACHE_SIZE.

Definition cache_inv (c : loc) (ls : list loc) (s : proxy) : Prop :=
  idle s ∧ cache_ok c ls (cache_mem s) (remaining_cache_size s).

(** What [write_to_cache] leaves in the node [x] that it fills. *)
Definition holds_object (u : string) (obj_size : Z) (resp : list Z) (now : Z)
    (m : gmap loc Cache) (x : loc) : Prop :=
  ∃ e, m !! x = Some e ∧ url e = Some u
       ∧ response e = Some (take (Z.to_nat obj_size) resp)
       ∧ response_size e = obj_size ∧ last_access e = now.

(** The live entries as (url, last_access) pairs, from the sentinel's
    successor on. *)
Fixpoint entries_from (fuel : nat) (p : option loc) : M proxy (list (string * Z)) :=
  match p with
  | None => ret []
  | Some q =>
      match fuel with
      | O => out_of_fuel
      | S fuel' =>
          e <- deref q ;;
          rest <- entries_from fuel' (next e) ;;
          ret ((default "" (url e), last_access e) :: rest)
      end
  end.
Definition entries (fuel : nat) (c : loc) : M proxy (list (string * Z)) :=
  hd <- deref c ;;
  entries_from fuel (next hd).

(** *** Scenarios *)

(** A cache that received the response for "a" at time 3 and the one for
    "b" at time 5. *)
Definition two_entries : M proxy loc :=
  c <- main_init ;;
  write_to_cache 4 c "a" 3 [1; 2; 3] 3 ;;
  write_to_cache 4 c "b" 3 [4; 5; 6] 5 ;;
  ret c.

(** [find_LRU] at time 10 on that cache: the entry found, and all live
    entries. *)
Definition find_LRU_scenario : M proxy ((string * Z) * list (string * Z)) :=
  c <- two_entries ;;
  l <- find_LRU 4 c 10 ;;
  e <- deref l ;;
  es <- entries 4 c ;;
  ret ((default "" (url e), last_access e), es).

(** A lookup of [u] at time 10 on that cache: whether it hit, the live
    entries before and after, and the number of allocated nodes before
    and after. *)
Definition lookup_scenario (u : string)
    : M proxy (bool * list (string * Z) * list (string * Z) * nat * nat) :=
  c <- two_entries ;;
  before <- entries 4 c ;;
  nodes_before <- gets (λ s, size (cache_mem s)) ;;
  r <- search_cache 4 c u 10 ;;
  after <- entries 4 c ;;
  nodes_after <- gets (λ s, size (cache_mem s)) ;;
  ret (bool_decide (is_Some r), before, after, nodes_before, nodes_after).

(** Ten responses of [MAX_OBJECT_SIZE] bytes, received at times 1 to 10
    (the bytes themselves play no part in the accounting and are left
    out): 25,000 bytes remain. *)
Fixpoint fill (n : nat) (c : loc) (t : Z) : M proxy unit :=
  match n with
  | O => ret tt
  | S n' => write_to_cache 16 c "u" MAX_OBJECT_SIZE [] t ;; fill n' c (t + 1)
  end.
Definition full_cache : M proxy loc :=
  c <- main_init ;;
  fill 10 c 1 ;;
  ret c.

(** A response of exactly [MAX_OBJECT_SIZE] bytes, as [Rio_readn] delivers
    it with a line buffer of 8192 bytes: twelve full reads and a last one
    of 4096 bytes. *)
Definition response_102400 : list (list Z) :=
  replicate 12 (replicate (Z.to_nat 8192) 1) ++ [replicate (Z.to_nat 4096) 1].

(** Two nodes hold the same object: they agree on everything but the
    links. *)
Definition same_object (e e' : Cache) : Prop :=
  url e' = url e ∧ response e' = response e
  ∧ response_size e' = response_size e ∧ last_access e' = last_access e.

(** *** The request handling of [proxy.c]

    A C string is the Rocq string of its characters before the
    terminator; a [char] array is the list of its bytes. A library call
    whose behaviour is undefined gives [None]. *)

Definition NUL : Ascii.ascii := "000"%char.
Definition CR : Ascii.ascii := "013"%char.
Definition LF : Ascii.ascii := "010"%char.
Definition CRLF : string := String CR (String LF "").

(** Modelled from the spec: the size [MAXBUF] of the array [body] of
    [clienterror]. It is defined in [csapp.h], which is not among the
    sources; the value is that of the CS:APP distribution. *)
Definition MAXBUF : nat := Z.to_nat 8192.

(** The string at offset [n] of [s]: the pointer [s + n]. *)
Fixpoint str_from (n : nat) (s : string) : string :=
  match n, s with
  | S n', String _ s' => str_from n' s'
  | _, _ => s
  end.

(** The C string that starts at the first byte of a buffer; none when the
    buffer holds no terminator. *)
Fixpoint cstring (buf : list Ascii.ascii) : option string :=
  match buf with
  | [] => None
  | a :: buf' => if Ascii.eqb a NUL then Some ""%string else String a <$> cstring buf'
  end.

(** Storing the bytes [bs] from offset [off] of a buffer on; none when
    they do not fit. *)
Definition char_store (buf : list Ascii.ascii) (off : nat) (bs : list Ascii.ascii)
    : option (list Ascii.ascii) :=
  if decide (off + length bs ≤ length buf)%nat
  then Some (take off buf ++ bs ++ drop (off + length bs) buf)
  else None.

(** Modelled from the spec: the functions of the C library that
    [proxy.c] calls, after the C standard. *)
Definition tolower (c : Ascii.ascii) : Ascii.ascii :=
  let n := Ascii.N_of_ascii c in
  if ((65 <=? n) && (n <=? 90))%N then Ascii.ascii_of_N (n + 32) else c.

(** [strncasecmp(s1, s2, n) == 0] *)
Fixpoint strncasecmp_eq (s1 s2 : string) (n : nat) {struct n} : bool :=
  match n with
  | O => true
  | S n' =>
      match s1, s2 with
      | EmptyString, EmptyString => true
      | String a s1', String b s2' =>
          Ascii.eqb (tolower a) (tolower b) && strncasecmp_eq s1' s2' n'
      | _, _ => false
      end
  end.

(** [strcasecmp(s1, s2) == 0] *)
Fixpoint strcasecmp_eq (s1 s2 : string) : bool :=
  match s1, s2 with
  | EmptyString, EmptyString => true
  | String a s1', String b s2' =>
      Ascii.eqb (tolower a) (tolower b) && strcasecmp_eq s1' s2'
  | _, _ => false
  end.

(** [strpbrk(s, accept)], as the offset of the byte found. *)
Fixpoint strpbrk (s accept : string) : option nat :=
  match s with
  | EmptyString => None
  | String a s' =>
      if existsb (Ascii.eqb a) (String.list_ascii_of_string accept)
      then Some O
      else S <$> strpbrk s' accept
  end.

(** [strchr(s, c)] for a [c] other than the terminator, as the offset of
    the byte found. *)
Fixpoint strchr (s : string) (c : Ascii.ascii) : option nat :=
  match s with
  | EmptyString => None
  | String a s' => if Ascii.eqb a c then Some O else S <$> strchr s' c
  end.

(** [strstr(haystack, needle) != NULL] *)
Fixpoint strstr (haystack needle : string) : bool :=
  String.prefix needle haystack
  || match haystack with
     | EmptyString => false
     | String _ h' => strstr h' needle
     end.

(** [strncpy(dst, src, n)]: [n] bytes are written, zeros after the end of
    [src]. *)
Definition strncpy (dst : list Ascii.ascii) (src : string) (n : nat)
    : option (list Ascii.ascii) :=
  let cs := String.list_ascii_of_string src in
  char_store dst 0 (take n cs ++ replicate (n - length cs) NUL).

(** [strcpy(dst, src)] *)
Definition strcpy (dst : list Ascii.ascii) (src : string) : option (list Ascii.ascii) :=
  char_store dst 0 (String.list_ascii_of_string src ++ [NUL]).

(** [atoi]: white space, an optional sign, decimal digits. The behaviour
    is undefined when the value is not an [int]. *)
Definition INT_MAX : Z := 2147483647.
Definition INT_MIN : Z := -2147483648.

Fixpoint skip_spaces (s : string) : string :=
  match s with
  | String a s' => if Ascii.is_space a then skip_spaces s' else s
  | EmptyString => EmptyString
  end.

Fixpoint atoi_digits (s : string) (acc : Z) : Z :=
  match s with
  | String a s' =>
      match Ascii.is_nat a with
      | Some d => atoi_digits s' (10 * acc + Z.of_nat d)
      | None => acc
      end
  | EmptyString => acc
  end.

Definition atoi (s : string) : option Z :=
  let v := match skip_spaces s with
           | String "-" s' => - atoi_digits s' 0
           | String "+" s' => atoi_digits s' 0
           | s' => atoi_digits s' 0
           end in
  if (INT_MIN <=? v) && (v <=? INT_MAX) then Some v else None.

(** [parse_url]. The arguments [host] and [path] are the caller's buffers
    and [port] is the value of [*port] at the call; the result is the
    return value with the buffers and [*port] at the return. When
    [strpbrk] finds no delimiter, [len] is computed from the null pointer
    and the null pointer is read. *)
Definition parse_url (uri : string) (host path : list Ascii.ascii) (port : Z)
    : option (Z * list Ascii.ascii * list Ascii.ascii * Z) :=
  if negb (strncasecmp_eq uri "http://" 7) then
    host ← char_store host 0 [NUL];
    Some (-1, host, path, port)
  else
    let host_beg := str_from 7 uri in
    len ← strpbrk host_beg (String " " (String ":" (String "/" CRLF)));
    host ← strncpy host host_beg len;
    host ← char_store host len [NUL];
    port ← (if bool_decide (String.get len host_beg = Some ":"%char)
            then atoi (str_from (S len) host_beg)
            else Some port);
    path ← match strchr host_beg "/" with
           | None => char_store path 0 ["/"%char]
           | Some i => strcpy path (str_from i host_beg)
           end;
    Some (0, host, path, port).

(** The request headers of the proxy. *)
Definition user_agent_hdr : string :=
  "User-Agent: Mozilla/5.0 (X11; Linux x86_64; rv:10.0.3) Gecko/20120305 Firefox/10.0.3" +:+ CRLF.
Definition accept_hdr : string :=
  "Accept: text/html,application/xhtml+xml,application/xml;q=0.9,*/*;q=0.8" +:+ CRLF.
Definition accept_encoding_hdr : string := "Accept-Encoding: gzip, deflate" +:+ CRLF.
Definition connection_hdr : string := "Connection: close" +:+ CRLF.
Definition proxy_connection_hdr : string := "Proxy-Connection: close" +:+ CRLF.
Definition http_version_hdr : string := "HTTP/1.0" +:+ CRLF.

(** [clienterror]: the bytes written to the client. Each [sprintf] into
    [body] appends to what [body] holds; there is none when [body] does
    not fit its array of [MAXBUF] bytes. *)
Definition clienterror (cause errnum shortmsg longmsg : string) : option string :=
  let body := "<html><title>Proxy Server Error</title>"%string in
  let body := body +:+ "<body bgcolor=" +:+ "ffffff" +:+ ">" +:+ CRLF in
  let body := body +:+ errnum +:+ ": " +:+ shortmsg +:+ CRLF in
  let body := body +:+ "<p>" +:+ longmsg +:+ ": " +:+ cause +:+ CRLF in
  let body := body +:+ "<hr><em>Lucas Bruder's Proxy Server</em>" +:+ CRLF in
  if decide (String.length body < MAXBUF)%nat then
    Some (("HTTP/1.0 " +:+ errnum +:+ " " +:+ shortmsg +:+ CRLF)
          +:+ ("Content-type: text/html" +:+ CRLF)
          +:+ ("Content-length: " +:+ pretty (String.length body) +:+ CRLF +:+ CRLF)
          +:+ body)
  else None.

(** The [has_...] flags of [handle_request]. *)
Record flags : Type := mkFlags {
  has_host : bool;
  has_accept : bool;
  has_user_agent : bool;
  has_accept_encoding : bool;
  has_connection : bool;
  has_proxy_connection : bool
}.

Definition no_flags : flags := mkFlags false false false false false false.

(** The header loop (lines 221-266). [lines] are the lines that the
    successive calls of [Rio_readlineb] deliver, the end of the list
    being the end of the input; [out] collects what is written to the
    server. *)
Fixpoint header_loop (lines : list string) (fl : flags) (out : string)
    : flags * string :=
  match lines with
  | [] => (fl, out)
  | buf :: rest =>
      if (2 <? String.length buf)%nat then
        if strstr buf "Host: " then
          header_loop rest
            (mkFlags true (has_accept fl) (has_user_agent fl)
               (has_accept_encoding fl) (has_connection fl) (has_proxy_connection fl))
            (out +:+ buf)
        else if strstr buf "Accept: " then
          header_loop rest
            (mkFlags (has_host fl) true (has_user_agent fl)
               (has_accept_encoding fl) (has_connection fl) (has_proxy_connection fl))
            (out +:+ accept_hdr)
        else if strstr buf "Accept-Encoding: " then
          header_loop rest
            (mkFlags (has_host fl) (has_accept fl) (has_user_agent fl)
               true (has_connection fl) (has_proxy_connection fl))
            (out +:+ accept_encoding_hdr)
        else if strstr buf "Connection: " then
          header_loop rest
            (mkFlags (has_host fl) (has_accept fl) (has_user_agent fl)
               (has_accept_encoding fl) true (has_proxy_connection fl))
            (out +:+ connection_hdr)
        else if strstr buf "User-Agent: " then
          header_loop rest
            (mkFlags (has_host fl) (has_accept fl) true
               (has_accept_encoding fl) (has_connection fl) (has_proxy_connection fl))
            (out +:+ user_agent_hdr)
        else if strstr buf "Proxy-Connection: " then
          header_loop rest
            (mkFlags (has_host fl) (has_accept fl) (has_user_agent fl)
               (has_accept_encoding fl) (has_connection fl) true)
            (out +:+ proxy_connection_hdr)
        else if negb (strstr buf "User-Agent: ")
                && negb (strstr buf "Accept-Encoding: ")
                && negb (strstr buf "Accept: ")
                && negb (strstr buf "Connection: ")
                && negb (strstr buf "Proxy Connection: ") then
          header_loop rest fl (out +:+ buf)
        else header_loop rest fl out
      else (fl, out)
  end.

(** The headers that were not seen (lines 273-298). *)
Definition default_headers (fl : flags) (host : string) : string :=
  (if has_host fl then "" else "Host: " +:+ host +:+ CRLF)
  +:+ (if has_accept fl then "" else accept_hdr)
  +:+ (if has_accept_encoding fl then "" else accept_encoding_hdr)
  +:+ (if has_connection fl then "" else connection_hdr)
  +:+ (if has_user_agent fl then "" else user_agent_hdr)
  +:+ (if has_proxy_connection fl then "" else proxy_connection_hdr).

(** The request written to the server (lines 213-300): the request line,
    the output of the header loop, the headers not seen and the empty
    line. *)
Definition request_text (method path : string) (lines : list string)
    (host : string) : string :=
  let '(fl, out) :=
    header_loop lines no_flags
      (method +:+ " " +:+ path +:+ " " +:+ http_version_hdr) in
  out +:+ default_headers fl host +:+ CRLF.

Definition bytes_of_string (s : string) : list Z :=
  (λ a, Z.of_N (Ascii.N_of_ascii a)) <$> String.list_ascii_of_string s.

(** [handle_request], from line 171 on: [method] and [uri] are the first
    two words of the request line, as [sscanf] stored them. [host] and
    [path] are the arrays of that name as the function finds them on its
    stack. [server h p] is what [open_clientfd_r] meets at host [h] and
    port [p]: no connection, or a server that answers the request sent
    to it with the successive results of [Rio_readn]. [now] is the time
    of the lookup and [now'] that of the insertion. The result is the
    bytes written to the client and, when a connection was made, those
    written to the server. *)
Definition handle_request (fuel : nat) (c : loc) (method uri : string)
    (lines : list string) (host path : list Ascii.ascii)
    (server : string → Z → option (string → list (list Z)))
    (now now' : Z) : M proxy (list Z * option string) :=
  let url := uri in
  if negb (strcasecmp_eq method "GET") then
    page <- read (λ _, clienterror method "501" "Not Implemented"
                         "Proxy only implements GET request") ;;
    ret (bytes_of_string page, None)
  else
    r <- read (λ _, parse_url uri host path 80) ;;
    let '(parse, host, path, port) := r in
    if parse =? -1 then
      cause <- read (λ _, cstring host) ;;
      page <- read (λ _, clienterror cause "400" "Bad Request"
                           "Proxy could not understand the request") ;;
      ret (bytes_of_string page, None)
    else
      cache_hit <- search_cache fuel c url now ;;
      match cache_hit with
      | Some hit =>
          e <- deref hit ;;
          bytes <- read (λ _, bs ← response e;
                              if decide (0 ≤ response_size e ≤ Z.of_nat (length bs))
                              then Some (take (Z.to_nat (response_size e)) bs)
                              else None) ;;
          ret (bytes, None)
      | None =>
          h <- read (λ _, cstring host) ;;
          match server h port with
          | None => ret ([], None)
          | Some answer =>
              p <- read (λ _, cstring path) ;;
              let request := request_text method p lines h in
              client <- relay_response fuel c url (answer request) now' ;;
              ret (client, Some request)
          end
      end.

(** The bytes that end a host name in [parse_url]. *)
Definition host_delimiters : list Ascii.ascii :=
  [" "%char; ":"%char; "/"%char; CR; LF].

(** A host name holds none of them. *)
Definition host_name (h : string) : Prop :=
  Forall (λ a, a ∉ host_delimiters) (String.list_ascii_of_string h).

(** No cache entry of [ls] holds the url [u]. *)
Definition not_cached (u : string) (m : gmap loc Cache) (ls : list loc) : Prop :=
  ∀ y, y ∈ ls → ∃ e v, m !! y = Some e ∧ url e = Some v ∧ v ≠ u.




(** A cache that received the three bytes of the response for
    http://www.cmu.edu/ at time 3. *)
Definition one_entry : M proxy loc :=
  c <- main_init ;;
  write_to_cache 4 c "http://www.cmu.edu/" 3 [72; 105; 10] 3 ;;
  ret c.

(** Arrays of 64 bytes for [host] and [path]. *)
Definition stack_array : list Ascii.ascii := replicate 64 "x"%char.

(** A server that answers every request with three bytes in two reads,
    and one that cannot be reached. *)
Definition origin : string → Z → option (string → list (list Z)) :=
  λ _ _, Some (λ _, [[72; 105]; [10]]).
Definition unreachable : string → Z → option (string → list (list Z)) :=
  λ _ _, None.

End Proxy.

(** * Properties *)

(** ** The state monad *)

Section monad_facts.
Context {S A B : Type}.
Lemma bind_done (c : M S A) (k : A → M S B) s a s' :
  c s = Done (a, s') → bind c k s = k a s'.
Proof. intros H. unfold bind. by rewrite H. Qed.
Lemma bind_inv (c : M S A) (k : A → M S B) s b s'' :
  bind c k s = Done (b, s'') →
  ∃ a s', c s = Done (a, s') ∧ k a s' = Done (b, s'').
Proof.
  unfold bind. destruct (c s) as [[a s']| |]; [|done..]. eauto.
Qed.
Lemma bind_fault (c : M S A) (k : A → M S B) s :
  c s = Fault → bind c k s = Fault.
Proof. intros H. unfold bind. by rewrite H. Qed.
Lemma bind_out_of_fuel (c : M S A) (k : A → M S B) s :
  c s = OutOfFuel → bind c k s = OutOfFuel.
Proof. intros H. unfold bind. by rewrite H. Qed.
End monad_facts.

Lemma bind_assoc {S A B C} (c : M S A) (k1 : A → M S B) (k2 : B → M S C) s :
  bind (bind c k1) k2 s = bind c (λ a, bind (k1 a) k2) s.
Proof. unfold bind. by destruct (c s) as [[a s']| |]. Qed.


(** ** The allocator *)

Module MmProps.
Import Mm.


Section memory.
Implicit Types (h : heap) (a b v : Z) (n m : nat).

Lemma poke_le_layout n a v h :
  mem_start (poke_le n a v h) = mem_start h
  ∧ mem_brk (poke_le n a v h) = mem_brk h
  ∧ heap_listp (poke_le n a v h) = heap_listp h
  ∧ free_list_root (poke_le n a v h) = free_list_root h
  ∧ mem_max_addr (poke_le n a v h) = mem_max_addr h.
Proof.
  revert a v h. induction n as [|n IH]; intros a v h; [done|].
  cbn [poke_le]. destruct (IH (a + 1) (Z.shiftr v 8) (poke_byte a (Z.land v 255) h))
    as (-> & -> & -> & -> & ->).
  unfold mem_max_addr, poke_byte, set_mem_heap; cbn. by rewrite length_insert.
Qed.

Lemma store_le_poke n a v h :
  mapped h a n → store_le n a v h = Some (poke_le n a v h).
Proof.
  revert a v h. induction n as [|n IH]; intros a v h [Hlo Hhi]; [done|].
  cbn [store_le poke_le]. unfold store_byte.
  destruct (Z.ltb_spec a (mem_start h)); [lia|].
  destruct (Z.leb_spec (mem_max_addr h) a); [lia|].
  apply IH. split.
  - unfold poke_byte, set_mem_heap; cbn. lia.
  - unfold mem_max_addr, poke_byte, set_mem_heap in *; cbn.
    rewrite length_insert. lia.
Qed.

Lemma load_byte_poke_byte_ne a v h b :
  mem_start h ≤ a → a ≠ b → load_byte (poke_byte a v h) b = load_byte h b.
Proof.
  intros Hlo Hne. unfold load_byte, poke_byte, set_mem_heap; cbn.
  destruct (Z.ltb_spec b (mem_start h)); [done|].
  apply list_lookup_insert_ne. lia.
Qed.

Lemma load_byte_poke_byte_eq a v h :
  mapped h a 1 → load_byte (poke_byte a v h) a = Some v.
Proof.
  intros [Hlo Hhi]. unfold load_byte, poke_byte, set_mem_heap; cbn.
  destruct (Z.ltb_spec a (mem_start h)); [lia|].
  apply list_lookup_insert_eq. unfold mem_max_addr in Hhi. lia.
Qed.

Lemma load_byte_poke_le_other n a v h b :
  mem_start h ≤ a → (b < a ∨ a + Z.of_nat n ≤ b) →
  load_byte (poke_le n a v h) b = load_byte h b.
Proof.
  revert a v h. induction n as [|n IH]; intros a v h Hlo Hout; [done|].
  cbn [poke_le]. rewrite IH.
  - apply load_byte_poke_byte_ne; lia.
  - unfold poke_byte, set_mem_heap; cbn. lia.
  - lia.
Qed.

Lemma load_le_poke_le_other m b n a v h :
  mem_start h ≤ a → (b + Z.of_nat m ≤ a ∨ a + Z.of_nat n ≤ b) →
  load_le m (poke_le n a v h) b = load_le m h b.
Proof.
  intros Hlo. revert b. induction m as [|m IH]; intros b Hout; [done|].
  cbn [load_le]. rewrite load_byte_poke_le_other by lia.
  by rewrite IH by lia.
Qed.

Lemma land_ones_step v k :
  0 ≤ k →
  Z.lor (Z.land v 255) (Z.shiftl (Z.land (Z.shiftr v 8) (Z.ones k)) 8)
  = Z.land v (Z.ones (8 + k)).
Proof.
  intros Hk. apply Z.bits_inj'. intros i Hi.
  rewrite Z.lor_spec, !Z.land_spec.
  change 255 with (Z.ones 8).
  destruct (Z.lt_ge_cases i 8).
  - rewrite Z.shiftl_spec_low by lia.
    rewrite !Z.ones_spec_low by lia.
    by rewrite orb_false_r.
  - rewrite Z.shiftl_spec by lia.
    rewrite Z.land_spec, Z.shiftr_spec by lia.
    rewrite (Z.ones_spec_high 8) by lia.
    rewrite andb_false_r, orb_false_l.
    replace (i - 8 + 8) with i by lia.
    f_equal. destruct (Z.lt_ge_cases i (8 + k)).
    + by rewrite !Z.ones_spec_low by lia.
    + by rewrite !Z.ones_spec_high by lia.
Qed.

Lemma load_le_poke_le_same n a v h :
  mapped h a n →
  load_le n (poke_le n a v h) a = Some (Z.land v (Z.ones (8 * Z.of_nat n))).
Proof.
  revert a v h. induction n as [|n IH]; intros a v h [Hlo Hhi].
  - cbn. by rewrite Z.land_0_r.
  - cbn [load_le poke_le].
    rewrite load_byte_poke_le_other;
      [|unfold poke_byte, set_mem_heap; cbn; lia|lia].
    rewrite load_byte_poke_byte_eq by (split; lia).
    rewrite IH.
    + rewrite land_ones_step by lia. do 3 f_equal. lia.
    + split.
      * unfold poke_byte, set_mem_heap; cbn. lia.
      * unfold mem_max_addr, poke_byte, set_mem_heap in *; cbn.
        rewrite length_insert. lia.
Qed.
End memory.



Section symbolic.
Implicit Types (h : heap) (a b v p : Z) (n m : nat).

Lemma load_le_layout n h h' a :
  mem_heap h' = mem_heap h → mem_start h' = mem_start h →
  load_le n h' a = load_le n h a.
Proof.
  intros Hm Hs. revert a. induction n as [|n IH]; intros a; [done|].
  cbn [load_le]. rewrite IH. unfold load_byte. by rewrite Hm, Hs.
Qed.

Lemma load_le_set_mem_brk n x h a : load_le n (set_mem_brk x h) a = load_le n h a.
Proof. by apply load_le_layout. Qed.
Lemma load_le_set_heap_listp n x h a : load_le n (set_heap_listp x h) a = load_le n h a.
Proof. by apply load_le_layout. Qed.
Lemma load_le_set_free_list_root n x h a :
  load_le n (set_free_list_root x h) a = load_le n h a.
Proof. by apply load_le_layout. Qed.

Lemma load_le_poke_le_eq n a b v h :
  a = b → mapped h a n → 0 ≤ v < 2 ^ (8 * Z.of_nat n) →
  load_le n (poke_le n a v h) b = Some v.
Proof.
  intros <- Hm Hv. rewrite load_le_poke_le_same by done.
  f_equal. rewrite Z.land_ones by lia. by apply Z.mod_small.
Qed.

Lemma PUT_done p v h : mapped h p 4 → PUT p v h = Done (tt, poke_le 4 p v h).
Proof. intros H. unfold PUT, update. by rewrite store_le_poke. Qed.
Lemma PUT_NEXT_FREE_done p v h :
  mapped h p 8 → PUT_NEXT_FREE p v h = Done (tt, poke_le 8 p v h).
Proof. intros H. unfold PUT_NEXT_FREE, update. by rewrite store_le_poke. Qed.
Lemma PUT_PREV_FREE_done p v h :
  mapped h (p + DSIZE) 8 → PUT_PREV_FREE p v h = Done (tt, poke_le 8 (p + DSIZE) v h).
Proof. intros H. unfold PUT_PREV_FREE, update. by rewrite store_le_poke. Qed.

Lemma GET_done p h w : load_le 4 h p = Some w → GET p h = Done (w, h).
Proof. intros H. unfold GET, read. by rewrite H. Qed.
Lemma GET_SIZE_done p h w :
  load_le 4 h p = Some w → GET_SIZE p h = Done (Z.land w (Z.lnot 7), h).
Proof. intros H. unfold GET_SIZE. by rewrite (bind_done _ _ _ _ _ (GET_done _ _ _ H)). Qed.
Lemma GET_ALLOC_done p h w :
  load_le 4 h p = Some w → GET_ALLOC p h = Done (Z.land w 1, h).
Proof. intros H. unfold GET_ALLOC. by rewrite (bind_done _ _ _ _ _ (GET_done _ _ _ H)). Qed.
Lemma FTRP_done bp h w :
  load_le 4 h (HDRP bp) = Some w →
  FTRP bp h = Done (bp + Z.land w (Z.lnot 7) - DSIZE, h).
Proof. intros H. unfold FTRP. by rewrite (bind_done _ _ _ _ _ (GET_SIZE_done _ _ _ H)). Qed.
Lemma NEXT_BLKP_done bp h w :
  load_le 4 h (HDRP bp) = Some w →
  NEXT_BLKP bp h = Done (bp + Z.land w (Z.lnot 7), h).
Proof. intros H. unfold NEXT_BLKP. by rewrite (bind_done _ _ _ _ _ (GET_SIZE_done _ _ _ H)). Qed.
Lemma PREV_BLKP_done bp h w :
  load_le 4 h (bp - DSIZE) = Some w →
  PREV_BLKP bp h = Done (bp - Z.land w (Z.lnot 7), h).
Proof. intros H. unfold PREV_BLKP. by rewrite (bind_done _ _ _ _ _ (GET_SIZE_done _ _ _ H)). Qed.

Lemma GET_inv p h w h' : GET p h = Done (w, h') → load_le 4 h p = Some w.
Proof. unfold GET, read. destruct (load_le 4 h p); [|done]. by intros [= -> _]. Qed.
Lemma GET_NEXT_FREE_inv p h w h' :
GET_NEXT_FREE p h = Done (w, h') → load_le 8 h p = Some w.
Proof. unfold GET_NEXT_FREE, read. destruct (load_le 8 h p); [|done]. by intros [= -> _]. Qed.
Lemma GET_PREV_FREE_inv p h w h' :
GET_PREV_FREE p h = Done (w, h') → load_le 8 h (p + DSIZE) = Some w.
Proof.
  unfold GET_PREV_FREE, read. destruct (load_le 8 h (p + DSIZE)); [|done].
  by intros [= -> _].
Qed.
Lemma GET_NEXT_FREE_done p h w :
load_le 8 h p = Some w → GET_NEXT_FREE p h = Done (w, h).
Proof. intros H. unfold GET_NEXT_FREE, read. by rewrite H. Qed.
Lemma GET_PREV_FREE_done p h w :
load_le 8 h (p + DSIZE) = Some w → GET_PREV_FREE p h = Done (w, h).
Proof. intros H. unfold GET_PREV_FREE, read. by rewrite H. Qed.

Lemma mem_sbrk_done incr h :
  0 ≤ incr → mem_brk h + incr ≤ mem_max_addr h →
  mem_sbrk incr h = Done (mem_brk h, set_mem_brk (mem_brk h + incr) h).
Proof.
  intros H1 H2. unfold mem_sbrk.
  destruct (Z.ltb_spec incr 0); [lia|].
  by destruct (Z.ltb_spec (mem_max_addr h) (mem_brk h + incr)); [lia|].
Qed.
End symbolic.

Lemma mem_start_poke_le n a v h : mem_start (poke_le n a v h) = mem_start h.
Proof. apply poke_le_layout. Qed.
Lemma mem_brk_poke_le n a v h : mem_brk (poke_le n a v h) = mem_brk h.
Proof. apply poke_le_layout. Qed.
Lemma heap_listp_poke_le n a v h : heap_listp (poke_le n a v h) = heap_listp h.
Proof. apply poke_le_layout. Qed.
Lemma free_list_root_poke_le n a v h :
  free_list_root (poke_le n a v h) = free_list_root h.
Proof. apply poke_le_layout. Qed.
Lemma mem_max_addr_poke_le n a v h : mem_max_addr (poke_le n a v h) = mem_max_addr h.
Proof. apply poke_le_layout. Qed.
Lemma mem_max_addr_set_mem_brk x h : mem_max_addr (set_mem_brk x h) = mem_max_addr h.
Proof. done. Qed.
Lemma mem_max_addr_set_heap_listp x h : mem_max_addr (set_heap_listp x h) = mem_max_addr h.
Proof. done. Qed.
Lemma mem_max_addr_set_free_list_root x h :
  mem_max_addr (set_free_list_root x h) = mem_max_addr h.
Proof. done. Qed.
Lemma mem_max_addr_fresh_heap arena start :
  mem_max_addr (fresh_heap arena start) = start + Z.of_nat (length arena).
Proof. done. Qed.

Section setters.
Implicit Types (h : heap) (x : Z).
Lemma mem_start_set_mem_brk x h : mem_start (set_mem_brk x h) = mem_start h.
Proof. done. Qed.
Lemma mem_start_set_heap_listp x h : mem_start (set_heap_listp x h) = mem_start h.
Proof. done. Qed.
Lemma mem_start_set_free_list_root x h :
  mem_start (set_free_list_root x h) = mem_start h.
Proof. done. Qed.
Lemma mem_brk_set_mem_brk x h : mem_brk (set_mem_brk x h) = x.
Proof. done. Qed.
Lemma mem_brk_set_heap_listp x h : mem_brk (set_heap_listp x h) = mem_brk h.
Proof. done. Qed.
Lemma mem_brk_set_free_list_root x h : mem_brk (set_free_list_root x h) = mem_brk h.
Proof. done. Qed.
Lemma heap_listp_set_mem_brk x h : heap_listp (set_mem_brk x h) = heap_listp h.
Proof. done. Qed.
Lemma heap_listp_set_heap_listp x h : heap_listp (set_heap_listp x h) = x.
Proof. done. Qed.
Lemma heap_listp_set_free_list_root x h :
  heap_listp (set_free_list_root x h) = heap_listp h.
Proof. done. Qed.
Lemma free_list_root_set_mem_brk x h :
  free_list_root (set_mem_brk x h) = free_list_root h.
Proof. done. Qed.
Lemma free_list_root_set_heap_listp x h :
  free_list_root (set_heap_listp x h) = free_list_root h.
Proof. done. Qed.
Lemma free_list_root_set_free_list_root x h :
  free_list_root (set_free_list_root x h) = x.
Proof. done. Qed.
Lemma mem_start_fresh_heap arena x : mem_start (fresh_heap arena x) = x.
Proof. done. Qed.
Lemma mem_brk_fresh_heap arena x : mem_brk (fresh_heap arena x) = x.
Proof. done. Qed.
Lemma heap_listp_fresh_heap arena x : heap_listp (fresh_heap arena x) = 0.
Proof. done. Qed.
Lemma free_list_root_fresh_heap arena x : free_list_root (fresh_heap arena x) = 0.
Proof. done. Qed.
End setters.

Create Rewrite HintDb heap_layout.
#[local] Hint Rewrite
  mem_start_poke_le mem_brk_poke_le heap_listp_poke_le free_list_root_poke_le
  mem_max_addr_poke_le mem_max_addr_set_mem_brk mem_max_addr_set_heap_listp
  mem_max_addr_set_free_list_root mem_max_addr_fresh_heap
  mem_start_set_mem_brk mem_start_set_heap_listp mem_start_set_free_list_root
  mem_brk_set_mem_brk mem_brk_set_heap_listp mem_brk_set_free_list_root
  heap_listp_set_mem_brk heap_listp_set_heap_listp heap_listp_set_free_list_root
  free_list_root_set_mem_brk free_list_root_set_heap_listp
  free_list_root_set_free_list_root
  mem_start_fresh_heap mem_brk_fresh_heap heap_listp_fresh_heap
  free_list_root_fresh_heap : heap_layout.

Ltac layout := autorewrite with heap_layout.

Ltac in_arena := unfold mapped; layout; lia.

Ltac read_side :=
  lazymatch goal with
  | |- @eq Z _ _ => lia
  | |- mapped _ _ _ => in_arena
  | |- _ ≤ _ < _ => by vm_compute
  | |- _ ≤ _ => layout; lia
  | |- _ ∨ _ => lia
  end.

Ltac mem_reads :=
  repeat first
    [ rewrite load_le_set_mem_brk
    | rewrite load_le_set_heap_listp
    | rewrite load_le_set_free_list_root
    | rewrite load_le_poke_le_eq by read_side
    | rewrite load_le_poke_le_other by read_side ].

Ltac is_lit z :=
  lazymatch z with
  | Z0 => idtac
  | Zpos ?p => lazymatch p with xH => idtac | xO _ => idtac | xI _ => idtac end
  | Zneg ?p => lazymatch p with xH => idtac | xO _ => idtac | xI _ => idtac end
  end.

Ltac fold_consts :=
  repeat match goal with
  | |- context [Z.lnot ?a] =>
      is_lit a; let v := eval vm_compute in (Z.lnot a) in change (Z.lnot a) with v
  | |- context [Z.lor ?a ?b] =>
      is_lit a; is_lit b;
      let v := eval vm_compute in (Z.lor a b) in change (Z.lor a b) with v
  | |- context [Z.land ?a ?b] =>
      is_lit a; is_lit b;
      let v := eval vm_compute in (Z.land a b) in change (Z.land a b) with v
  | |- context [Z.modulo ?a ?b] =>
      is_lit a; is_lit b;
      let v := eval vm_compute in (Z.modulo a b) in change (Z.modulo a b) with v
  | |- context [Z.div ?a ?b] =>
      is_lit a; is_lit b;
      let v := eval vm_compute in (Z.div a b) in change (Z.div a b) with v
  | |- context [Z.mul ?a ?b] =>
      is_lit a; is_lit b;
      let v := eval vm_compute in (Z.mul a b) in change (Z.mul a b) with v
  | |- context [Z.add ?a ?b] =>
      is_lit a; is_lit b;
      let v := eval vm_compute in (Z.add a b) in change (Z.add a b) with v
  | |- context [Z.pow ?a ?b] =>
      is_lit a; is_lit b;
      let v := eval vm_compute in (Z.pow a b) in change (Z.pow a b) with v
  | |- context [Z.sub ?a ?b] =>
      is_lit a; is_lit b;
      let v := eval vm_compute in (Z.sub a b) in change (Z.sub a b) with v
  | |- context [Z.ltb ?a ?b] =>
      is_lit a; is_lit b;
      let v := eval vm_compute in (Z.ltb a b) in change (Z.ltb a b) with v
  | |- context [Z.leb ?a ?b] =>
      is_lit a; is_lit b;
      let v := eval vm_compute in (Z.leb a b) in change (Z.leb a b) with v
  | |- context [Z.eqb ?a ?b] =>
      is_lit a; is_lit b;
      let v := eval vm_compute in (Z.eqb a b) in change (Z.eqb a b) with v
  end.

(** Decide a comparison between addresses that [lia] can settle. *)
Ltac decide_cmp :=
  match goal with
  | |- context [?a =? ?b] =>
      first [ replace (a =? b) with false by (symmetry; apply Z.eqb_neq; lia)
            | replace (a =? b) with true by (symmetry; apply Z.eqb_eq; lia) ]
  | |- context [?a <? ?b] =>
      first [ replace (a <? b) with false by (symmetry; apply Z.ltb_ge; lia)
            | replace (a <? b) with true by (symmetry; apply Z.ltb_lt; lia) ]
  | |- context [?a <=? ?b] =>
      first [ replace (a <=? b) with false by (symmetry; apply Z.leb_gt; lia)
            | replace (a <=? b) with true by (symmetry; apply Z.leb_le; lia) ]
  end; cbn [negb andb orb]; cbv beta iota.

Ltac unfold_consts :=
  unfold PACK, HDRP, WSIZE, DSIZE, CHUNKSIZE, FREE, ALLOCED, MIN_SIZE, ALIGN,
    FITS, FURTHESTDOWN, wrap64.

Ltac read_from_hyp :=
  match goal with
  | H : load_le ?n ?h ?a = Some ?v |- load_le ?n ?h ?b = Some _ =>
      replace b with a by lia; exact H
  end.

Ltac solve_read := unfold_consts; fold_consts; first [read_from_hyp | mem_reads; reflexivity].

(** One step of symbolic execution of [bind c k h]. *)
Ltac run1 :=
  lazymatch goal with
  | |- bind ?c ?k ?h = _ =>
      lazymatch c with
      | bind _ _ => rewrite (bind_assoc _ _ k h)
      | coalesce _ => unfold coalesce at 1
      | add_to_freelist _ => unfold add_to_freelist at 1
      | extend_heap _ => unfold extend_heap at 1
      | ret _ => rewrite (bind_done c k h _ h eq_refl)
      | gets _ => rewrite (bind_done c k h _ h eq_refl)
      | modify ?f => rewrite (bind_done c k h tt (f h) eq_refl)
      | PUT _ _ => erewrite (bind_done c k h); [|apply PUT_done; in_arena]
      | PUT_NEXT_FREE _ _ =>
          erewrite (bind_done c k h); [|apply PUT_NEXT_FREE_done; in_arena]
      | PUT_PREV_FREE _ _ =>
          erewrite (bind_done c k h); [|apply PUT_PREV_FREE_done; unfold_consts; in_arena]
      | GET_SIZE _ => erewrite (bind_done c k h); [|apply GET_SIZE_done; solve_read]
      | GET_ALLOC _ => erewrite (bind_done c k h); [|apply GET_ALLOC_done; solve_read]
      | FTRP _ => erewrite (bind_done c k h); [|apply FTRP_done; solve_read]
      | NEXT_BLKP _ => erewrite (bind_done c k h); [|apply NEXT_BLKP_done; solve_read]
      | PREV_BLKP _ => erewrite (bind_done c k h); [|apply PREV_BLKP_done; solve_read]
      | GET_NEXT_FREE _ =>
          erewrite (bind_done c k h); [|apply GET_NEXT_FREE_done; solve_read]
      | GET_PREV_FREE _ =>
          erewrite (bind_done c k h); [|apply GET_PREV_FREE_done; solve_read]
      | mem_sbrk _ =>
          erewrite (bind_done c k h);
          [|apply mem_sbrk_done; [lia|layout; lia]]
      end
  end; cbv beta; layout; unfold_consts; fold_consts; cbn [negb andb orb]; cbv beta iota.



Lemma mm_init_fresh arena start :
  0 < start → 2064 ≤ Z.of_nat (length arena) →
  ∃ h1, mm_init (fresh_heap arena start) = Done (0, h1)
        ∧ mem_start h1 = start ∧ initialised h1.
Proof.
  intros Hstart Hlen. eexists. split.
  { unfold mm_init. unfold_consts; fold_consts.
    do 2 run1. decide_cmp. repeat run1. decide_cmp. repeat run1.
    decide_cmp. reflexivity. }
  split; [layout; reflexivity|]. unfold initialised. layout.
  split_and!; try lia;
    lazymatch goal with
    | |- GET _ _ = _ => apply GET_done
    | |- GET_NEXT_FREE _ _ = _ => apply GET_NEXT_FREE_done
    | |- GET_PREV_FREE _ _ = _ => apply GET_PREV_FREE_done
    end; solve_read.
Qed.

(** *** The heap checker on an initialised heap *)

Lemma check_heap_walk_step fuel b j h w :
  b ≠ 0 → load_le 4 h (HDRP b) = Some w →
  check_heap_walk (S fuel) b j h
  = if negb (Z.land w (Z.lnot 7) `mod` 8 =? 0) then Done (None, h)
    else check_heap_walk fuel (b + Z.land w (Z.lnot 7))
           (if Z.land w 1 =? FREE then j + 1 else j) h.
Proof.
  intros Hb Hw. cbn [check_heap_walk].
  destruct (Z.eqb_spec b 0); [done|].
  rewrite (bind_done _ _ _ _ _ (GET_SIZE_done _ _ _ Hw)).
  destruct (negb _); [done|].
  rewrite (bind_done _ _ _ _ _ (GET_ALLOC_done _ _ _ Hw)).
  by rewrite (bind_done _ _ _ _ _ (NEXT_BLKP_done _ _ _ Hw)).
Qed.

(** The heap walk never leaves a block whose header holds size 0: there
    [NEXT_BLKP] returns the block itself. *)
Lemma check_heap_walk_stuck h b w :
  b ≠ 0 → load_le 4 h (HDRP b) = Some w → Z.land w (Z.lnot 7) = 0 →
  ∀ fuel j, check_heap_walk fuel b j h = OutOfFuel.
Proof.
  intros Hb Hw Hsz fuel. induction fuel as [|fuel IH]; intros j.
  - cbn [check_heap_walk]. by destruct (Z.eqb_spec b 0).
  - rewrite (check_heap_walk_step _ _ _ _ w) by done.
    rewrite Hsz, Z.add_0_r. apply IH.
Qed.

Lemma check_free_list_0 block i h :
  block ≠ 0 → check_free_list 0 block i h = OutOfFuel.
Proof. intros H. cbn [check_free_list]. by destruct (Z.eqb_spec block 0). Qed.

Lemma check_free_list_S fuel block i h :
  block ≠ 0 →
  check_free_list (S fuel) block i h
  = (ok <- check_free_block block ;;
     if ok then nxt <- GET_NEXT_FREE block ;; check_free_list fuel nxt (i + 1)
     else ret None) h.
Proof. intros H. cbn [check_free_list]. by destruct (Z.eqb_spec block 0). Qed.

Lemma check_free_list_null fuel i h : check_free_list fuel 0 i h = Done (Some i, h).
Proof. by destruct fuel. Qed.

(** The free-list loop passes on an initialised heap: its only member
    satisfies every check. *)
Lemma check_free_block_initialised h :
  0 < mem_start h → initialised h →
  check_free_block (mem_start h + 16) h = Done (true, h).
Proof.
  intros Hpos (Hl & Hb & Hr & Hmax & G4 & G8 & G12 & GN & GP & G2056 & G2060).
  apply GET_inv in G4, G8, G12, G2056, G2060.
  apply GET_NEXT_FREE_inv in GN. apply GET_PREV_FREE_inv in GP.
  revert G4 G8 G12 G2056 G2060 GN GP. unfold_consts. fold_consts.
  intros G4 G8 G12 G2056 G2060 GN GP.
  unfold check_free_block. do 2 run1.
  unfold mem_heap_lo, mem_heap_hi. rewrite Hb. do 2 decide_cmp.
  repeat first [run1 | decide_cmp]. done.
Qed.

(** On the heap that [mm_init] builds, [mm_checkheap] does not return:
    the free-list loop passes, and the heap walk reaches the epilogue
    header and stays there. *)
Lemma mm_checkheap_initialised h fuel :
  0 < mem_start h → initialised h → mm_checkheap fuel h = OutOfFuel.
Proof.
  intros Hpos Hi.
  pose proof (check_free_block_initialised h Hpos Hi) as Hblock.
  destruct Hi as (Hl & Hb & Hr & Hmax & G4 & G8 & G12 & GN & GP & G2056 & G2060).
  apply GET_inv in G4, G8, G12, G2056, G2060.
  revert G4 G8 G12 G2056 G2060. unfold_consts. fold_consts.
  intros G4 G8 G12 G2056 G2060.
  unfold mm_checkheap. run1. rewrite Hr.
  destruct fuel as [|fuel].
  { apply bind_out_of_fuel, check_free_list_0. lia. }
  erewrite bind_done; cycle 1.
  { rewrite check_free_list_S by lia.
    rewrite (bind_done _ _ _ _ _ Hblock).
    rewrite (bind_done _ _ _ _ _ GN).
    apply check_free_list_null. }
  cbv beta iota. run1. rewrite Hl.
  apply bind_out_of_fuel.
  rewrite (check_heap_walk_step _ _ _ _ 9)
    by (first [lia | unfold_consts; by replace (mem_start h + 8 - 4) with (mem_start h + 4) by lia]).
  fold_consts. cbv beta iota.
  destruct fuel as [|fuel].
  { cbn [check_heap_walk]. by destruct (Z.eqb_spec (mem_start h + 8 + 8) 0); [lia|]. }
  rewrite (check_heap_walk_step _ _ _ _ 2048)
    by (first [lia | unfold_consts; by replace (mem_start h + 8 + 8 - 4) with (mem_start h + 12) by lia]).
  fold_consts. cbv beta iota.
  apply (check_heap_walk_stuck _ _ 1); [lia| |done].
  unfold_consts. by replace (mem_start h + 8 + 8 + 2048 - 4) with (mem_start h + 2060) by lia.
Qed.

(** C8. After [mm_init] on a fresh arena with room for the initial heap,
    [mm_checkheap] does not terminate (and so does not return 1): for
    every amount of fuel the run is cut off inside the heap walk, which
    steps by [NEXT_BLKP] and cannot leave the size-0 epilogue. *)
Theorem checkheap_diverges_after_init arena start fuel :
  0 < start → 2064 ≤ Z.of_nat (length arena) →
  (mm_init ;; mm_checkheap fuel) (fresh_heap arena start) = OutOfFuel.
Proof.
  intros Hstart Hlen.
  destruct (mm_init_fresh arena start Hstart Hlen) as (h1 & Hinit & Hs & Hi).
  rewrite (bind_done _ _ _ _ _ Hinit).
  apply mm_checkheap_initialised; [lia|done].
Qed.

Lemma checkheap_diverges_witness :
  (mm_init ;; mm_checkheap 1000) arena0 = OutOfFuel.
Proof.
  apply (checkheap_diverges_after_init (replicate 4096 0) 4096 1000); [lia|].
  rewrite length_replicate. lia.
Defined.


(** *** Allocation before initialisation *)

Lemma mm_malloc_uninitialised fuel size h :
  heap_listp h = 0 →
  mm_malloc fuel size h
  = (mm_init ;; if size =? 0 then ret 0 else malloc_place fuel (adjusted_size size)) h.
Proof.
  intros H0. unfold mm_malloc.
  rewrite (bind_done _ _ h (heap_listp h) h) by done.
  rewrite H0. cbv beta iota. change (0 =? 0) with true. cbv beta iota.
  rewrite !bind_assoc. unfold bind. destruct (mm_init h) as [[r h']| |]; done.
Qed.

Lemma mm_malloc_initialised fuel size h :
  heap_listp h ≠ 0 →
  mm_malloc fuel size h
  = (if size =? 0 then ret 0 else malloc_place fuel (adjusted_size size)) h.
Proof.
  intros H0. unfold mm_malloc.
  rewrite (bind_done _ _ h (heap_listp h) h) by done.
  destruct (Z.eqb_spec (heap_listp h) 0); [done|].
  by rewrite (bind_done _ _ h tt h).
Qed.

(** C10 (amended). On a heap that has not been initialised, [mm_malloc]
    first runs [mm_init] in full - on an arena with room for it this builds
    the prologue, the epilogue and the one free block of 2,048 bytes - and
    then allocates exactly as on the initialised heap. [mm_free] of the
    null pointer returns at once and leaves the heap uninitialised. *)
Theorem mm_malloc_initialises_first arena start fuel size :
  0 < start → 2064 ≤ Z.of_nat (length arena) →
  ∃ h1, mm_init (fresh_heap arena start) = Done (0, h1)
        ∧ mem_start h1 = start ∧ initialised h1
        ∧ mm_malloc fuel size (fresh_heap arena start) = mm_malloc fuel size h1
        ∧ mm_free 0 (fresh_heap arena start) = Done (tt, fresh_heap arena start).
Proof.
  intros Hstart Hlen.
  destruct (mm_init_fresh arena start Hstart Hlen) as (h1 & Hinit & Hs & Hi).
  exists h1. split_and!; try done.
  rewrite mm_malloc_uninitialised by done.
  rewrite (bind_done _ _ _ _ _ Hinit).
  rewrite mm_malloc_initialised; [done|].
  destruct Hi as (-> & _). lia.
Qed.

Lemma mm_malloc_initialises_first_witness :
  ∃ h1, mm_init arena0 = Done (0, h1)
        ∧ mem_start h1 = 4096 ∧ initialised h1
        ∧ mm_malloc 8 100 arena0 = mm_malloc 8 100 h1
        ∧ mm_free 0 arena0 = Done (tt, arena0).
Proof.
  apply (mm_malloc_initialises_first (replicate 4096 0) 4096 8 100); [lia|].
  rewrite length_replicate. lia.
Defined.

(** C10, as stated, fails for [mm_free]: freeing the null pointer on an
    uninitialised heap does not run the initialisation. *)
Lemma mm_free_null_skips_init :
  mm_free 0 arena0 = Done (tt, arena0)
  ∧ heap_listp arena0 = 0
  ∧ mm_free 0 arena0 ≠ (mm_init ;; mm_free 0) arena0.
Proof.
  split_and!; [done..|].
  destruct (mm_init_fresh (replicate 4096 0) 4096) as (h1 & Hinit & Hs & Hi);
    [lia|rewrite length_replicate; lia|].
  change (fresh_heap (replicate 4096 0) 4096) with arena0 in Hinit.
  rewrite (bind_done _ _ _ _ _ Hinit).
  change (mm_free 0 arena0) with (Done (tt, arena0)).
  change (mm_free 0 h1) with (Done (tt, h1)).
  intros [= Heq]. destruct Hi as (Hl & _). by rewrite <- Heq in Hl.
Qed.

(** *** The adjusted block size *)

Lemma adjusted_size_large size :
  16 < size → size + 31 < 2 ^ 64 →
  adjusted_size size = round_up (size + 16) 16.
Proof.
  intros Hlo Hhi. unfold adjusted_size, round_up, DSIZE, wrap64.
  change (2 ^ 64) with 18446744073709551616 in *.
  change (2 * 8) with 16.
  destruct (Z.leb_spec size 16); [lia|].
  replace (size + 16 + (16 - 1)) with (size + 31) by lia.
  replace (size + 16 + 16 - 1) with (size + 31) by lia.
  rewrite (Z.mod_small (size + 31)) by lia.
  apply Z.mod_small.
  pose proof (Z.mul_div_le (size + 31) 16).
  pose proof (Z.div_pos (size + 31) 16). lia.
Qed.

(** C2 (amended). For every size > 0 (below the wrap-around of [size_t])
    the adjusted block size that [mm_malloc] searches and places is 24
    when size <= 16 and [round_up (size + 16) 16] otherwise; and
    [mm_malloc 0] returns the null pointer. *)
Theorem adjusted_size_by_cases size :
  0 < size → size + 31 < 2 ^ 64 →
  adjusted_size size = (if size <=? 16 then 24 else round_up (size + 16) 16)
  ∧ (∀ fuel h, heap_listp h ≠ 0 →
       mm_malloc fuel size h
       = malloc_place fuel (if size <=? 16 then 24 else round_up (size + 16) 16) h)
  ∧ (∀ fuel h, heap_listp h ≠ 0 → mm_malloc fuel 0 h = Done (0, h)).
Proof.
  intros Hpos Hhi.
  assert (Hadj : adjusted_size size
                 = if size <=? 16 then 24 else round_up (size + 16) 16).
  { destruct (Z.leb_spec size 16) as [Hle|Hgt].
    - unfold adjusted_size, DSIZE. by destruct (Z.leb_spec size (2 * 8)); [|lia].
    - by apply adjusted_size_large. }
  split_and!; [done| |].
  - intros fuel h Hinit. rewrite mm_malloc_initialised by done.
    destruct (Z.eqb_spec size 0); [lia|]. by rewrite Hadj.
  - intros fuel h Hinit. by rewrite mm_malloc_initialised.
Qed.

Lemma adjusted_size_by_cases_witness :
  adjusted_size 100 = 128
  ∧ (∀ fuel h, heap_listp h ≠ 0 → mm_malloc fuel 100 h = malloc_place fuel 128 h)
  ∧ (∀ fuel h, heap_listp h ≠ 0 → mm_malloc fuel 0 h = Done (0, h)).
Proof. apply (adjusted_size_by_cases 100); [lia | by vm_compute]. Defined.

(** C2, as stated, fails at size 17: the code computes 48 where
    max(24, round_up(size + 8, 16)) is 32, and the block that
    [mm_malloc 17] places has size 48. *)
Lemma adjusted_size_17 :
  adjusted_size 17 = 48 ∧ spec_adjusted_size 17 = 32
  ∧ adjusted_size 17 ≠ spec_adjusted_size 17
  ∧ eval (mm_init ;; p <- mm_malloc 4 17 ;; GET_SIZE (HDRP p)) arena0 = Some 48.
Proof. split_and!; by vm_compute. Qed.

(** *** Reallocation *)

(** C1. Growing a 16-byte allocation (block size 24) to 100 bytes copies
    24 bytes, 8 more than the old payload: after the 16 payload bytes the
    new block holds the old block's footer (24 | 1 = 25) and the header
    of the block that follows it (128 | 1 = 129). *)
Theorem realloc_copies_past_payload :
  eval realloc_grow_scenario arena0
  = Some (24, 24, replicate 16 170 ++ [25; 0; 0; 0; 129; 0; 0; 0]).
Proof. by vm_compute. Qed.


(** *** Placement policy *)

Section find_fit.
Variables (h : heap) (asize : Z).

Lemma find_fit_loop_stop fuel block count scount sc best bp :
  block = 0 ∨ count = FITS ∨ scount = FURTHESTDOWN →
  count ≤ FITS → scount ≤ FURTHESTDOWN →
  find_fit_loop fuel asize block count scount sc best bp h = Done (bp, h).
Proof.
  intros Hstop Hc Hs.
  assert (negb (block =? 0) && (count <? FITS) && (scount <? FURTHESTDOWN) = false)
    as Hcond.
  { destruct (Z.eqb_spec block 0), (Z.ltb_spec count FITS),
      (Z.ltb_spec scount FURTHESTDOWN); try done. lia. }
  destruct fuel; cbn [find_fit_loop]; by rewrite Hcond.
Qed.

Lemma find_fit_loop_step fuel block count scount sc best bp sz q :
  block ≠ 0 → count < FITS → scount < FURTHESTDOWN →
  GET_SIZE (HDRP block) h = Done (sz, h) →
  GET_NEXT_FREE block h = Done (q, h) →
  find_fit_loop (S fuel) asize block count scount sc best bp h
  = let scount' := if sc then scount + 1 else scount in
    if asize <=? sz then
      let best1 := if count + 1 =? 1 then sz else best in
      let bp1 := if count + 1 =? 1 then block else bp in
      find_fit_loop fuel asize q (count + 1) scount'
        (if count + 1 =? 1 then true else sc)
        (if sz <? best1 then sz else best1)
        (if sz <? best1 then block else bp1) h
    else find_fit_loop fuel asize q count scount' sc best bp h.
Proof.
  intros Hb Hc Hs Hsz Hq. cbn [find_fit_loop].
  destruct (Z.eqb_spec block 0); [done|].
  destruct (Z.ltb_spec count FITS); [|lia].
  destruct (Z.ltb_spec scount FURTHESTDOWN); [|lia].
  cbn [negb andb]. rewrite (bind_done _ _ _ _ _ Hsz). cbv zeta.
  destruct (asize <=? sz); by rewrite (bind_done _ _ _ _ _ Hq).
Qed.

(** The bounded lookahead: once a first qualifying block has been seen,
    the loop examines [upto_fits] of the next [FURTHESTDOWN - scount]
    blocks and keeps the smallest. *)
Lemma find_fit_loop_lookahead L :
  ∀ p fuel count scount best bp,
    free_list_from h p L → (length L ≤ fuel)%nat →
    1 ≤ count ≤ FITS → 0 ≤ scount ≤ FURTHESTDOWN →
    find_fit_loop fuel asize p count scount true best bp h
    = Done ((foldl keep_smaller (bp, best)
               (List.filter (fits asize)
                  (upto_fits asize (Z.to_nat (FITS - count))
                     (take (Z.to_nat (FURTHESTDOWN - scount)) L)))).1, h).
Proof.
  induction L as [|[b sz] L IH]; intros p fuel count scount best bp HL Hfuel Hc Hs.
  - cbn in HL. subst p. rewrite find_fit_loop_stop by (auto; lia).
    by rewrite take_nil.
  - destruct HL as (-> & Hb & Hsz & q & Hq & HL).
    destruct (decide (count = FITS)) as [->|Hc8].
    { rewrite find_fit_loop_stop by (auto; lia).
      rewrite Z.sub_diag. cbn [Z.to_nat]. by destruct (take _ _). }
    destruct (decide (scount = FURTHESTDOWN)) as [->|Hs200].
    { rewrite find_fit_loop_stop by (auto; lia).
      rewrite Z.sub_diag. by cbn [Z.to_nat take upto_fits List.filter foldl]. }
    destruct fuel as [|fuel]; [cbn in Hfuel; lia|].
    rewrite (find_fit_loop_step _ _ _ _ _ _ _ sz q) by (done || lia).
    cbv zeta.
    replace (Z.to_nat (FURTHESTDOWN - scount))
      with (S (Z.to_nat (FURTHESTDOWN - (scount + 1)))) by lia.
    replace (Z.to_nat (FITS - count))
      with (S (Z.to_nat (FITS - (count + 1)))) by lia.
    assert (Hfits : fits asize (b, sz) = (asize <=? sz)) by done.
    cbn [take upto_fits List.filter]. rewrite Hfits.
    destruct (Z.eqb_spec (count + 1) 1); [lia|].
    destruct (asize <=? sz).
    + rewrite IH by (done || cbn in Hfuel; lia).
      cbn [foldl].
      change (keep_smaller (bp, best) (b, sz))
        with (if sz <? best then (b, sz) else (bp, best)).
      by destruct (sz <? best).
    + rewrite IH by (done || cbn in Hfuel; lia).
      by replace (S (Z.to_nat (FITS - (count + 1))))
        with (Z.to_nat (FITS - count)) by lia.
Qed.

(** The whole scan, from the state in which [find_fit] starts it. *)
Lemma find_fit_loop_scan L :
  ∀ p fuel best,
    free_list_from h p L → (length L ≤ fuel)%nat →
    find_fit_loop fuel asize p 0 0 false best 0 h
    = Done (best_fit (candidates asize L), h).
Proof.
  unfold candidates.
  induction L as [|[b sz] L IH]; intros p fuel best HL Hfuel.
  - cbn in HL. subst p. by rewrite find_fit_loop_stop by (auto; done).
  - destruct HL as (-> & Hb & Hsz & q & Hq & HL).
    destruct fuel as [|fuel]; [cbn in Hfuel; lia|].
    rewrite (find_fit_loop_step _ _ _ _ _ _ _ sz q) by done.
    assert (Hfits : fits asize (b, sz) = (asize <=? sz)) by done.
    cbv zeta. cbn [examined]. rewrite Hfits.
    change (0 + 1 =? 1) with true. cbv iota.
    destruct (asize <=? sz).
    + rewrite Z.ltb_irrefl.
      rewrite (find_fit_loop_lookahead L) by (done || cbn in Hfuel; unfold FITS, FURTHESTDOWN; lia).
      cbn [List.filter]. by rewrite Hfits.
    + rewrite IH by (done || cbn in Hfuel; lia).
      cbn [List.filter]. by rewrite Hfits.
Qed.

End find_fit.

(** [foldl keep_smaller] picks a smallest element, and the first of the
    smallest. *)
Lemma keep_smaller_first_min cs :
  ∀ c, ∃ i, (c :: cs) !! i = Some (foldl keep_smaller c cs)
    ∧ ∀ j d, (c :: cs) !! j = Some d →
        (foldl keep_smaller c cs).2 ≤ d.2
        ∧ ((j < i)%nat → (foldl keep_smaller c cs).2 < d.2).
Proof.
  induction cs as [|x cs IH]; intros c.
  - exists 0%nat. split; [done|]. intros [|j] d Hd; [|done].
    injection Hd as <-. cbn. split; [done|lia].
  - cbn [foldl].
    assert (Hk : keep_smaller c x = if x.2 <? c.2 then x else c) by done.
    rewrite Hk. destruct (Z.ltb_spec x.2 c.2) as [Hlt|Hge].
    + (* the new element replaces the best *)
      destruct (IH x) as (i & Hi & Hmin).
      exists (S i). split; [done|]. intros [|[|j]] d Hd.
      * injection Hd as <-.
        destruct (Hmin 0%nat x eq_refl) as [Hle _]. split; lia.
      * apply (Hmin 0%nat d) in Hd as [Hle Hi0]. split; [done|].
        intros Hj. apply Hi0. lia.
      * apply (Hmin (S j) d) in Hd as [Hle Hi0]. split; [done|].
        intros Hj. apply Hi0. lia.
    + (* the best so far is kept *)
      destruct (IH c) as (i & Hi & Hmin).
      destruct i as [|i].
      * exists 0%nat. split; [done|]. intros [|[|j]] d Hd.
        -- injection Hd as <-. by apply (Hmin 0%nat).
        -- injection Hd as <-.
           destruct (Hmin 0%nat c eq_refl) as [Hle _]. split; lia.
        -- apply (Hmin (S j) d) in Hd as [Hle _]. split; [done|lia].
      * exists (S (S i)). split; [done|]. intros [|[|j]] d Hd.
        -- injection Hd as <-. destruct (Hmin 0%nat c eq_refl) as [Hle Hlt0].
           split; [done|]. intros _. apply Hlt0. lia.
        -- injection Hd as <-.
           destruct (Hmin 0%nat c eq_refl) as [Hle Hlt0].
           split; [lia|]. intros _. specialize (Hlt0 ltac:(lia)). lia.
        -- apply (Hmin (S j) d) in Hd as [Hle Hlt0]. split; [done|].
           intros Hj. apply Hlt0. lia.
Qed.

(** C7. On every free list, [find_fit] returns - given fuel for the length
    of the list - the smallest of the qualifying blocks among the examined
    ones, the first encountered on a tie, and the null pointer when no
    examined block qualifies. The examined blocks are those of [examined]:
    all blocks up to the first qualifying one, then at most 200 further
    blocks, stopping once 8 qualifying blocks have been seen. *)
Theorem find_fit_bounded_best_fit h asize L fuel :
  free_list_from h (free_list_root h) L → (length L ≤ fuel)%nat →
  ∃ bp, find_fit fuel asize h = Done (bp, h)
    ∧ bp = best_fit (candidates asize L)
    ∧ match candidates asize L with
      | [] => bp = 0
      | _ :: _ =>
          ∃ i sz, candidates asize L !! i = Some (bp, sz)
            ∧ ∀ j c, candidates asize L !! j = Some c →
                sz ≤ c.2 ∧ ((j < i)%nat → sz < c.2)
      end.
Proof.
  intros HL Hfuel. exists (best_fit (candidates asize L)). split_and!; [|done|].
  - unfold find_fit. rewrite (bind_done _ _ h (free_list_root h) h) by done.
    by apply find_fit_loop_scan.
  - destruct (candidates asize L) as [|c cs]; [done|].
    destruct (keep_smaller_first_min cs c) as (i & Hi & Hmin).
    exists i, (foldl keep_smaller c cs).2. cbn [best_fit]. split; [|done].
    by destruct (foldl keep_smaller c cs).
Qed.

Lemma find_fit_bounded_best_fit_witness :
  ∃ bp, find_fit 2 24 two_free_blocks = Done (bp, two_free_blocks)
    ∧ bp = 4152
    ∧ ∃ i sz, [(4104, 48); (4152, 24)] !! i = Some (bp, sz)
        ∧ ∀ j c, [(4104, 48); (4152, 24)] !! j = Some c →
            sz ≤ c.2 ∧ ((j < i)%nat → sz < c.2).
Proof.
  apply (find_fit_bounded_best_fit two_free_blocks 24 [(4104, 48); (4152, 24)] 2).
  - cbn [free_list_from free_list_root two_free_blocks].
    split_and!; [done|done|by vm_compute|].
    exists 4152. split_and!; [by vm_compute|done|done|by vm_compute|].
    exists 0. split; [by vm_compute|done].
  - cbn. lia.
Defined.

(** The examined blocks form a prefix of the free list that holds at most
    8 qualifying blocks. *)
Lemma upto_fits_prefix asize n L : upto_fits asize n L `prefix_of` L.
Proof.
  revert n. induction L as [|b L IH]; intros n; [done|].
  destruct n as [|n]; cbn [upto_fits]; [apply prefix_nil|].
  apply prefix_cons, IH.
Qed.

Lemma upto_fits_count asize n L :
  (length (List.filter (fits asize) (upto_fits asize n L)) ≤ n)%nat.
Proof.
  revert n. induction L as [|b L IH]; intros n; [cbn; lia|].
  destruct n as [|n]; cbn [upto_fits List.filter]; [cbn; lia|].
  destruct (fits asize b); cbn [length].
  - specialize (IH n). lia.
  - apply IH.
Qed.

Lemma examined_prefix asize L : examined asize L `prefix_of` L.
Proof.
  induction L as [|b L IH]; [done|]. cbn [examined]. destruct (fits asize b).
  - apply prefix_cons. etrans; [apply upto_fits_prefix|]. apply prefix_take.
  - by apply prefix_cons.
Qed.

Lemma candidates_at_most_8 asize L : (length (candidates asize L) ≤ 8)%nat.
Proof.
  unfold candidates. induction L as [|b L IH]; [cbn; lia|].
  cbn [examined]. destruct (fits asize b) eqn:Hb; cbn [List.filter]; rewrite Hb.
  - cbn [length]. pose proof (upto_fits_count asize (8 - 1) (take 200 L)). lia.
  - done.
Qed.

(** The examined blocks are the non-qualifying blocks at the head of the
    list, the first qualifying block, and at most 200 blocks after it. *)
Lemma examined_lookahead asize L :
  (examined asize L = L ∧ Forall (λ b, fits asize b = false) L)
  ∨ ∃ pre b post,
      examined asize L = pre ++ b :: post
      ∧ Forall (λ b, fits asize b = false) pre
      ∧ fits asize b = true
      ∧ (length post ≤ 200)%nat.
Proof.
  induction L as [|b L IH]; [by left|].
  cbn [examined]. destruct (fits asize b) eqn:Hb.
  - right. exists [], b, (upto_fits asize (8 - 1) (take 200 L)).
    split_and!; [done..|].
    pose proof (upto_fits_prefix asize (8 - 1) (take 200 L)) as Hp.
    apply prefix_length in Hp. rewrite length_take in Hp. lia.
  - destruct IH as [[-> Hall]|(pre & c & post & -> & Hpre & Hc & Hpost)].
    + left. split; [done|]. by constructor.
    + right. exists (b :: pre), c, post. split_and!; [done| |done..].
      by constructor.
Qed.

(** *** Words that pack a size and the allocated bit *)

Lemma land_m8 w : Z.land w (-8) = 8 * (w / 8).
Proof.
  change (-8) with (Z.lnot (Z.ones 3)). rewrite <- Z.ldiff_land.
  rewrite Z.ldiff_ones_r by lia. rewrite Z.shiftl_mul_pow2, Z.shiftr_div_pow2 by lia.
  change (2 ^ 3) with 8. lia.
Qed.

Lemma land_1 w : Z.land w 1 = w mod 2.
Proof. change 1 with (Z.ones 1). rewrite Z.land_ones by lia. done. Qed.

Lemma lor_pack a b : a mod 8 = 0 → 0 ≤ b < 8 → Z.lor a b = a + b.
Proof.
  intros Ha Hb. pose proof (Z.add_lor_land a b) as Hsum.
  assert (Z.land a b = 0) as Hz; [|lia].
  apply Z.bits_inj'. intros n Hn. rewrite Z.land_spec, Z.bits_0.
  destruct (Z.lt_ge_cases n 3).
  - pose proof (Z.div_mod a 8 ltac:(lia)) as Hdiv.
    replace a with (a / 8 * 2 ^ 3) by (change (2 ^ 3) with 8; lia).
    by rewrite Z.mul_pow2_bits_low.
  - assert (Z.testbit b n = false) as ->; [|by rewrite andb_false_r].
    destruct (Z.eq_dec b 0) as [->|]; [apply Z.bits_0|].
    apply Z.bits_above_log2; [lia|].
    apply Z.log2_lt_pow2; [lia|]. 
    apply Z.lt_le_trans with (2 ^ 3); [change (2^3) with 8; lia|].
    apply Z.pow_le_mono_r; lia.
Qed.

Ltac zlia := Z.div_mod_to_equations; lia.

Lemma land_m8_add a b : a mod 8 = 0 → 0 ≤ b < 8 → Z.land (a + b) (-8) = a.
Proof. intros. rewrite land_m8. zlia. Qed.
Lemma land_m8_id a : a mod 8 = 0 → Z.land a (-8) = a.
Proof. intros. rewrite land_m8. zlia. Qed.
Lemma land_1_add a b : a mod 8 = 0 → 0 ≤ b ≤ 1 → Z.land (a + b) 1 = b.
Proof. intros. rewrite land_1. zlia. Qed.
Lemma land_1_id a : a mod 8 = 0 → Z.land a 1 = 0.
Proof. intros. rewrite land_1. zlia. Qed.

(** *** Sizes *)


(** The adjusted size is 24 or a multiple of 16 below 2^64. *)
Lemma adjusted_size_shape size :
  adjusted_size size = 24
  ∨ ∃ k, adjusted_size size = 16 * k ∧ 0 ≤ k < 2 ^ 60.
Proof.
  unfold adjusted_size. unfold_consts. fold_consts.
  destruct (Z.leb_spec size 16); [by left|right].
  exists (((size + 16 + 15) `mod` 18446744073709551616 / 16) `mod` 2 ^ 60).
  split; [|apply Z.mod_pos_bound; lia].
  change 18446744073709551616 with (16 * 2 ^ 60) at 2.
  rewrite Z.mul_mod_distr_l by lia. done.
Qed.

(** *** Symbolic execution with sizes that are not literals *)

Lemma pow2_32 : 2 ^ (8 * Z.of_nat 4) = 4294967296.
Proof. done. Qed.
Lemma pow2_64 : 2 ^ (8 * Z.of_nat 8) = 18446744073709551616.
Proof. done. Qed.

Ltac sym_side :=
  lazymatch goal with
  | |- @eq Z _ _ => zlia
  | |- mapped _ _ _ => in_arena
  | |- _ ≤ _ < 2 ^ (8 * Z.of_nat 4) => rewrite pow2_32; zlia
  | |- _ ≤ _ < 2 ^ (8 * Z.of_nat 8) => rewrite pow2_64; zlia
  | |- _ ≤ _ < _ => zlia
  | |- _ ≤ _ => layout; zlia
  | |- _ ∨ _ => zlia
  end.

Ltac sym_reads :=
  repeat first
    [ rewrite load_le_set_mem_brk
    | rewrite load_le_set_heap_listp
    | rewrite load_le_set_free_list_root
    | rewrite load_le_poke_le_eq by sym_side
    | rewrite load_le_poke_le_other by sym_side ].

Ltac sym_hyp :=
  match goal with
  | H : load_le ?n ?h ?a = Some ?v |- load_le ?n ?h ?b = Some _ =>
      replace b with a by zlia; first [exact H | rewrite H; f_equal; zlia]
  end.

Ltac sym_read :=
  first [sym_hyp | sym_reads; first [reflexivity | sym_hyp | f_equal; zlia]].

(** Sizes and allocated bits of packed words. *)
Ltac sym_words :=
  repeat first
    [ rewrite lor_pack by zlia
    | rewrite land_m8_add by zlia
    | rewrite land_m8_id by zlia
    | rewrite land_1_add by zlia
    | rewrite land_1_id by zlia
    | rewrite (Z.mod_small _ 18446744073709551616) by zlia ].

Ltac sym_norm :=
  cbv beta; layout; unfold_consts; fold_consts; sym_words;
  cbn [negb andb orb]; cbv beta iota.

Lemma bind_ext {S A B} (c c' : M S A) (k : A → M S B) s :
  c s = c' s → bind c k s = bind c' k s.
Proof. intros H. unfold bind. by rewrite H. Qed.

Lemma mem_sbrk_fails incr h :
  mem_max_addr h < mem_brk h + incr → mem_sbrk incr h = Done (-1, h).
Proof.
  intros H. unfold mem_sbrk.
  destruct (Z.ltb_spec (mem_max_addr h) (mem_brk h + incr)); [|lia].
  by rewrite orb_true_r.
Qed.

(** The number of bytes by which [mm_malloc] extends the heap. *)
Lemma extend_heap_size ext h :
  ext mod 8 = 0 → 0 ≤ ext < 18446744073709551616 →
  extend_heap (ext / 4) h
  = (bp <- mem_sbrk ext ;;
     if bp =? -1 then ret 0
     else
       PUT (HDRP bp) (PACK ext 0) ;;
       ft <- FTRP bp ;;
       PUT ft (PACK ext 0) ;;
       nb <- NEXT_BLKP bp ;;
       PUT (HDRP nb) (PACK 0 1) ;;
       coalesce bp) h.
Proof.
  intros H8 Hext. unfold extend_heap, WSIZE, wrap64.
  change (2 ^ 64) with 18446744073709551616.
  assert (ext / 4 mod 2 = 0) as -> by zlia.
  change (0 =? 0) with true. cbn [negb].
  by replace ((ext / 4 * 4) `mod` 18446744073709551616) with ext by zlia.
Qed.

Ltac sym1 :=
  lazymatch goal with
  | |- bind ?c ?k ?h = _ =>
      lazymatch c with
      | bind _ _ => rewrite (bind_assoc _ _ k h)
      | coalesce _ => unfold coalesce at 1
      | add_to_freelist _ => unfold add_to_freelist at 1
      | remove_from_freelist _ => unfold remove_from_freelist at 1
      | extend_heap (_ / 4) =>
          erewrite (bind_ext c _ k h); [|apply extend_heap_size; zlia]
      | place _ _ => unfold place at 1
      | ret _ => rewrite (bind_done c k h _ h eq_refl)
      | gets _ => rewrite (bind_done c k h _ h eq_refl)
      | modify ?f => rewrite (bind_done c k h tt (f h) eq_refl)
      | PUT _ _ => erewrite (bind_done c k h); [|apply PUT_done; in_arena]
      | PUT_NEXT_FREE _ _ =>
          erewrite (bind_done c k h); [|apply PUT_NEXT_FREE_done; in_arena]
      | PUT_PREV_FREE _ _ =>
          erewrite (bind_done c k h); [|apply PUT_PREV_FREE_done; unfold_consts; in_arena]
      | GET_SIZE _ => erewrite (bind_done c k h); [|apply GET_SIZE_done; unfold_consts; sym_read]
      | GET_ALLOC _ => erewrite (bind_done c k h); [|apply GET_ALLOC_done; unfold_consts; sym_read]
      | FTRP _ => erewrite (bind_done c k h); [|apply FTRP_done; unfold_consts; sym_read]
      | NEXT_BLKP _ => erewrite (bind_done c k h); [|apply NEXT_BLKP_done; unfold_consts; sym_read]
      | PREV_BLKP _ => erewrite (bind_done c k h); [|apply PREV_BLKP_done; unfold_consts; sym_read]
      | GET_NEXT_FREE _ =>
          erewrite (bind_done c k h); [|apply GET_NEXT_FREE_done; unfold_consts; sym_read]
      | GET_PREV_FREE _ =>
          erewrite (bind_done c k h); [|apply GET_PREV_FREE_done; unfold_consts; sym_read]
      | mem_sbrk _ =>
          first
            [ erewrite (bind_done c k h);
              [|apply mem_sbrk_done; [zlia|layout; zlia]]
            | erewrite (bind_done c k h);
              [|apply mem_sbrk_fails; layout; zlia] ]
      end
  end; sym_norm.

(** The last command of a sequence. *)
Ltac sym_last :=
  lazymatch goal with
  | |- PUT _ _ _ = _ => apply PUT_done; in_arena
  | |- PUT_NEXT_FREE _ _ _ = _ => apply PUT_NEXT_FREE_done; in_arena
  | |- PUT_PREV_FREE _ _ _ = _ => apply PUT_PREV_FREE_done; unfold_consts; in_arena
  | |- modify _ _ = _ => reflexivity
  | |- ret _ _ = _ => reflexivity
  end.

(** The end of a run: the value returned is the expected one. *)
Ltac sym_done v :=
  lazymatch goal with
  | |- Done (?p, _) = _ => replace p with v by zlia; reflexivity
  | |- ret ?p _ = _ => unfold ret; replace p with v by zlia; reflexivity
  end.

Ltac sym_cmp :=
  match goal with
  | |- context [?a =? ?b] =>
      first [ replace (a =? b) with false by (symmetry; apply Z.eqb_neq; zlia)
            | replace (a =? b) with true by (symmetry; apply Z.eqb_eq; zlia) ]
  | |- context [?a <? ?b] =>
      first [ replace (a <? b) with false by (symmetry; apply Z.ltb_ge; zlia)
            | replace (a <? b) with true by (symmetry; apply Z.ltb_lt; zlia) ]
  | |- context [?a <=? ?b] =>
      first [ replace (a <=? b) with false by (symmetry; apply Z.leb_gt; zlia)
            | replace (a <=? b) with true by (symmetry; apply Z.leb_le; zlia) ]
  end; cbn [negb andb orb]; cbv beta iota.

(** The facts of [tail_free], with the packed words written as sums. *)
Lemma tail_free_words h b r psz :
  tail_free h b r psz →
  heap_listp h = mem_start h + 8 ∧ mem_brk h = b + r ∧ free_list_root h = b
  ∧ b + r ≤ mem_max_addr h ∧ mem_start h + 8 ≤ b - psz
  ∧ (8 ≤ psz < 4294967296 ∧ psz mod 8 = 0) ∧ (24 ≤ r < 4294967296 ∧ r mod 8 = 0)
  ∧ load_le 4 h (b - psz - 4) = Some (psz + 1)
  ∧ load_le 4 h (b - 8) = Some (psz + 1)
  ∧ load_le 4 h (b - 4) = Some r
  ∧ load_le 8 h b = Some 0
  ∧ load_le 8 h (b + 8) = Some 0
  ∧ load_le 4 h (b + r - 8) = Some r
  ∧ load_le 4 h (b + r - 4) = Some 1.
Proof.
  unfold tail_free, PACK. change (2 ^ 32) with 4294967296.
  intros (?&?&?&?&?&[? ?]&[? ?]&G1&G2&G3&?&?&G4&G5).
  rewrite lor_pack in G1, G2, G3, G4 by zlia.
  rewrite !Z.add_0_r in *. change (Z.lor 0 1) with 1 in G5.
  done.
Qed.
Lemma find_fit_loop_null fuel asize count scount sc best bp :
  find_fit_loop fuel asize 0 count scount sc best bp = ret bp.
Proof. by destruct fuel. Qed.

Ltac sym_run := repeat first [sym1 | sym_cmp | rewrite find_fit_loop_null].

Lemma malloc_place_split h b r psz asize fuel :
  tail_free h b r psz → 0 < mem_start h →
  24 ≤ asize → asize mod 8 = 0 → asize + 24 ≤ r → (1 ≤ fuel)%nat →
  ∃ h', malloc_place fuel asize h = Done (b, h')
     ∧ mem_start h' = mem_start h ∧ mem_max_addr h' = mem_max_addr h
     ∧ tail_free h' (b + asize) (r - asize) asize
     ∧ (∀ n a, a + Z.of_nat n ≤ b - 4 → load_le n h' a = load_le n h a).
Proof.
  intros Ht Hpos Ha Ha8 Hfit Hfuel.
  apply tail_free_words in Ht
    as (Hl & Hbrk & Hroot & Hmax & Hprev & [Hpsz Hpsz8] & [Hr Hr8]
        & G1 & G2 & G3 & G4 & G5 & G6 & G7).
  destruct fuel as [|fuel]; [lia|].
  eexists. split.
  { unfold malloc_place, find_fit. do 2 sym1. rewrite Hroot.
    cbn [find_fit_loop]. unfold_consts. fold_consts.
    sym_run. reflexivity. }
  split; [layout; reflexivity|]. split; [layout; reflexivity|].
  split.
  - unfold tail_free. layout. change (2 ^ 32) with 4294967296.
    unfold PACK. rewrite !lor_pack by zlia. change (Z.lor 0 1) with 1.
    split_and!; try zlia; sym_read.
  - intros n a Hlow. sym_reads. reflexivity.
Qed.
Lemma initialised_tail_free h :
  initialised h → tail_free h (mem_start h + 16) 2048 8.
Proof.
  intros (Hl & Hb & Hr & Hmax & G4 & G8 & G12 & GN & GP & G2056 & G2060).
  apply GET_inv in G4, G8, G12, G2056, G2060.
  apply GET_NEXT_FREE_inv in GN. apply GET_PREV_FREE_inv in GP.
  revert GP. unfold DSIZE, CHUNKSIZE in *. intros GP.
  unfold tail_free.
  split_and!; try done; try lia; try (by vm_compute);
    match goal with
    | H : load_le ?n h ?a = Some ?v |- load_le ?n h ?b = Some _ =>
        replace b with a by lia; exact H
    end.
Qed.

(** The adjusted size of a request that does not wrap around. *)
Lemma adjusted_size_bounds size :
  0 < size ≤ 2 ^ 64 - 32 →
  24 ≤ adjusted_size size ∧ adjusted_size size mod 8 = 0
  ∧ size + 8 ≤ adjusted_size size ≤ size + 31.
Proof.
  change (2 ^ 64) with 18446744073709551616.
  intros Hs. unfold adjusted_size. unfold_consts. fold_consts.
  destruct (Z.leb_spec size 16); [zlia|].
  rewrite (Z.mod_small (size + 16 + 15)) by lia.
  rewrite Z.mod_small by zlia. zlia.
Qed.

Lemma mm_malloc_split h b r psz size fuel :
  tail_free h b r psz → 0 < mem_start h →
  0 < size ≤ 2 ^ 64 - 32 → adjusted_size size + 24 ≤ r → (1 ≤ fuel)%nat →
  ∃ h', mm_malloc fuel size h = Done (b, h')
     ∧ mem_start h' = mem_start h ∧ mem_max_addr h' = mem_max_addr h
     ∧ tail_free h' (b + adjusted_size size) (r - adjusted_size size) (adjusted_size size)
     ∧ (∀ n a, a + Z.of_nat n ≤ b - 4 → load_le n h' a = load_le n h a).
Proof.
  intros Ht Hpos Hs Hfit Hfuel.
  destruct (adjusted_size_bounds size Hs) as (Ha & Ha8 & _).
  rewrite mm_malloc_initialised
    by (destruct Ht as (-> & _); lia).
  destruct (Z.eqb_spec size 0); [lia|].
  by apply (malloc_place_split h b r psz).
Qed.
Lemma tail_full_words h e psz :
  tail_full h e psz →
  heap_listp h = mem_start h + 8 ∧ mem_brk h = e ∧ free_list_root h = 0
  ∧ e ≤ mem_max_addr h ∧ mem_start h + 8 ≤ e - psz
  ∧ (8 ≤ psz < 4294967296 ∧ psz mod 8 = 0)
  ∧ load_le 4 h (e - psz - 4) = Some (psz + 1)
  ∧ load_le 4 h (e - 8) = Some (psz + 1)
  ∧ load_le 4 h (e - 4) = Some 1.
Proof.
  unfold tail_full, PACK. change (2 ^ 32) with 4294967296.
  intros (?&?&?&?&?&[? ?]&G1&G2&G3).
  rewrite lor_pack in G1, G2 by zlia. change (Z.lor 0 1) with 1 in G3.
  done.
Qed.

Lemma MAX_cases asize :
  asize mod 8 = 0 → 0 ≤ asize →
  MAX asize 2048 mod 8 = 0 ∧ asize ≤ MAX asize 2048
  ∧ 2048 ≤ MAX asize 2048
  ∧ (MAX asize 2048 = asize ∨ MAX asize 2048 = 2048).
Proof.
  intros. unfold MAX. destruct (Z.ltb_spec 2048 asize); zlia.
Qed.

Section one_allocation.
Variables (h : heap) (asize : Z) (fuel : nat).
Hypothesis Hpos : 0 < mem_start h.
Hypothesis Hsmall : mem_max_addr h - mem_start h < 2 ^ 32.
Hypothesis Ha : 24 ≤ asize < 2 ^ 64.
Hypothesis Ha8 : asize mod 8 = 0.
Hypothesis Hfuel : (1 ≤ fuel)%nat.

(** The free block fits and is not split. *)
Lemma malloc_place_whole b r psz :
  tail_free h b r psz → asize ≤ r < asize + 24 →
  ∃ h', malloc_place fuel asize h = Done (b, h')
     ∧ frame_below h b h' ∧ tail_full h' (b + r) r.
Proof using All.
  intros Ht Hfit.
  apply tail_free_words in Ht
    as (Hl & Hbrk & Hroot & Hmax & Hprev & [Hpsz Hpsz8] & [Hr Hr8]
        & G1 & G2 & G3 & G4 & G5 & G6 & G7).
  destruct fuel as [|fuel']; [lia|].
  eexists. split.
  { unfold malloc_place, find_fit. do 2 sym1. rewrite Hroot.
    cbn [find_fit_loop]. unfold_consts. fold_consts.
    sym_run. sym_last. }
  split.
  - unfold frame_below. layout. split_and!; [done|done|lia|].
    intros n a Hlow. sym_reads. reflexivity.
  - unfold tail_full. layout. change (2 ^ 32) with 4294967296.
    unfold PACK. rewrite !lor_pack by zlia. change (Z.lor 0 1) with 1.
    split_and!; try zlia; sym_read.
Qed.

(** The free block fits and is split. *)
Lemma malloc_place_fits b r psz :
  tail_free h b r psz → asize + 24 ≤ r →
  ∃ h', malloc_place fuel asize h = Done (b, h')
     ∧ frame_below h b h' ∧ tail_free h' (b + asize) (r - asize) asize.
Proof using All.
  intros Ht Hfit.
  destruct (malloc_place_split h b r psz asize fuel)
    as (h' & Hrun & Hs & Hm & Ht' & Hfr); [done|done|lia|done|done|done|].
  exists h'. split_and!; [done| |done].
  split_and!; [done|done| |done].
  destruct Ht as (_ & -> & _). destruct Ht' as (_ & -> & _). lia.
Qed.

(** No block fits and the arena cannot grow. *)
Lemma malloc_place_no_room b r psz :
  tail_free h b r psz → r < asize →
  mem_max_addr h < mem_brk h + MAX asize CHUNKSIZE →
  malloc_place fuel asize h = Done (0, h).
Proof using All.
  intros Ht Hfit Hroom.
  apply tail_free_words in Ht
    as (Hl & Hbrk & Hroot & Hmax & Hprev & [Hpsz Hpsz8] & [Hr Hr8]
        & G1 & G2 & G3 & G4 & G5 & G6 & G7).
  destruct (MAX_cases asize Ha8) as (He8 & Hea & He & Hcases); [lia|].
  revert Hroom. unfold malloc_place, CHUNKSIZE.
  generalize dependent (MAX asize 2048). intros ext He8 Hea He Hcases Hroom.
  change (2 ^ 64) with 18446744073709551616 in Ha.
  destruct fuel as [|fuel']; [lia|].
  unfold find_fit. do 2 sym1. rewrite Hroot.
  cbn [find_fit_loop]. unfold_consts. fold_consts.
  sym_run. reflexivity.
Qed.

(** No block fits; the heap grows, the new block is merged with the free
    block at the end, and the request is carved from the result. *)
Lemma malloc_place_grows b r psz :
  tail_free h b r psz → r < asize →
  mem_brk h + MAX asize CHUNKSIZE ≤ mem_max_addr h →
  ∃ h', malloc_place fuel asize h = Done (b, h')
     ∧ frame_below h b h'
     ∧ tail_free h' (b + asize) (r + MAX asize CHUNKSIZE - asize) asize.
Proof using All.
  intros Ht Hfit Hroom.
  apply tail_free_words in Ht
    as (Hl & Hbrk & Hroot & Hmax & Hprev & [Hpsz Hpsz8] & [Hr Hr8]
        & G1 & G2 & G3 & G4 & G5 & G6 & G7).
  destruct (MAX_cases asize Ha8) as (He8 & Hea & He & Hcases); [lia|].
  revert Hroom. unfold malloc_place, CHUNKSIZE.
  generalize dependent (MAX asize 2048). intros ext He8 Hea He Hcases Hroom.
  change (2 ^ 64) with 18446744073709551616 in Ha.
  change (2 ^ 32) with 4294967296 in Hsmall.
  destruct fuel as [|fuel']; [lia|].
  eexists. split.
  { unfold find_fit. do 2 sym1. rewrite Hroot.
    cbn [find_fit_loop]. unfold_consts. fold_consts.
    sym_run. sym_done b. }
  split.
  - unfold frame_below. layout. split_and!; [done|done|lia|].
    intros n a Hlow. sym_reads. reflexivity.
  - unfold tail_free. layout. change (2 ^ 32) with 4294967296.
    unfold PACK. rewrite !lor_pack by zlia. change (Z.lor 0 1) with 1.
    split_and!; try zlia; sym_read.
Qed.

(** The free list is empty and the arena cannot grow. *)
Lemma malloc_place_full_no_room e psz :
  tail_full h e psz →
  mem_max_addr h < mem_brk h + MAX asize CHUNKSIZE →
  malloc_place fuel asize h = Done (0, h).
Proof using All.
  intros Ht Hroom.
  apply tail_full_words in Ht
    as (Hl & Hbrk & Hroot & Hmax & Hprev & [Hpsz Hpsz8] & G1 & G2 & G3).
  destruct (MAX_cases asize Ha8) as (He8 & Hea & He & Hcases); [lia|].
  revert Hroom. unfold malloc_place, CHUNKSIZE.
  generalize dependent (MAX asize 2048). intros ext He8 Hea He Hcases Hroom.
  change (2 ^ 64) with 18446744073709551616 in Ha.
  unfold find_fit. do 2 sym1. rewrite Hroot.
  sym_run. reflexivity.
Qed.

(** The free list is empty; the heap grows and the new block is split. *)
Lemma malloc_place_full_grows e psz :
  tail_full h e psz →
  mem_brk h + MAX asize CHUNKSIZE ≤ mem_max_addr h →
  asize + 24 ≤ MAX asize CHUNKSIZE →
  ∃ h', malloc_place fuel asize h = Done (e, h')
     ∧ frame_below h e h'
     ∧ tail_free h' (e + asize) (MAX asize CHUNKSIZE - asize) asize.
Proof using All.
  intros Ht Hroom Hsplit.
  apply tail_full_words in Ht
    as (Hl & Hbrk & Hroot & Hmax & Hprev & [Hpsz Hpsz8] & G1 & G2 & G3).
  destruct (MAX_cases asize Ha8) as (He8 & Hea & He & Hcases); [lia|].
  revert Hroom Hsplit. unfold malloc_place, CHUNKSIZE.
  generalize dependent (MAX asize 2048).
  intros ext He8 Hea He Hcases Hroom Hsplit.
  change (2 ^ 64) with 18446744073709551616 in Ha.
  change (2 ^ 32) with 4294967296 in Hsmall.
  eexists. split.
  { unfold find_fit. do 2 sym1. rewrite Hroot.
    sym_run. sym_done e. }
  split.
  - unfold frame_below. layout. split_and!; [done|done|lia|].
    intros n a Hlow. sym_reads. reflexivity.
  - unfold tail_free. layout. change (2 ^ 32) with 4294967296.
    unfold PACK. rewrite !lor_pack by zlia. change (Z.lor 0 1) with 1.
    split_and!; try zlia; sym_read.
Qed.

(** The free list is empty; the heap grows by exactly the block. *)
Lemma malloc_place_full_exact e psz :
  tail_full h e psz →
  mem_brk h + MAX asize CHUNKSIZE ≤ mem_max_addr h →
  MAX asize CHUNKSIZE < asize + 24 →
  ∃ h', malloc_place fuel asize h = Done (e, h')
     ∧ frame_below h e h'
     ∧ tail_full h' (e + MAX asize CHUNKSIZE) (MAX asize CHUNKSIZE).
Proof using All.
  intros Ht Hroom Hsplit.
  apply tail_full_words in Ht
    as (Hl & Hbrk & Hroot & Hmax & Hprev & [Hpsz Hpsz8] & G1 & G2 & G3).
  destruct (MAX_cases asize Ha8) as (He8 & Hea & He & Hcases); [lia|].
  revert Hroom Hsplit. unfold malloc_place, CHUNKSIZE.
  generalize dependent (MAX asize 2048).
  intros ext He8 Hea He Hcases Hroom Hsplit.
  change (2 ^ 64) with 18446744073709551616 in Ha.
  change (2 ^ 32) with 4294967296 in Hsmall.
  eexists. split.
  { unfold find_fit. do 2 sym1. rewrite Hroot.
    sym_run. sym_done e. }
  split.
  - unfold frame_below. layout. split_and!; [done|done|lia|].
    intros n a Hlow. sym_reads. reflexivity.
  - unfold tail_full. layout. change (2 ^ 32) with 4294967296.
    unfold PACK. rewrite !lor_pack by zlia. change (Z.lor 0 1) with 1.
    split_and!; try zlia; sym_read.
Qed.
End one_allocation.
Lemma frame_below_refl h w : frame_below h w h.
Proof. unfold frame_below. split_and!; [done|done|lia|done]. Qed.

Lemma frame_below_trans h h1 h2 w w1 :
  w ≤ w1 → frame_below h w h1 → frame_below h1 w1 h2 → frame_below h w h2.
Proof.
  intros Hw (Hs & Hm & Hb & Hf) (Hs' & Hm' & Hb' & Hf').
  split_and!; [congruence|congruence|lia|].
  intros n a Ha. rewrite Hf' by lia. by apply Hf.
Qed.

Lemma bump_bounds h w :
  bump h w → heap_listp h = mem_start h + 8 ∧ mem_start h + 16 ≤ w ≤ mem_brk h.
Proof.
  intros [(r & psz & Ht)|(psz & Ht)].
  - destruct Ht as (? & ? & ? & ? & ? & [? ?] & [? ?] & _). lia.
  - destruct Ht as (? & ? & ? & ? & ? & [? ?] & _). lia.
Qed.

(** One allocation on a heap that has only seen allocations: the block
    starts at the mark and is the last block of the heap afterwards, or
    the request fails because the arena cannot grow by
    [MAX asize CHUNKSIZE] bytes, and then nothing changes. *)
Lemma mm_malloc_bump h w size fuel :
  bump h w → 0 < mem_start h → mem_max_addr h - mem_start h < 2 ^ 32 →
  0 < size ≤ 2 ^ 64 - 32 → (1 ≤ fuel)%nat →
  ∃ p h' w',
    mm_malloc fuel size h = Done (p, h')
    ∧ bump h' w' ∧ frame_below h w h'
    ∧ (mem_brk h + MAX (adjusted_size size) CHUNKSIZE ≤ mem_max_addr h → p = w)
    ∧ ((p = 0 ∧ h' = h ∧ w' = w
        ∧ mem_max_addr h < mem_brk h + MAX (adjusted_size size) CHUNKSIZE)
       ∨ (p = w ∧ ∃ bs, adjusted_size size ≤ bs ∧ bs mod 8 = 0 ∧ w' = w + bs
                   ∧ ((∃ r, tail_free h' w' r bs) ∨ tail_full h' w' bs))).
Proof.
  intros Hb Hpos Hsmall Hs Hfuel.
  destruct (adjusted_size_bounds size Hs) as (Ha & Ha8 & Hlo & Hhi).
  assert (24 ≤ adjusted_size size < 2 ^ 64) as Ha'
    by (change (2 ^ 64) with 18446744073709551616 in *; lia).
  rewrite mm_malloc_initialised by (destruct (bump_bounds h w Hb); lia).
  destruct (Z.eqb_spec size 0); [lia|].
  set (asize := adjusted_size size) in *.
  assert (∀ h' bs, frame_below h w h' → asize ≤ bs → bs mod 8 = 0 →
            (∃ r, tail_free h' (w + bs) r bs) ∨ tail_full h' (w + bs) bs →
            malloc_place fuel asize h = Done (w, h') →
            ∃ p h' w',
              malloc_place fuel asize h = Done (p, h')
              ∧ bump h' w' ∧ frame_below h w h'
              ∧ (mem_brk h + MAX asize CHUNKSIZE ≤ mem_max_addr h → p = w)
              ∧ ((p = 0 ∧ h' = h ∧ w' = w
                  ∧ mem_max_addr h < mem_brk h + MAX asize CHUNKSIZE)
                 ∨ (p = w ∧ ∃ bs, asize ≤ bs ∧ bs mod 8 = 0 ∧ w' = w + bs
                     ∧ ((∃ r, tail_free h' w' r bs) ∨ tail_full h' w' bs))))
    as Hok.
  { intros h' bs Hfr Hbs Hbs8 Hshape Hrun. exists w, h', (w + bs).
    split_and!; [done| |done|done|].
    - destruct Hshape as [[r Ht]|Ht]; [left|right]; eauto.
    - right. split; [done|]. exists bs. done. }
  assert (mem_max_addr h < mem_brk h + MAX asize CHUNKSIZE →
          malloc_place fuel asize h = Done (0, h) →
          ∃ p h' w',
            malloc_place fuel asize h = Done (p, h')
            ∧ bump h' w' ∧ frame_below h w h'
            ∧ (mem_brk h + MAX asize CHUNKSIZE ≤ mem_max_addr h → p = w)
            ∧ ((p = 0 ∧ h' = h ∧ w' = w
                ∧ mem_max_addr h < mem_brk h + MAX asize CHUNKSIZE)
               ∨ (p = w ∧ ∃ bs, asize ≤ bs ∧ bs mod 8 = 0 ∧ w' = w + bs
                   ∧ ((∃ r, tail_free h' w' r bs) ∨ tail_full h' w' bs))))
    as Hfail.
  { intros Hroom Hrun. exists 0, h, w.
    split_and!; [done|done|apply frame_below_refl|lia|]. left. done. }
  destruct Hb as [(r & psz & Ht)|(psz & Ht)].
  - pose proof Ht as (_ & _ & _ & _ & _ & _ & [Hr Hr8] & _).
    destruct (Z.le_gt_cases (asize + 24) r) as [Hsplit|Hsplit].
    { destruct (malloc_place_fits h asize fuel Hpos Hsmall Ha' Ha8 Hfuel w r psz)
        as (h' & Hrun & Hfr & Ht'); [done..|].
      apply (Hok h' asize); [done|lia|done|left; eauto|done]. }
    destruct (Z.le_gt_cases asize r) as [Hfit|Hfit].
    { destruct (malloc_place_whole h asize fuel Hpos Hsmall Ha' Ha8 Hfuel w r psz)
        as (h' & Hrun & Hfr & Ht'); [done|lia|].
      apply (Hok h' r); [done|lia|done|right; eauto|done]. }
    destruct (Z.le_gt_cases (mem_brk h + MAX asize CHUNKSIZE) (mem_max_addr h))
      as [Hroom|Hroom].
    + destruct (malloc_place_grows h asize fuel Hpos Hsmall Ha' Ha8 Hfuel w r psz)
        as (h' & Hrun & Hfr & Ht'); [done..|].
      apply (Hok h' asize); [done|lia|done|left; eauto|done].
    + apply Hfail; [done|].
      by apply (malloc_place_no_room h asize fuel Hpos Hsmall Ha' Ha8 Hfuel w r psz).
  - destruct (MAX_cases asize Ha8) as (He8 & Hea & He & Hcases); [lia|].
    change 2048 with CHUNKSIZE in *.
    destruct (Z.le_gt_cases (mem_brk h + MAX asize CHUNKSIZE) (mem_max_addr h))
      as [Hroom|Hroom].
    + destruct (Z.le_gt_cases (asize + 24) (MAX asize CHUNKSIZE)) as [Hsplit|Hsplit].
      * destruct (malloc_place_full_grows h asize fuel Hpos Hsmall Ha' Ha8 Hfuel w psz)
          as (h' & Hrun & Hfr & Ht'); [done..|].
        apply (Hok h' asize); [done|lia|done|left; eauto|done].
      * destruct (malloc_place_full_exact h asize fuel Hpos Hsmall Ha' Ha8 Hfuel w psz)
          as (h' & Hrun & Hfr & Ht'); [done..|].
        apply (Hok h' (MAX asize CHUNKSIZE)); [done|lia|done|right; eauto|done].
    + apply Hfail; [done|].
      by apply (malloc_place_full_no_room h asize fuel Hpos Hsmall Ha' Ha8 Hfuel w psz).
Qed.
(** A run of allocations on a heap that has only seen allocations: the
    blocks are handed out upwards from the mark. *)
Lemma mallocs_bump fuel sizes :
  (1 ≤ fuel)%nat → Forall (λ sz, 0 < sz ≤ 2 ^ 64 - 32) sizes →
  ∀ h w,
    bump h w → 0 < mem_start h → mem_max_addr h - mem_start h < 2 ^ 32 →
    ∃ ps h' w',
      mallocs fuel sizes h = Done (ps, h')
      ∧ bump h' w' ∧ frame_below h w h' ∧ w ≤ w' ∧ (w' - w) mod 8 = 0
      ∧ length ps = length sizes
      ∧ (∀ i p sz, ps !! i = Some p → sizes !! i = Some sz → p ≠ 0 →
           w ≤ p ∧ p + sz + 8 ≤ w' ∧ (p - w) mod 8 = 0)
      ∧ (∀ i j p q sz, (i < j)%nat → ps !! i = Some p → ps !! j = Some q →
           sizes !! i = Some sz → p ≠ 0 → q ≠ 0 → p + sz + 8 ≤ q).
Proof.
  intros Hfuel. induction 1 as [|size sizes Hs _ IH]; intros h w Hb Hpos Hsmall.
  - exists [], h, w.
    split_and!; [done|done|apply frame_below_refl|lia| |done|done|done].
    by replace (w - w) with 0 by lia.
  - destruct (mm_malloc_bump h w size fuel Hb Hpos Hsmall Hs Hfuel)
      as (p & h1 & w1 & Hrun & Hb1 & Hfr & _ & Hcase).
    pose proof Hfr as (Hst & Hmx & _).
    destruct (IH h1 w1 Hb1) as (ps & h2 & w2 & Hruns & Hb2 & Hfr2 & Hw & Hw8 & Hlen & Hin & Hord);
      [lia|lia|].
    destruct (adjusted_size_bounds size Hs) as (Ha & Ha8 & Hlo & Hhi).
    assert (w ≤ w1 ∧ (w1 - w) mod 8 = 0
            ∧ (p ≠ 0 → p = w ∧ w + adjusted_size size ≤ w1)) as (Hww & Hww8 & Hp).
    { destruct Hcase as [(-> & _ & -> & _)|(-> & bs & ? & ? & -> & _)].
      - split_and!; [lia|by replace (w - w) with 0 by lia|done].
      - split_and!; [lia|by replace (w + bs - w) with bs by lia|]. intros _. lia. }
    exists (p :: ps), h2, w2. split_and!.
    + cbn [mallocs]. rewrite (bind_done _ _ _ _ _ Hrun).
      by rewrite (bind_done _ _ _ _ _ Hruns).
    + done.
    + by apply (frame_below_trans h h1 h2 w w1).
    + lia.
    + replace (w2 - w) with ((w2 - w1) + (w1 - w)) by lia. zlia.
    + cbn. by rewrite Hlen.
    + intros [|i] p' sz Hp' Hsz Hnz; simplify_eq/=.
      * destruct (Hp Hnz) as [-> ?]. split_and!; [lia|lia|by replace (w - w) with 0 by lia].
      * destruct (Hin i p' sz Hp' Hsz Hnz) as (? & ? & ?).
        split_and!; [lia|lia|].
        replace (p' - w) with ((p' - w1) + (w1 - w)) by lia. zlia.
    + intros [|i] [|j] p' q sz Hij Hp' Hq Hsz Hpz Hqz; simplify_eq/=; try lia.
      * destruct (Hp Hpz) as [-> ?].
        assert (∃ szq, sizes !! j = Some szq) as [szq Hszq].
        { apply lookup_lt_is_Some. rewrite <- Hlen. by apply lookup_lt_Some in Hq. }
        destruct (Hin j q szq Hq Hszq Hqz) as (? & ? & ?). lia.
      * apply (Hord i j p' q sz); [lia|done..].
Qed.

Lemma mm_init_fresh_arena arena start :
  0 < start → 2064 ≤ Z.of_nat (length arena) →
  ∃ h1, mm_init (fresh_heap arena start) = Done (0, h1)
        ∧ mem_start h1 = start
        ∧ mem_max_addr h1 = start + Z.of_nat (length arena)
        ∧ initialised h1.
Proof.
  intros Hstart Hlen. eexists. split.
  { unfold mm_init. unfold_consts; fold_consts.
    do 2 run1. decide_cmp. repeat run1. decide_cmp. repeat run1.
    decide_cmp. reflexivity. }
  split; [layout; reflexivity|]. split; [layout; reflexivity|].
  unfold initialised. layout.
  split_and!; try lia;
    lazymatch goal with
    | |- GET _ _ = _ => apply GET_done
    | |- GET_NEXT_FREE _ _ = _ => apply GET_NEXT_FREE_done
    | |- GET_PREV_FREE _ _ = _ => apply GET_PREV_FREE_done
    end; solve_read.
Qed.

(** X1. Allocations from a fresh heap never overlap: for requests of any
    sizes, the pointers that [mm_malloc] returns are null or lie inside
    the heap, are 8-byte aligned relative to its start, and every block
    leaves room for its payload and boundary tags before the next block
    handed out. *)
Theorem mallocs_do_not_overlap arena start fuel sizes :
  0 < start → 2064 ≤ Z.of_nat (length arena) < 2 ^ 32 → (1 ≤ fuel)%nat →
  Forall (λ sz, 0 < sz ≤ 2 ^ 64 - 32) sizes →
  ∃ ps h',
    (mm_init ;; mallocs fuel sizes) (fresh_heap arena start) = Done (ps, h')
    ∧ length ps = length sizes
    ∧ (∀ i p sz, ps !! i = Some p → sizes !! i = Some sz → p ≠ 0 →
         start + 16 ≤ p ∧ p + sz + 8 ≤ mem_brk h' ∧ (p - start) mod 8 = 0)
    ∧ (∀ i j p q sz, (i < j)%nat → ps !! i = Some p → ps !! j = Some q →
         sizes !! i = Some sz → p ≠ 0 → q ≠ 0 → p + sz + 8 ≤ q).
Proof.
  intros Hstart Hlen Hfuel Hsizes.
  destruct (mm_init_fresh_arena arena start Hstart) as (h1 & Hinit & Hs & Hmax & Hi);
    [lia|].
  destruct (mallocs_bump fuel sizes Hfuel Hsizes h1 (start + 16))
    as (ps & h2 & w2 & Hrun & Hb & Hfr & Hw & Hw8 & Hl & Hin & Hord).
  { left. exists 2048, 8. rewrite <- Hs. by apply initialised_tail_free. }
  { lia. }
  { lia. }
  exists ps, h2. split_and!; [|done| |done].
  - by rewrite (bind_done _ _ _ _ _ Hinit).
  - intros i p sz Hp Hsz Hnz. destruct (Hin i p sz Hp Hsz Hnz) as (? & ? & ?).
    destruct (bump_bounds h2 w2 Hb) as (_ & ? & ?).
    split_and!; [lia|lia|].
    replace (p - start) with ((p - (start + 16)) + 16) by lia. zlia.
Qed.

Section free_last.
Variables (h : heap) (b bs psz : Z).
Hypothesis Hpos : 0 < mem_start h.
Hypothesis Hprev : mem_start h + 8 ≤ b - psz.
Hypothesis Hpsz : 8 ≤ psz < 4294967296 ∧ psz mod 8 = 0.
Hypothesis P1 : load_le 4 h (b - psz - 4) = Some (psz + 1).
Hypothesis P2 : load_le 4 h (b - 8) = Some (psz + 1).


End free_last.


(** Two neighbouring allocated blocks in front of the free block at the
    end, freed in the order of their addresses: the first goes to the
    front of the free list, the second is merged with both of its
    neighbours. *)
Lemma free_in_order h b a1 a2 r psz :
  0 < mem_start h → mem_max_addr h - mem_start h < 2 ^ 32 →
  mem_max_addr h < 2 ^ 64 →
  mem_start h + 8 ≤ b - psz → 8 ≤ psz < 4294967296 ∧ psz mod 8 = 0 →
  load_le 4 h (b - psz - 4) = Some (psz + 1) →
  load_le 4 h (b - 8) = Some (psz + 1) →
  24 ≤ a1 ∧ a1 mod 8 = 0 →
  load_le 4 h (b - 4) = Some (a1 + 1) →
  tail_free h (b + a1 + a2) r a2 → 24 ≤ a2 →
  ∃ h', (mm_free b ;; mm_free (b + a1)) h = Done (tt, h')
     ∧ mem_start h' = mem_start h
     ∧ tail_free h' b (a1 + a2 + r) psz.
Proof.
  intros Hpos Hsmall Haddr Hprev [Hpsz Hpsz8] P1 P2 [Ha1 Ha18] A1 Ht Ha2.
  change (2 ^ 32) with 4294967296 in Hsmall.
  change (2 ^ 64) with 18446744073709551616 in Haddr.
  apply tail_free_words in Ht
    as (Hl & Hbrk & Hroot & Hmax & Hprev' & [Hbs Hbs8] & [Hr Hr8]
        & G1 & G2 & G3 & G4 & G5 & G6 & G7).
  eexists. split.
  { unfold mm_free at 1. sym_cmp. sym_run.
    unfold mm_free. sym_cmp. sym_run. reflexivity. }
  split; [layout; reflexivity|].
  unfold tail_free. layout. change (2 ^ 32) with 4294967296.
  unfold PACK. rewrite !lor_pack by zlia. change (Z.lor 0 1) with 1.
  split_and!; try zlia; sym_read.
Qed.
Lemma tail_free_initialised h :
  tail_free h (mem_start h + 16) 2048 8 → initialised h.
Proof.
  intros Ht. apply tail_free_words in Ht
    as (Hl & Hbrk & Hroot & Hmax & Hprev' & _ & _
        & G1 & G2 & G3 & G4 & G5 & G6 & G7).
  unfold initialised. cbv zeta.
  split_and!; try lia;
    lazymatch goal with
    | |- GET _ _ = _ => apply GET_done
    | |- GET_NEXT_FREE _ _ = _ => apply GET_NEXT_FREE_done
    | |- GET_PREV_FREE _ _ = _ => apply GET_PREV_FREE_done
    end; unfold PACK, DSIZE, CHUNKSIZE; fold_consts; sym_hyp.
Qed.

(** X4. Two blocks allocated on a fresh heap and freed in the order of their
    allocation are merged with the rest of the chunk: the heap is again
    as [mm_init] left it, one free block of 2,048 bytes. *)
Theorem frees_in_order_coalesce arena start fuel s1 s2 :
  0 < start → 2064 ≤ Z.of_nat (length arena) < 2 ^ 32 →
  start + Z.of_nat (length arena) < 2 ^ 64 → (1 ≤ fuel)%nat →
  0 < s1 ≤ 2 ^ 64 - 32 → 0 < s2 ≤ 2 ^ 64 - 32 →
  adjusted_size s1 + adjusted_size s2 + 24 ≤ 2048 →
  ∃ h',
    (mm_init ;;
     p <- mm_malloc fuel s1 ;; q <- mm_malloc fuel s2 ;;
     mm_free p ;; mm_free q ;; ret (p, q)) (fresh_heap arena start)
    = Done ((start + 16, start + 16 + adjusted_size s1), h')
    ∧ initialised h'.
Proof.
  intros Hstart Hlen Haddr Hfuel Hs1 Hs2 Hsum.
  destruct (mm_init_fresh_arena arena start Hstart) as (h0 & Hinit & Hst & Hmax & Hi);
    [lia|].
  destruct (adjusted_size_bounds s1 Hs1) as (Ha1 & Ha18 & _).
  destruct (adjusted_size_bounds s2 Hs2) as (Ha2 & Ha28 & _).
  apply initialised_tail_free in Hi. rewrite Hst in Hi.
  destruct (mm_malloc_split h0 (start + 16) 2048 8 s1 fuel)
    as (h1 & Hrun1 & Hst1 & Hmax1 & Ht1 & Hfr1); [done|lia|done|lia|done|].
  destruct (mm_malloc_split h1 (start + 16 + adjusted_size s1)
              (2048 - adjusted_size s1) (adjusted_size s1) s2 fuel)
    as (h2 & Hrun2 & Hst2 & Hmax2 & Ht2 & Hfr2); [done|lia|done|lia|done|].
  apply tail_free_words in Hi as (_ & _ & _ & _ & _ & _ & _ & I1 & I2 & _).
  pose proof (tail_free_words _ _ _ _ Ht1) as (_ & _ & _ & _ & _ & _ & _ & J1 & _).
  destruct (free_in_order h2 (start + 16) (adjusted_size s1) (adjusted_size s2)
              (2048 - adjusted_size s1 - adjusted_size s2) 8)
    as (h3 & Hfree & Hst3 & Ht3).
  - lia.
  - lia.
  - lia.
  - lia.
  - done.
  - rewrite Hfr2, Hfr1 by (cbn; lia).
    by replace (start + 16 - 8 - 4) with (start + 16 - 8 - 4) by lia.
  - rewrite Hfr2, Hfr1 by (cbn; lia). done.
  - done.
  - rewrite Hfr2 by (cbn; lia).
    by replace (start + 16 - 4)
      with (start + 16 + adjusted_size s1 - adjusted_size s1 - 4) by lia.
  - by replace (2048 - adjusted_size s1 - adjusted_size s2)
      with (2048 - adjusted_size s1 - adjusted_size s2) by lia.
  - lia.
  - exists h3. split.
    + rewrite (bind_done _ _ _ _ _ Hinit), (bind_done _ _ _ _ _ Hrun1).
      rewrite (bind_done _ _ _ _ _ Hrun2).
      rewrite <- bind_assoc.
      by rewrite (bind_done _ _ _ _ _ Hfree).
    + apply tail_free_initialised. rewrite Hst3, Hst2, Hst1, Hst.
      by replace (adjusted_size s1 + adjusted_size s2
                  + (2048 - adjusted_size s1 - adjusted_size s2)) with 2048 in Ht3 by lia.
Qed.
(** *** Byte strings in the arena *)

Section bytes.
Implicit Types (h : heap) (a b v : Z) (n m : nat) (bs : list Z).



Lemma load_byte_poke_bytes_other a bs h b :
  mem_start h ≤ a → (b < a ∨ a + Z.of_nat (length bs) ≤ b) →
  load_byte (poke_bytes a bs h) b = load_byte h b.
Proof.
  revert a h. induction bs as [|v bs IH]; intros a h Hlo Hout; [done|].
  cbn [poke_bytes length] in *. rewrite IH.
  - apply load_byte_poke_byte_ne; lia.
  - unfold poke_byte, set_mem_heap; cbn. lia.
  - lia.
Qed.



Lemma load_bytes_ext n h h' a :
  (∀ i, 0 ≤ i < Z.of_nat n → load_byte h' (a + i) = load_byte h (a + i)) →
  load_bytes n h' a = load_bytes n h a.
Proof.
  revert a. induction n as [|n IH]; intros a Hb; [done|].
  cbn [load_bytes]. pose proof (Hb 0 ltac:(lia)) as H0.
  rewrite Z.add_0_r in H0. rewrite H0. rewrite IH; [done|].
  intros i Hi. replace (a + 1 + i) with (a + (1 + i)) by lia. apply Hb. lia.
Qed.






End bytes.
(** *** Programs on a fresh arena *)


(** *** Zero-initialised allocation *)

(** X5. When the allocation fails, [mm_calloc] still clears [bytes] bytes at
    the pointer it got: a store through the null pointer. *)
Theorem mm_calloc_null_store fuel nmemb size h h' :
  mm_malloc fuel (wrap64 (nmemb * size)) h = Done (0, h') →
  0 < mem_start h' → wrap64 (nmemb * size) ≠ 0 →
  mm_calloc fuel nmemb size h = Fault.
Proof.
  intros Hrun Hpos Hn. unfold mm_calloc.
  rewrite (bind_done _ _ _ _ _ Hrun).
  apply bind_fault. unfold memset, update.
  assert (0 < wrap64 (nmemb * size)) as Hlt.
  { unfold wrap64 in *. pose proof (Z.mod_pos_bound (nmemb * size) (2 ^ 64)). lia. }
  destruct (Z.to_nat (wrap64 (nmemb * size))) as [|n] eqn:Hnat; [lia|].
  cbn [replicate store_bytes]. unfold store_byte.
  by destruct (Z.ltb_spec 0 (mem_start h')); [|lia].
Qed.

(** *** Payloads *)


Lemma load_bytes_poke_bytes_other m b a bs h :
  mem_start h ≤ a → (b + Z.of_nat m ≤ a ∨ a + Z.of_nat (length bs) ≤ b) →
  load_bytes m (poke_bytes a bs h) b = load_bytes m h b.
Proof.
  intros Hlo Hout. apply load_bytes_ext. intros i Hi.
  apply load_byte_poke_bytes_other; lia.
Qed.




(** *** Reallocation *)



Section free_before_last.
Variables (h : heap) (p bs psz bs2 : Z).
Hypothesis Hpos : 0 < mem_start h.
Hypothesis Haddr : mem_max_addr h < 2 ^ 64.
Hypothesis Hprev : mem_start h + 8 ≤ p - psz.
Hypothesis Hpsz : 8 ≤ psz < 4294967296 ∧ psz mod 8 = 0.
Hypothesis Hbs : 24 ≤ bs < 4294967296 ∧ bs mod 8 = 0.
Hypothesis P1 : load_le 4 h (p - psz - 4) = Some (psz + 1).
Hypothesis P2 : load_le 4 h (p - 8) = Some (psz + 1).
Hypothesis P3 : load_le 4 h (p - 4) = Some (bs + 1).

End free_before_last.

(** *** Failure *)


(** X10. [mm_init] fails on an arena of fewer than 2,064 bytes, and the
    failure is final: [heap_listp] is left non-null, so [mm_malloc] does
    not initialise again, and every request, of any size, returns the
    null pointer. *)
Theorem mm_init_without_room arena start :
  0 < start → Z.of_nat (length arena) < 2064 →
  ∃ h',
    mm_init (fresh_heap arena start) = Done (-1, h')
    ∧ heap_listp h' ≠ 0
    ∧ ∀ fuel size, mm_malloc fuel size h' = Done (0, h').
Proof.
  intros Hstart Hlen.
  assert (∀ h', heap_listp h' ≠ 0 → free_list_root h' = 0 →
            0 ≤ mem_brk h' →
            mem_max_addr h' < mem_brk h' + 2048 →
            ∀ fuel size, mm_malloc fuel size h' = Done (0, h')) as Hfail.
  { intros h' Hl Hroot Hbrk Hroom fuel size.
    rewrite mm_malloc_initialised by done.
    destruct (Z.eqb_spec size 0) as [|_]; [done|].
    assert (adjusted_size size mod 8 = 0 ∧ 0 ≤ adjusted_size size < 18446744073709551616)
      as [Ha8 Ha].
    { destruct (adjusted_size_shape size) as [->|(k & -> & Hk)]; [done|].
      change (2 ^ 60) with 1152921504606846976 in Hk. zlia. }
    destruct (MAX_cases (adjusted_size size) Ha8) as (He8 & Hea & He & Hcases); [lia|].
    unfold malloc_place, find_fit. rewrite (bind_assoc _ _ _ h').
    rewrite (bind_done _ _ h' _ h' eq_refl). cbv beta.
    rewrite Hroot, find_fit_loop_null. rewrite (bind_done _ _ h' _ h' eq_refl).
    cbv beta. change (0 =? 0) with true. cbn [negb]. cbv iota.
    unfold CHUNKSIZE, WSIZE.
    erewrite (bind_ext _ _ _ h'); [|apply extend_heap_size; lia].
    rewrite (bind_assoc _ _ _ h').
    by rewrite (bind_done _ _ h' (-1) h') by (apply mem_sbrk_fails; lia). }
  destruct (Z.lt_ge_cases (Z.of_nat (length arena)) 16) as [Hsmall|Hbig].
  - (* not even the prologue fits *)
    eexists. split.
    { unfold mm_init. unfold_consts; fold_consts.
      rewrite (bind_done _ _ _ (-1) (fresh_heap arena start))
        by (apply mem_sbrk_fails; layout; lia).
      run1. reflexivity. }
    split; [layout; lia|].
    apply Hfail; layout; lia.
  - (* the prologue fits, the first chunk does not *)
    eexists. split.
    { unfold mm_init. unfold_consts; fold_consts.
      do 2 run1. decide_cmp. do 6 run1.
      change 512 with (2048 / 4).
      erewrite (bind_ext _ _ _ _); [|apply extend_heap_size; [done|lia]].
      rewrite (bind_assoc _ _ _ _).
      erewrite (bind_done _ _ _ (-1)) by (apply mem_sbrk_fails; layout; lia).
      cbv beta. change (-1 =? -1) with true. cbv iota.
      rewrite (bind_done _ _ _ 0 _ eq_refl). reflexivity. }
    split; [layout; lia|].
    apply Hfail; layout; lia.
Qed.
(** *** Requests that wrap around *)

(** For the sixteen sizes from 2^64 - 31 on, the adjusted size wraps
    around to 0. *)
Lemma adjusted_size_wraps size :
  2 ^ 64 - 31 ≤ size ≤ 2 ^ 64 - 16 → adjusted_size size = 0.
Proof.
  change (2 ^ 64) with 18446744073709551616.
  intros Hs. unfold adjusted_size. unfold_consts. fold_consts.
  destruct (Z.leb_spec size 16); [lia|].
  replace ((size + 16 + 15) `mod` 18446744073709551616)
    with (size + 31 - 18446744073709551616) by zlia.
  replace ((size + 31 - 18446744073709551616) `div` 16) with 0 by zlia.
  done.
Qed.

(** A block of adjusted size 0 placed at the free block of the heap: the
    call returns the free block, which stays free and on the free list,
    so the next request is served from the same address. *)
Lemma malloc_place_zero h b r psz asize fuel :
  tail_free h b r psz → 0 < mem_start h →
  24 ≤ asize → asize mod 8 = 0 → asize + 24 ≤ r → (1 ≤ fuel)%nat →
  ∃ h1 h2,
    malloc_place fuel 0 h = Done (b, h1)
    ∧ malloc_place fuel asize h1 = Done (b, h2)
    ∧ load_le 4 h1 (b - 4) = Some (PACK r 0)
    ∧ free_list_root h1 = b
    ∧ heap_listp h1 = heap_listp h
    ∧ load_le 4 h1 (b - 8) = Some (PACK 0 1).
Proof.
  intros Ht Hpos Ha Ha8 Hfit Hfuel.
  apply tail_free_words in Ht
    as (Hl & Hbrk & Hroot & Hmax & Hprev & [Hpsz Hpsz8] & [Hr Hr8]
        & G1 & G2 & G3 & G4 & G5 & G6 & G7).
  destruct fuel as [|fuel]; [lia|].
  eexists. eexists. split.
  { unfold malloc_place, find_fit. do 2 sym1. rewrite Hroot.
    cbn [find_fit_loop]. unfold_consts. fold_consts.
    sym_run. sym_done b. }
  split.
  { unfold malloc_place, find_fit. do 2 sym1.
    cbn [find_fit_loop]. unfold_consts. fold_consts.
    sym_run. sym_done b. }
  unfold PACK. rewrite lor_pack by zlia. change (Z.lor 0 1) with 1.
  split_and!; [sym_read|layout; lia|layout; lia|sym_read].
Qed.

(** X9. A request of 2^64 - 31 to 2^64 - 16 bytes does not fail: [mm_malloc]
    returns the address of the free block and leaves the block free, so
    the next allocation returns the same address again. *)
Theorem mm_malloc_wraps_around arena start fuel size size' :
  0 < start → 2064 ≤ Z.of_nat (length arena) → (1 ≤ fuel)%nat →
  2 ^ 64 - 31 ≤ size ≤ 2 ^ 64 - 16 →
  0 < size' ≤ 2 ^ 64 - 32 → adjusted_size size' + 24 ≤ 2048 →
  ∃ h',
    (mm_init ;;
     p <- mm_malloc fuel size ;; a <- GET_ALLOC (HDRP p) ;;
     q <- mm_malloc fuel size' ;; ret (p, a, q)) (fresh_heap arena start)
    = Done ((start + 16, 0, start + 16), h').
Proof.
  intros Hstart Hlen Hfuel Hs Hs' Hfit.
  destruct (mm_init_fresh_arena arena start Hstart) as (h0 & Hinit & Hst & Hmax & Hi);
    [lia|].
  destruct (adjusted_size_bounds size' Hs') as (Ha & Ha8 & _).
  apply initialised_tail_free in Hi. rewrite Hst in Hi.
  pose proof Hi as (Hl & _).
  destruct (malloc_place_zero h0 (start + 16) 2048 8 (adjusted_size size') fuel)
    as (h1 & h2 & Hrun1 & Hrun2 & Hhdr & Hroot & Hl1 & _); [done|lia|done..|].
  rewrite Hl in Hl1.
  exists h2.
  rewrite (bind_done _ _ _ _ _ Hinit).
  rewrite (bind_done _ _ h0 (start + 16) h1).
  2:{ rewrite mm_malloc_initialised by lia.
      destruct (Z.eqb_spec size 0) as [|_];
        [change (2 ^ 64) with 18446744073709551616 in Hs; lia|].
      by rewrite adjusted_size_wraps. }
  rewrite (bind_done _ _ h1 0 h1).
  2:{ unfold HDRP, WSIZE. rewrite (GET_ALLOC_done _ _ _ Hhdr). done. }
  rewrite (bind_done _ _ h1 (start + 16) h2); [done|].
  rewrite mm_malloc_initialised by lia.
  destruct (Z.eqb_spec size' 0) as [|_]; [lia|]. done.
Qed.
(** *** The heap checker on any heap *)

Section reads_only.
Context {A B : Type}.

Lemma reads_only_ret (a : A) : reads_only (ret a).
Proof. by intros h a' h' [= _ <-]. Qed.

Lemma reads_only_bind (c : M heap A) (k : A → M heap B) :
  reads_only c → (∀ a, reads_only (k a)) → reads_only (bind c k).
Proof.
  intros Hc Hk h b h' Hrun. apply bind_inv in Hrun as (a & h1 & H1 & H2).
  apply Hc in H1 as ->. by apply Hk in H2.
Qed.

Lemma reads_only_read (f : heap → option A) : reads_only (read f).
Proof. intros h a h'. unfold read. destruct (f h); [|done]. by intros [= _ <-]. Qed.

Lemma reads_only_gets (f : heap → A) : reads_only (gets f).
Proof. by intros h a h' [= _ <-]. Qed.

Lemma reads_only_if (b : bool) (c1 c2 : M heap A) :
  reads_only c1 → reads_only c2 → reads_only (if b then c1 else c2).
Proof. by destruct b. Qed.
End reads_only.

Ltac reads_only :=
  repeat first
    [ apply reads_only_ret
    | apply reads_only_gets
    | apply reads_only_read
    | apply reads_only_if
    | apply reads_only_bind; [|intros ?]
    | progress unfold GET, GET_SIZE, GET_ALLOC, FTRP, NEXT_BLKP, PREV_BLKP,
        GET_NEXT_FREE, GET_PREV_FREE ].

Lemma check_free_block_reads_only block : reads_only (check_free_block block).
Proof. unfold check_free_block. reads_only. Qed.

Lemma check_free_list_reads_only fuel :
  ∀ block i, reads_only (check_free_list fuel block i).
Proof.
  induction fuel as [|fuel IH]; intros block i; cbn [check_free_list].
  - apply reads_only_if; [apply reads_only_ret|]. by intros h a h'.
  - apply reads_only_if; [apply reads_only_ret|].
    apply reads_only_bind; [apply check_free_block_reads_only|].
    intros ok. apply reads_only_if; [|apply reads_only_ret].
    apply reads_only_bind; [reads_only|]. intros nxt. apply IH.
Qed.

(** Words read from an arena of bytes are not negative. *)
Lemma load_le_nonneg n h a w :
  Forall (λ b, 0 ≤ b) (mem_heap h) → load_le n h a = Some w → 0 ≤ w.
Proof.
  intros Hbytes. revert a w. induction n as [|n IH]; intros a w; cbn [load_le].
  - by intros [= <-].
  - destruct (load_byte h a) as [b|] eqn:Hb; [|done].
    destruct (load_le n h (a + 1)) as [r|] eqn:Hr; [|done].
    intros [= <-]. apply Z.lor_nonneg. split.
    + unfold load_byte in Hb. destruct (a <? mem_start h); [done|].
      by apply (Forall_lookup_1 _ _ _ _ Hbytes Hb).
    + apply Z.shiftl_nonneg. by apply (IH (a + 1)).
Qed.

(** The heap walk steps upwards through positive addresses, so it never
    finds the null pointer that would end it. *)
Lemma check_heap_walk_never_ends h :
  Forall (λ b, 0 ≤ b) (mem_heap h) →
  ∀ fuel block j j' h', 0 < block →
    check_heap_walk fuel block j h ≠ Done (Some j', h').
Proof.
  intros Hbytes. induction fuel as [|fuel IH]; intros block j j' h' Hb.
  { cbn [check_heap_walk]. by destruct (Z.eqb_spec block 0) as [|_]; [lia|]. }
  destruct (load_le 4 h (HDRP block)) as [w|] eqn:Hw.
  - rewrite (check_heap_walk_step _ _ _ _ w) by (done || lia).
    destruct (negb _); [done|]. apply IH.
    pose proof (load_le_nonneg _ _ _ _ Hbytes Hw).
    assert (0 ≤ Z.land w (Z.lnot 7)) by (apply Z.land_nonneg; lia). lia.
  - cbn [check_heap_walk]. destruct (Z.eqb_spec block 0) as [|_]; [lia|].
    unfold GET_SIZE, GET, read, bind. by rewrite Hw.
Qed.

(** X11. Once the allocator is initialised, [mm_checkheap] never reports a
    consistent heap: on any heap whose [heap_listp] is a positive address
    it returns 0, or faults, or does not come to an end, but never
    returns 1. *)
Theorem mm_checkheap_never_passes h fuel r h' :
  0 < heap_listp h → Forall (λ b, 0 ≤ b) (mem_heap h) →
  mm_checkheap fuel h = Done (r, h') → r = 0.
Proof.
  intros Hl Hbytes. unfold mm_checkheap.
  rewrite (bind_done _ _ h _ h eq_refl). cbv beta.
  intros Hrun. apply bind_inv in Hrun as (res & h1 & Hlist & Hrun).
  apply check_free_list_reads_only in Hlist as ->.
  destruct res as [i|]; [|by injection Hrun as <- _].
  rewrite (bind_done _ _ h _ h eq_refl) in Hrun. cbv beta in Hrun.
  apply bind_inv in Hrun as (res & h1 & Hwalk & Hrun).
  destruct res as [j|]; [|by injection Hrun as <- _].
  by apply check_heap_walk_never_ends in Hwalk.
Qed.
(** *** The theorems at concrete inputs *)

Lemma sizes_100_200 : Forall (λ sz, 0 < sz ≤ 2 ^ 64 - 32) [100; 200].
Proof. repeat (constructor; [by vm_compute|]). constructor. Qed.



Lemma mallocs_do_not_overlap_witness :
  ∃ ps h',
    (mm_init ;; mallocs 1 [100; 200]) arena0 = Done (ps, h')
    ∧ length ps = length [100; 200]
    ∧ (∀ i p sz, ps !! i = Some p → [100; 200] !! i = Some sz → p ≠ 0 →
         4096 + 16 ≤ p ∧ p + sz + 8 ≤ mem_brk h' ∧ (p - 4096) mod 8 = 0)
    ∧ (∀ i j p q sz, (i < j)%nat → ps !! i = Some p → ps !! j = Some q →
         [100; 200] !! i = Some sz → p ≠ 0 → q ≠ 0 → p + sz + 8 ≤ q).
Proof.
  apply (mallocs_do_not_overlap (replicate 4096 0) 4096 1 [100; 200]);
    [lia|by vm_compute|lia|apply sizes_100_200].
Defined.



Lemma frees_in_order_coalesce_witness :
  ∃ h',
    (mm_init ;;
     p <- mm_malloc 1 100 ;; q <- mm_malloc 1 200 ;;
     mm_free p ;; mm_free q ;; ret (p, q)) arena1
    = Done ((4096 + 16, 4096 + 16 + adjusted_size 100), h')
    ∧ initialised h'.
Proof.
  apply (frees_in_order_coalesce (replicate (Z.to_nat 8192) 0) 4096 1 100 200);
    [lia|by vm_compute|by vm_compute|lia|by vm_compute|by vm_compute|by vm_compute].
Defined.

Lemma mm_calloc_null_store_witness :
  mm_calloc 1 1 3000 (fresh_heap (replicate 2064 0) 4096) = Fault.
Proof.
  eapply (mm_calloc_null_store 1 1 3000 (fresh_heap (replicate 2064 0) 4096));
    [vm_compute; reflexivity|by vm_compute|by vm_compute].
Defined.




Lemma mm_malloc_wraps_around_witness :
  ∃ h',
    (mm_init ;;
     p <- mm_malloc 1 (2 ^ 64 - 20) ;; a <- GET_ALLOC (HDRP p) ;;
     q <- mm_malloc 1 100 ;; ret (p, a, q)) arena0
    = Done ((4096 + 16, 0, 4096 + 16), h').
Proof.
  apply (mm_malloc_wraps_around (replicate 4096 0) 4096 1 (2 ^ 64 - 20) 100);
    [lia|by vm_compute|lia|by vm_compute|by vm_compute|by vm_compute].
Defined.

Lemma mm_init_without_room_witness :
  ∃ h',
    mm_init (fresh_heap (replicate 100 0) 4096) = Done (-1, h')
    ∧ heap_listp h' ≠ 0
    ∧ ∀ fuel size, mm_malloc fuel size h' = Done (0, h').
Proof.
  apply (mm_init_without_room (replicate 100 0) 4096); [lia|by vm_compute].
Defined.

Lemma mm_checkheap_never_passes_witness :
  0 < heap_listp stray_free_list
  ∧ mm_checkheap 1 stray_free_list = Done (0, stray_free_list)
  ∧ (0 : Z) = 0.
Proof.
  split; [by vm_compute|]. split; [by vm_compute|].
  apply (mm_checkheap_never_passes stray_free_list 1 0 stray_free_list);
    [by vm_compute|constructor|by vm_compute].
Defined.

End MmProps.

(** ** The proxy cache *)

Module ProxyProps.
Import Proxy.

(** *** Relaying the response *)

Section relay.

Lemma relay_loop_app r1 r2 buf sum left client :
  Forall (λ c, c ≠ []) r1 →
  relay_loop (r1 ++ r2) buf sum left client
  = let '(buf', sum', left', client') := relay_loop r1 buf sum left client in
    relay_loop r2 buf' sum' left' client'.
Proof.
  intros Hne. revert buf sum left client.
  induction Hne as [|chunk r1 Hc _ IH]; intros buf sum left client; [done|].
  cbn [app relay_loop].
  destruct (Z.ltb_spec 0 (Z.of_nat (length chunk))) as [_|Hn].
  - apply IH.
  - destruct chunk; [done|]. cbn [length] in Hn. lia.
Qed.

(** [response_buf_left] goes down by the length of every read. *)
Lemma relay_loop_left reads :
  Forall (λ c, c ≠ []) reads →
  ∀ buf sum left client,
    (relay_loop reads buf sum left client).1.2
    = left - Z.of_nat (length (concat reads)).
Proof.
  induction 1 as [|chunk reads Hc _ IH]; intros buf sum left client.
  - cbn. lia.
  - cbn [relay_loop concat].
    destruct (Z.ltb_spec 0 (Z.of_nat (length chunk))) as [_|Hn].
    + rewrite IH, length_app. lia.
    + destruct chunk; [done|]. cbn [length] in Hn. lia.
Qed.

(** While the reads stay strictly below the capacity, each is copied
    behind the previous ones. *)
Lemma relay_loop_copies reads :
  Forall (λ c, c ≠ []) reads →
  ∀ buf sum client,
    0 ≤ sum →
    sum + Z.of_nat (length (concat reads)) < Z.of_nat (length buf) →
    ∃ buf',
      relay_loop reads buf sum (Z.of_nat (length buf) - sum) client
      = (buf', sum + Z.of_nat (length (concat reads)),
         Z.of_nat (length buf) - sum - Z.of_nat (length (concat reads)),
         client ++ concat reads)
      ∧ length buf' = length buf
      ∧ take (Z.to_nat (sum + Z.of_nat (length (concat reads)))) buf'
        = take (Z.to_nat sum) buf ++ concat reads.
Proof.
  induction 1 as [|chunk reads Hc _ IH]; intros buf sum client Hsum Hfit.
  - exists buf. cbn [relay_loop concat length Z.of_nat].
    by rewrite Z.add_0_r, Z.sub_0_r, !app_nil_r.
  - cbn [relay_loop concat] in *. rewrite length_app in Hfit.
    assert (0 < Z.of_nat (length chunk)) as Hn.
    { destruct chunk; [done|]. cbn [length]. lia. }
    destruct (Z.ltb_spec 0 (Z.of_nat (length chunk))) as [_|]; [|lia].
    destruct (Z.ltb_spec 0 (Z.of_nat (length buf) - sum - Z.of_nat (length chunk)))
      as [_|]; [|lia].
    set (buf1 := buf_write buf sum chunk).
    assert (length buf1 = length buf) as Hlen1.
    { unfold buf1, buf_write. rewrite !length_app, length_take, length_drop. lia. }
    destruct (IH buf1 (sum + Z.of_nat (length chunk)) (client ++ chunk))
      as (buf' & Hrun & Hlen & Htake); [lia|rewrite Hlen1; lia|].
    exists buf'. rewrite Hlen1 in Hrun.
    replace (Z.of_nat (length buf) - sum - Z.of_nat (length chunk))
      with (Z.of_nat (length buf) - (sum + Z.of_nat (length chunk))) by lia.
    rewrite Hrun. rewrite length_app.
    split_and!.
    + rewrite app_assoc, Nat2Z.inj_add, Z.add_assoc.
      by replace (Z.of_nat (length buf) - (sum + Z.of_nat (length chunk))
                  - Z.of_nat (length (concat reads)))
        with (Z.of_nat (length buf) - sum
              - (Z.of_nat (length chunk) + Z.of_nat (length (concat reads)))) by lia.
    + by rewrite Hlen, Hlen1.
    + replace (sum + Z.of_nat (length chunk + length (concat reads))%nat)
        with (sum + Z.of_nat (length chunk) + Z.of_nat (length (concat reads))) by lia.
      rewrite Htake. rewrite app_assoc. f_equal.
      unfold buf1, buf_write.
      rewrite app_assoc, take_app_le by (rewrite length_app, length_take; lia).
      rewrite take_ge; [done|]. rewrite length_app, length_take. lia.
Qed.


(** A response of at most [MAX_OBJECT_SIZE] bytes: [sum] bytes of the
    buffer are handed to the cache. Below the capacity they are the whole
    response; at exactly the capacity the last read is missing. *)
Lemma relay_within_capacity reads :
  Forall (λ c, c ≠ []) reads →
  Z.of_nat (length (concat reads)) ≤ MAX_OBJECT_SIZE →
  ∃ buf sum,
    relay reads
    = (buf, sum, MAX_OBJECT_SIZE - Z.of_nat (length (concat reads)), concat reads)
    ∧ 0 ≤ sum ≤ MAX_OBJECT_SIZE
    ∧ Z.of_nat (length buf) = MAX_OBJECT_SIZE
    ∧ take (Z.to_nat sum) buf
      = if Z.of_nat (length (concat reads)) <? MAX_OBJECT_SIZE
        then concat reads
        else concat (removelast reads).
Proof.
  intros Hne Hle. unfold relay.
  assert (Z.of_nat (length (replicate (Z.to_nat MAX_OBJECT_SIZE) 0)) = MAX_OBJECT_SIZE)
    as Hbuf by (rewrite length_replicate; apply Z2Nat.id; done).
  revert Hbuf. generalize (replicate (Z.to_nat MAX_OBJECT_SIZE) 0). intros buf Hbuf.
  destruct (Z.ltb_spec (Z.of_nat (length (concat reads))) MAX_OBJECT_SIZE) as [Hlt|Hge].
  - (* everything fits strictly *)
    destruct (relay_loop_copies reads Hne buf 0 []) as (buf' & Hrun & Hlen & Htake);
      [lia|lia|].
    rewrite Hbuf, Z.sub_0_r in Hrun. rewrite Hrun.
    exists buf', (0 + Z.of_nat (length (concat reads))).
    split_and!; [done|lia|lia|lia|done].
  - (* exactly the capacity: the last read is not copied *)
    assert (Z.of_nat (length (concat reads)) = MAX_OBJECT_SIZE) as Heq by lia.
    assert (reads ≠ []) as Hreads.
    { intros ->. cbn in Heq. unfold MAX_OBJECT_SIZE in Heq. lia. }
    destruct (exists_last Hreads) as (init & lst & ->).
    rewrite removelast_last.
    apply Forall_app in Hne as [Hinit Hlast%Forall_inv].
    rewrite concat_app, length_app in Heq. cbn [concat] in Heq.
    rewrite app_nil_r in Heq.
    assert (0 < Z.of_nat (length lst)) as Hn.
    { destruct lst; [by destruct Hlast|]. cbn [length]. lia. }
    rewrite relay_loop_app by done.
    destruct (relay_loop_copies init Hinit buf 0 []) as (buf' & Hrun & Hlen & Htake);
      [lia|lia|].
    rewrite Hbuf, Z.sub_0_r in Hrun. rewrite Hrun.
    cbn [relay_loop].
    destruct (Z.ltb_spec 0 (Z.of_nat (length lst))) as [_|]; [|lia].
    destruct (Z.ltb_spec 0 (MAX_OBJECT_SIZE - Z.of_nat (length (concat init))
                            - Z.of_nat (length lst))) as [|_]; [lia|].
    exists buf', (0 + Z.of_nat (length (concat init))).
    split_and!; [|lia|lia|lia|done].
    rewrite concat_app, length_app. cbn [concat]. rewrite !app_nil_r, Nat2Z.inj_add.
    by rewrite Z.sub_add_distr.
Qed.

(** What the relay caches, by the total length of the response: all of it
    below the capacity, nothing above, and at exactly the capacity the
    response without its last read. *)
Lemma cached_object_cases reads :
  Forall (λ c, c ≠ []) reads →
  cached_object reads
  = if Z.of_nat (length (concat reads)) <? MAX_OBJECT_SIZE
    then Some (concat reads)
    else if Z.of_nat (length (concat reads)) =? MAX_OBJECT_SIZE
         then Some (concat (removelast reads))
         else None.
Proof.
  intros Hne. unfold cached_object.
  destruct (Z.le_gt_cases (Z.of_nat (length (concat reads))) MAX_OBJECT_SIZE)
    as [Hle|Hgt].
  - destruct (relay_within_capacity reads Hne Hle) as (buf & sum & -> & _ & _ & ->).
    destruct (Z.leb_spec 0 (MAX_OBJECT_SIZE - Z.of_nat (length (concat reads))));
      [|lia].
    destruct (Z.ltb_spec (Z.of_nat (length (concat reads))) MAX_OBJECT_SIZE); [done|].
    by destruct (Z.eqb_spec (Z.of_nat (length (concat reads))) MAX_OBJECT_SIZE); [|lia].
  - pose proof (relay_loop_left reads Hne (replicate (Z.to_nat MAX_OBJECT_SIZE) 0)
                  0 MAX_OBJECT_SIZE []) as Hleft.
    fold (relay reads) in Hleft.
    destruct (relay reads) as [[[b sm] lf] cl].
    cbn [fst snd] in Hleft. subst lf.
    destruct (Z.leb_spec 0 (MAX_OBJECT_SIZE - Z.of_nat (length (concat reads))));
      [lia|].
    destruct (Z.ltb_spec (Z.of_nat (length (concat reads))) MAX_OBJECT_SIZE); [lia|].
    by destruct (Z.eqb_spec (Z.of_nat (length (concat reads))) MAX_OBJECT_SIZE); [lia|].
Qed.

End relay.

(** *** Stepping through the cache operations *)

Section steps.
Implicit Types (s : proxy) (p : loc) (e : Cache).

Lemma deref_done s p e : cache_mem s !! p = Some e → deref p s = Done (e, s).
Proof. intros H. unfold deref, read. by rewrite H. Qed.

Lemma deref_inv s p e s' : deref p s = Done (e, s') → cache_mem s !! p = Some e ∧ s' = s.
Proof. unfold deref, read. destruct (cache_mem s !! p); [|done]. by intros [= -> ->]. Qed.

Lemma assign_done s p f e :
  cache_mem s !! p = Some e →
  assign p f s = Done (tt, set_cache_mem (<[p := f e]> (cache_mem s)) s).
Proof. intros H. unfold assign. by rewrite (bind_done _ _ _ _ _ (deref_done _ _ _ H)). Qed.

Lemma assign_inv s p f r s' :
  assign p f s = Done (r, s') →
  ∃ e, cache_mem s !! p = Some e
       ∧ s' = set_cache_mem (<[p := f e]> (cache_mem s)) s.
Proof.
  unfold assign. intros (e & s1 & [He ->]%deref_inv & Hm)%bind_inv.
  exists e. split; [done|]. by injection Hm as _ <-.
Qed.

Lemma Free_done s p e :
  cache_mem s !! p = Some e →
  Free p s = Done (tt, set_cache_mem (delete p (cache_mem s)) s).
Proof. intros H. unfold Free. by rewrite (bind_done _ _ _ _ _ (deref_done _ _ _ H)). Qed.

Lemma P_done sem set s : 0 < sem s → P sem set s = Done (tt, set (sem s - 1) s).
Proof. intros H. unfold P. by destruct (Z.ltb_spec 0 (sem s)); [|lia]. Qed.

End steps.

(** Lookups in a store after a sequence of updates. *)
Ltac lookups :=
  repeat match goal with
  | |- context [<[?i:=?v]> ?m !! ?j] =>
      first [ constr_eq i j; rewrite (lookup_insert_eq m i v)
            | rewrite (lookup_insert_ne m i j v) by congruence ]
  | |- context [delete ?i ?m !! ?j] =>
      rewrite (lookup_delete_ne m i j) by congruence
  end;
  first [reflexivity | eassumption].

Ltac flat :=
  unfold set_cache_mem, set_remaining, set_readers, set_count_mutex, set_LRU_mutex,
    set_write_mutex;
  cbn [cache_mem remaining_cache_size readers_count count_mutex LRU_mutex write_mutex];
  try change (1 - 1) with 0; try change (0 + 1) with 1.

(** One step of symbolic execution of [bind c k s] on a state in
    constructor form. *)
Ltac prun1 :=
  lazymatch goal with
  | |- bind ?c ?k ?s = _ =>
      lazymatch c with
      | bind _ _ => rewrite (bind_assoc _ _ k s)
      | ret _ => rewrite (bind_done c k s _ s eq_refl)
      | gets _ => rewrite (bind_done c k s _ s eq_refl)
      | modify ?f => rewrite (bind_done c k s tt (f s) eq_refl)
      | V ?sem ?set => rewrite (bind_done c k s tt (set (sem s + 1) s) eq_refl)
      | Malloc => rewrite (bind_done c k s _ _ eq_refl)
      | P _ _ => erewrite (bind_done c k s); [|apply P_done; flat; lia]
      | deref _ => erewrite (bind_done c k s); [|apply deref_done; flat; lookups]
      | assign _ _ => erewrite (bind_done c k s); [|apply assign_done; flat; lookups]
      | Free _ => erewrite (bind_done c k s); [|apply Free_done; flat; lookups]
      | free_cache_entry _ => unfold free_cache_entry at 1
      | deref_ptr (Some _) => rewrite (bind_done c k s _ s eq_refl)
      end
  end; cbv beta; flat.

(** The last command of a sequence. *)
Ltac pfinish :=
  lazymatch goal with
  | |- assign _ _ _ = _ => erewrite assign_done by (flat; lookups); flat; reflexivity
  | |- free_cache_entry _ _ = _ =>
      unfold free_cache_entry; erewrite Free_done by (flat; lookups); flat; reflexivity
  | |- Free _ _ = _ => erewrite Free_done by (flat; lookups); flat; reflexivity
  | |- ret _ _ = _ => reflexivity
  | |- V _ _ _ = _ => reflexivity
  end.

(** *** Linked lists in the store *)

Section lists.
Implicit Types (m : gmap loc Cache) (ls : list loc) (x pv : loc).

(** The list predicate only looks at the links of the listed nodes. *)
Lemma dlist_links m m' ls :
  ∀ pv p,
    dlist m pv p ls →
    (∀ y e, y ∈ ls → m !! y = Some e →
            ∃ e', m' !! y = Some e' ∧ next e' = next e ∧ prev e' = prev e) →
    dlist m' pv p ls.
Proof.
  induction ls as [|x ls IH]; intros pv p Hl Hsame; [done|].
  destruct Hl as (-> & e & He & Hpv & Hl). split; [done|].
  destruct (Hsame x e) as (e' & He' & Hn & Hp); [set_solver|done|].
  exists e'. split_and!; [done|congruence|].
  rewrite Hn. apply IH; [done|]. intros y ey Hy. apply Hsame. set_solver.
Qed.

Lemma dlist_unchanged m m' ls pv p :
  dlist m pv p ls → (∀ y, y ∈ ls → m' !! y = m !! y) → dlist m' pv p ls.
Proof.
  intros Hl Hsame. apply (dlist_links m); [done|].
  intros y e Hy He. exists e. by rewrite Hsame.
Qed.

Lemma total_size_unchanged m m' ls :
  (∀ y, y ∈ ls → response_size <$> m' !! y = response_size <$> m !! y) →
  total_size m' ls = total_size m ls.
Proof.
  induction ls as [|x ls IH]; intros Hsame; [done|].
  cbn [total_size foldr]. fold (total_size m ls) (total_size m' ls).
  rewrite IH by (intros; apply Hsame; set_solver). f_equal.
  specialize (Hsame x ltac:(set_solver)).
  destruct (m' !! x), (m !! x); by simplify_eq/=.
Qed.

Lemma total_size_cons m x ls e :
  m !! x = Some e → total_size m (x :: ls) = response_size e + total_size m ls.
Proof. intros He. cbn [total_size foldr]. by rewrite He. Qed.

End lists.

(** *** [find_LRU] *)

(** Once [t] is the timestamp of [temp], the loop never moves on: the test
    compares [temp]'s own timestamp with [t]. *)
Lemma find_LRU_loop_stable s t temp te ls :
  cache_mem s !! temp = Some te → ¬ last_access te < t →
  ∀ pv p fuel,
    dlist (cache_mem s) pv p ls → (length ls ≤ fuel)%nat →
    find_LRU_loop fuel t temp p s = Done (temp, s).
Proof.
  intros Hte Ht. induction ls as [|x ls IH]; intros pv p fuel Hl Hfuel.
  - cbn in Hl. subst p. by destruct fuel.
  - destruct Hl as (-> & e & He & _ & Hl).
    destruct fuel as [|fuel]; [cbn in Hfuel; lia|].
    cbn [find_LRU_loop].
    rewrite (bind_done _ _ _ _ _ (deref_done _ _ _ Hte)).
    rewrite (bind_done _ _ _ _ _ (deref_done _ _ _ He)).
    destruct (Z.ltb_spec (last_access te) t); [done|].
    apply (IH x); [done|]. cbn in Hfuel. lia.
Qed.

(** [find_LRU] returns the first node after the sentinel, whatever the
    timestamps of the other nodes. *)
Lemma find_LRU_head s c hd x ls fuel now :
  cache_mem s !! c = Some hd → last_access hd < now →
  dlist (cache_mem s) c (next hd) (x :: ls) → (length (x :: ls) ≤ fuel)%nat →
  find_LRU fuel c now s = Done (x, s).
Proof.
  intros Hhd Hnow (Hnext & e & He & _ & Hl) Hfuel.
  unfold find_LRU. rewrite (bind_done _ _ _ _ _ (deref_done _ _ _ Hhd)).
  rewrite Hnext. destruct fuel as [|fuel]; [cbn in Hfuel; lia|].
  cbn [find_LRU_loop].
  rewrite (bind_done _ _ _ _ _ (deref_done _ _ _ Hhd)).
  rewrite (bind_done _ _ _ _ _ (deref_done _ _ _ He)).
  destruct (Z.ltb_spec (last_access hd) now); [|lia].
  apply (find_LRU_loop_stable _ _ _ e ls) with x; [done|lia|done|].
  cbn in Hfuel. lia.
Qed.


(** *** Unlinking and linking nodes *)

Section linking.
Variables (rem rc cm lm wm : Z).

(** Deleting the first node of the list leaves the list of the others. *)
Lemma delete_cache_entry_first m c hd x e ls :
  NoDup (c :: x :: ls) →
  m !! c = Some hd → m !! x = Some e → prev e = Some c →
  dlist m x (next e) ls →
  ∃ m',
    delete_cache_entry x (mkProxy m rem rc cm lm wm)
    = Done (tt, mkProxy m' rem rc cm lm wm)
    ∧ (∃ hd', m' !! c = Some hd' ∧ last_access hd' = last_access hd
              ∧ dlist m' c (next hd') ls)
    ∧ (∀ y, y ∈ ls → response_size <$> m' !! y = response_size <$> m !! y).
Proof.
  intros Hnd Hc Hx Hprev Hl.
  apply NoDup_cons in Hnd as [Hc_notin [Hx_notin Hnd]%NoDup_cons].
  assert (c ≠ x) as Hcx by set_solver.
  unfold delete_cache_entry.
  destruct (next e) as [n|] eqn:Hnext.
  - (* an interior node: the list goes on with [n] *)
    destruct ls as [|n' ls]; [done|].
    destruct Hl as ([= <-] & en & Hn & Hnprev & Hl).
    assert (n ≠ x ∧ n ≠ c) as [Hnx Hnc] by set_solver.
    eexists. split.
    { prun1. rewrite Hnext. do 2 prun1. rewrite Hprev. do 4 prun1. pfinish. }
    split.
    + eexists. split; [lookups|]. split; [done|].
      cbn [next set_next]. split; [done|].
      eexists. split; [lookups|]. split; [done|].
      cbn [next set_prev]. apply (dlist_unchanged m); [done|].
      apply NoDup_cons in Hnd as [Hn_notin _].
      intros y Hy.
      assert (y ≠ x) by set_solver. assert (y ≠ c) by set_solver.
      assert (y ≠ n) by set_solver. lookups.
    + intros y Hy.
      assert (y ≠ x ∧ y ≠ c) as (? & ?) by set_solver.
      destruct (decide (y = n)) as [->|?].
      * rewrite Hn. rewrite lookup_delete_ne, !lookup_insert_ne, lookup_insert_eq by done.
        done.
      * f_equal. lookups.
  - (* the last node *)
    destruct ls as [|n' ls]; [|by destruct Hl].
    eexists. split.
    { prun1. rewrite Hnext, Hprev. do 3 prun1. pfinish. }
    split.
    + eexists. split; [lookups|]. by split.
    + intros y Hy. set_solver.
Qed.

(** A node that is not in the list goes to its front. *)
Lemma add_cache_entry_front m c hd new en ls :
  NoDup (c :: ls) → new ∉ c :: ls →
  m !! c = Some hd → m !! new = Some en →
  dlist m c (next hd) ls →
  ∃ m',
    add_cache_entry c new (mkProxy m rem rc cm lm wm)
    = Done (tt, mkProxy m' rem rc cm lm wm)
    ∧ (∃ hd', m' !! c = Some hd' ∧ last_access hd' = last_access hd
              ∧ dlist m' c (next hd') (new :: ls))
    ∧ (∀ y, y ∈ ls → response_size <$> m' !! y = response_size <$> m !! y)
    ∧ (∃ en', m' !! new = Some en' ∧ url en' = url en
              ∧ response en' = response en
              ∧ response_size en' = response_size en
              ∧ last_access en' = last_access en).
Proof.
  intros Hnd Hnew Hc Hn Hl.
  apply NoDup_cons in Hnd as [Hc_notin Hnd].
  assert (new ≠ c) as Hnc by set_solver.
  unfold add_cache_entry.
  destruct ls as [|first ls].
  - cbn in Hl.
    eexists. split; [prun1; rewrite Hl; do 2 prun1; pfinish|].
    split_and!.
    + eexists. split; [lookups|]. split; [done|].
      cbn [next set_next]. split; [done|].
      eexists. split; [lookups|]. by split.
    + intros y Hy. set_solver.
    + eexists. split; [lookups|]. done.
  - destruct Hl as (Hnext & ef & Hf & Hfprev & Hl).
    assert (first ≠ c ∧ first ≠ new) as [Hfc Hfn] by set_solver.
    eexists. split.
    { prun1. rewrite Hnext. do 4 prun1. cbn [next set_next set_prev].
      prun1. pfinish. }
    split_and!.
    + eexists. split; [lookups|]. split; [done|].
      cbn [next set_next]. split; [done|].
      eexists. split; [lookups|]. split; [done|].
      cbn [next set_next set_prev]. split; [done|].
      eexists. split; [lookups|]. split; [done|].
      cbn [next set_prev]. apply (dlist_unchanged m); [done|].
      apply NoDup_cons in Hnd as [Hf_notin _].
      intros y Hy.
      assert (y ≠ first) by set_solver. assert (y ≠ c) by set_solver.
      assert (y ≠ new) by set_solver. lookups.
    + intros y Hy.
      assert (y ≠ c ∧ y ≠ new) as (? & ?) by set_solver.
      destruct (decide (y = first)) as [->|?].
      * rewrite Hf, lookup_insert_eq. done.
      * f_equal. lookups.
    + eexists. split; [lookups|]. done.
Qed.

End linking.


(** *** [write_to_cache] *)

Lemma dlist_allocated m ls :
  ∀ pv p, dlist m pv p ls → ∀ y, y ∈ ls → is_Some (m !! y).
Proof.
  induction ls as [|x ls IH]; intros pv p Hl y Hy; [set_solver|].
  destruct Hl as (_ & e & He & _ & Hl).
  apply elem_of_cons in Hy as [->|Hy]; [by eexists|]. by eapply IH.
Qed.

Section write.
Variables (c : loc) (u : string) (obj_size : Z) (resp : list Z) (now : Z).

(** The path with enough room: a new node at the front. *)
Lemma write_to_cache_insert ls s fuel :
  cache_inv c ls s → obj_size ≤ remaining_cache_size s →
  ∃ s' x,
    write_to_cache fuel c u obj_size resp now s = Done (tt, s')
    ∧ cache_inv c (x :: ls) s' ∧ holds_object u obj_size resp now (cache_mem s') x.
Proof.
  destruct s as [m rem rc cm lm wm].
  intros [(Hrc & Hcm & Hlm & Hwm) (Hnd & (hd & Hc & Hla & Hl) & Hacc)] Hroom.
  cbn in Hrc, Hcm, Hlm, Hwm, Hc, Hl, Hacc, Hroom. subst rc cm lm wm.
  set (new := fresh (dom m)).
  assert (m !! new = None) as Hnew.
  { apply not_elem_of_dom. apply is_fresh. }
  assert (new ∉ c :: ls) as Hnotin.
  { intros [->|Hin]%elem_of_cons; [congruence|].
    destruct (dlist_allocated _ _ _ _ Hl new Hin) as [? ?]. congruence. }
  assert (new ≠ c) as Hnc by set_solver.
  set (en := set_last_access now
               (set_response (Some (take (Z.to_nat obj_size) resp))
                  (set_url (Some u) (set_response_size obj_size uninitialised)))).
  set (m1 := <[new:=en]>
               (<[new:=set_response (Some (take (Z.to_nat obj_size) resp))
                         (set_url (Some u) (set_response_size obj_size uninitialised))]>
                  (<[new:=set_url (Some u) (set_response_size obj_size uninitialised)]>
                     (<[new:=set_response_size obj_size uninitialised]>
                        (<[new:=uninitialised]> m))))).
  destruct (add_cache_entry_front (rem - obj_size) 0 1 1 0 m1 c hd new en ls)
    as (m' & Hadd & (hd' & Hc' & Hla' & Hl') & Hsizes & (en' & Hen' & Hu & Hr & Hsz & Ht));
    [done|done|unfold m1; lookups|unfold m1; lookups| |].
  { apply (dlist_unchanged m); [done|]. intros y Hy.
    assert (y ≠ new) by set_solver. unfold m1. lookups. }
  exists (mkProxy m' (rem - obj_size) 0 1 1 1), new. split_and!.
  - unfold write_to_cache. do 2 prun1.
    destruct (Z.leb_spec obj_size rem); [|lia].
    do 7 prun1. fold new. do 5 prun1. fold en m1.
    rewrite (bind_done _ _ _ _ _ Hadd). reflexivity.
  - split; [done|]. flat. split_and!.
    + apply NoDup_cons in Hnd as [Hc_notin Hnd].
      apply NoDup_cons. split; [set_solver|].
      apply NoDup_cons. split; [set_solver|done].
    + exists hd'. split_and!; [done|congruence|done].
    + rewrite (total_size_cons _ _ _ en') by done. rewrite Hsz.
      rewrite (total_size_unchanged m1 m') by done.
      rewrite (total_size_unchanged m m1); [cbn; lia|].
      intros y Hy. assert (y ≠ new) by set_solver. f_equal. unfold m1. lookups.
  - exists en'. by rewrite Hu, Hr, Hsz, Ht.
Qed.

(** The eviction loop: it stops at a first node that, once overwritten,
    leaves room for the object; the list and the accounting stay
    consistent. *)
Lemma evict_loop_ok (rc cm lm wm : Z) ls :
  0 < now → obj_size ≤ MAX_CACHE_SIZE →
  ∀ x fuel m rem,
    cache_ok c (x :: ls) m rem → (length (x :: ls) ≤ fuel)%nat →
    ∃ y ls' m' rem' e,
      evict_loop fuel c obj_size now x (mkProxy m rem rc cm lm wm)
      = Done (y, mkProxy m' rem' rc cm lm wm)
      ∧ cache_ok c (y :: ls') m' rem'
      ∧ m' !! y = Some e ∧ obj_size ≤ response_size e + rem'.
Proof.
  intros Hnow Hobj. induction ls as [|x' ls IH]; intros x fuel m rem Hok Hfuel.
  all: destruct Hok as (Hnd & (hd & Hc & Hla & Hl) & Hacc).
  all: pose proof Hl as (_ & e & He & Hprev & Hl').
  all: rewrite (total_size_cons _ _ _ e) in Hacc by done.
  all: destruct (Z.lt_ge_cases (response_size e + rem) obj_size) as [Hevict|Hstop].
  - (* a single node always leaves room *)
    cbn in Hacc. lia.
  - exists x, [], m, rem, e. split_and!; [|by split_and!; [|eexists|rewrite (total_size_cons _ _ _ e)]|done|lia].
    destruct fuel; cbn [evict_loop]; do 2 prun1;
      by destruct (Z.ltb_spec (response_size e + rem) obj_size); [lia|].
  - (* evict [x] and go on with [x'] *)
    destruct fuel as [|fuel]; [cbn in Hfuel; lia|].
    destruct (delete_cache_entry_first (rem + response_size e) rc cm lm wm
                m c hd x e (x' :: ls))
      as (m' & Hdel & (hd' & Hc' & Hla' & Hl'') & Hsizes); [done..|].
    assert (cache_ok c (x' :: ls) m' (rem + response_size e)) as Hok'.
    { split_and!.
      - apply NoDup_cons in Hnd as [? [? ?]%NoDup_cons].
        apply NoDup_cons. split; [set_solver|done].
      - exists hd'. split_and!; [done|congruence|done].
      - rewrite (total_size_unchanged m m') by done. lia. }
    destruct (IH x' fuel m' (rem + response_size e) Hok')
      as (y & ls' & m'' & rem'' & ey & Hrun & Hok'' & Hy & Hroom);
      [cbn in Hfuel |- *; lia|].
    exists y, ls', m'', rem'', ey. split_and!; [|done..].
    cbn [evict_loop]. do 2 prun1.
    destruct (Z.ltb_spec (response_size e + rem) obj_size); [|lia].
    prun1. rewrite (bind_done _ _ _ _ _ Hdel).
    erewrite bind_done; [exact Hrun|].
    apply (find_LRU_head _ _ hd' x' ls); [done|flat; lia|done|].
    cbn in Hfuel |- *. lia.
  - exists x, (x' :: ls), m, rem, e.
    split_and!; [|by split_and!; [|eexists|rewrite (total_size_cons _ _ _ e)]|done|lia].
    destruct fuel; cbn [evict_loop]; do 2 prun1;
      by destruct (Z.ltb_spec (response_size e + rem) obj_size); [lia|].
Qed.

(** The eviction path: the node that the loop stops at is overwritten in
    place. *)
Lemma write_to_cache_evict ls s fuel :
  0 < now → 0 ≤ obj_size ≤ MAX_OBJECT_SIZE →
  cache_inv c ls s → remaining_cache_size s < obj_size →
  (length ls ≤ fuel)%nat →
  ∃ s' x ls',
    write_to_cache fuel c u obj_size resp now s = Done (tt, s')
    ∧ cache_inv c (x :: ls') s' ∧ holds_object u obj_size resp now (cache_mem s') x.
Proof.
  destruct s as [m rem rc cm lm wm].
  intros Hnow Hobj [(Hrc & Hcm & Hlm & Hwm) Hok] Hfull Hfuel.
  cbn in Hrc, Hcm, Hlm, Hwm, Hok, Hfull. subst rc cm lm wm.
  assert (obj_size ≤ MAX_CACHE_SIZE) as Hobj' by (unfold MAX_OBJECT_SIZE, MAX_CACHE_SIZE in *; lia).
  destruct ls as [|x ls].
  { destruct Hok as (_ & _ & Hacc). cbn in Hacc. lia. }
  destruct (evict_loop_ok 0 1 1 0 ls Hnow Hobj' x fuel m rem Hok Hfuel)
    as (y & ls' & m' & rem' & e & Hrun & Hok' & Hy & Hroom).
  pose proof Hok as (_ & (hd & Hc & Hla & Hl) & _).
  destruct Hok' as (Hnd' & (hd' & Hc' & Hla' & Hl') & Hacc').
  assert (y ≠ c) as Hyc by (apply NoDup_cons in Hnd' as [? _]; set_solver).
  set (e' := set_last_access now
               (set_response_size obj_size
                  (set_response (Some (take (Z.to_nat obj_size) resp))
                     (set_url (Some u) e)))).
  eexists _, y, ls'. split_and!.
  - unfold write_to_cache. do 2 prun1.
    destruct (Z.leb_spec obj_size rem); [lia|].
    prun1. erewrite bind_done; cycle 1.
    { apply (find_LRU_head _ _ hd x ls); [done|flat; lia|done|done]. }
    prun1. rewrite (bind_done _ _ _ _ _ Hrun).
    repeat prun1. reflexivity.
  - split; [done|]. flat. split_and!; [done| |].
    + exists hd'. split_and!; [lookups|done|].
      apply (dlist_links m'); [done|]. intros z ez Hz Hez.
      destruct (decide (z = y)) as [->|Hzy].
      * eexists. split; [lookups|]. rewrite Hy in Hez. by injection Hez as <-.
      * exists ez. split; [lookups|done].
    + rewrite (total_size_cons _ _ _ e) in Hacc' by done.
      erewrite total_size_cons by lookups. cbn [response_size set_last_access set_response_size].
      rewrite (total_size_unchanged m'); [lia|].
      intros z Hz. assert (z ≠ y).
      { apply NoDup_cons in Hnd' as [_ [? _]%NoDup_cons]. set_solver. }
      f_equal. lookups.
  - flat. exists e'. split; [lookups|done].
Qed.

End write.

(** The state in which [main] starts the handlers. *)
Lemma main_init_inv :
  ∃ c s, main_init empty_proxy = Done (c, s) ∧ cache_inv c [] s.
Proof.
  eexists _, _. split; [by vm_compute|].
  split; [done|]. split_and!.
  - apply NoDup_singleton.
  - eexists. split; [by vm_compute|]. done.
  - done.
Qed.

(** Every [write_to_cache] of an object of at most [MAX_OBJECT_SIZE] bytes
    returns, keeps the cache consistent, and leaves the object in the
    first node of the list. *)
Lemma write_to_cache_fills c ls s u obj_size resp now fuel :
  cache_inv c ls s → 0 < now → 0 ≤ obj_size ≤ MAX_OBJECT_SIZE →
  (length ls ≤ fuel)%nat →
  ∃ s' x ls',
    write_to_cache fuel c u obj_size resp now s = Done (tt, s')
    ∧ cache_inv c (x :: ls') s'
    ∧ holds_object u obj_size resp now (cache_mem s') x.
Proof.
  intros Hinv Hnow Hobj Hfuel.
  destruct (Z.le_gt_cases obj_size (remaining_cache_size s)) as [Hroom|Hfull].
  - destruct (write_to_cache_insert c u obj_size resp now ls s fuel Hinv Hroom)
      as (s' & x & Hrun & Hinv' & Hx).
    by exists s', x, ls.
  - eapply write_to_cache_evict; [done|done|exact Hinv|lia|done].
Qed.

(** C6. The accounting invariant - the response sizes of the live entries
    and [remaining_cache_size] add up to [MAX_CACHE_SIZE] - holds when
    [main] has initialised the cache, and every [write_to_cache] of an
    object of at most [MAX_OBJECT_SIZE] bytes returns and preserves it,
    on the path that adds a node as on the path that evicts nodes and
    overwrites the last victim. *)
Theorem write_to_cache_accounting :
  (∃ c s, main_init empty_proxy = Done (c, s) ∧ cache_inv c [] s)
  ∧ ∀ c ls s u obj_size resp now fuel,
      cache_inv c ls s → 0 < now → 0 ≤ obj_size ≤ MAX_OBJECT_SIZE →
      (length ls ≤ fuel)%nat →
      ∃ s' ls',
        write_to_cache fuel c u obj_size resp now s = Done (tt, s')
        ∧ cache_inv c ls' s'
        ∧ total_size (cache_mem s') ls' + remaining_cache_size s' = MAX_CACHE_SIZE.
Proof.
  split; [apply main_init_inv|].
  intros c ls s u obj_size resp now fuel Hinv Hnow Hobj Hfuel.
  destruct (write_to_cache_fills c ls s u obj_size resp now fuel)
    as (s' & x & ls' & Hrun & Hinv' & _); [done..|].
  exists s', (x :: ls'). split_and!; [done..|]. apply Hinv'.
Qed.

(** The cache after ten large responses: the nodes 2 to 11, the latest
    first, and 25,000 bytes left. *)
Lemma full_cache_inv :
  ∃ s, full_cache empty_proxy = Done (1%positive, s)
       ∧ cache_inv 1%positive [11; 10; 9; 8; 7; 6; 5; 4; 3; 2]%positive s
       ∧ remaining_cache_size s = 25000.
Proof.
  eexists. split; [by vm_compute|]. split; [|done].
  split; [done|]. split_and!.
  - apply (bool_decide_unpack _). by vm_compute.
  - eexists. split; [by vm_compute|]. split; [done|].
    repeat (split; [done|]; eexists; split; [by vm_compute|]; split; [done|]).
    done.
  - by vm_compute.
Qed.

Lemma write_to_cache_accounting_witness :
  ∃ s, full_cache empty_proxy = Done (1%positive, s)
    ∧ remaining_cache_size s < MAX_OBJECT_SIZE
    ∧ ∃ s' ls',
        write_to_cache 16 1%positive "w" MAX_OBJECT_SIZE [] 100 s = Done (tt, s')
        ∧ cache_inv 1%positive ls' s'
        ∧ total_size (cache_mem s') ls' + remaining_cache_size s' = MAX_CACHE_SIZE.
Proof.
  destruct full_cache_inv as (s & Hrun & Hinv & Hrem).
  exists s. split; [done|]. split; [by rewrite Hrem|].
  apply (proj2 write_to_cache_accounting 1%positive
           [11; 10; 9; 8; 7; 6; 5; 4; 3; 2]%positive s "w" MAX_OBJECT_SIZE [] 100 16%nat).
  - done.
  - lia.
  - unfold MAX_OBJECT_SIZE. lia.
  - cbn. lia.
Defined.

(** *** The relay and the cache *)

(** A response within the capacity is sent on to the client in full, and
    what [cached_object] gives is what the first node of the cache holds
    afterwards. *)
Lemma relay_response_inserts c ls s u reads now fuel :
  cache_inv c ls s → 0 < now → (length ls ≤ fuel)%nat →
  Forall (λ c, c ≠ []) reads →
  Z.of_nat (length (concat reads)) ≤ MAX_OBJECT_SIZE →
  ∃ s' x ls' e bs,
    relay_response fuel c u reads now s = Done (concat reads, s')
    ∧ cache_inv c (x :: ls') s'
    ∧ cached_object reads = Some bs
    ∧ cache_mem s' !! x = Some e ∧ url e = Some u
    ∧ response e = Some bs
    ∧ response_size e = Z.of_nat (length bs).
Proof.
  intros Hinv Hnow Hfuel Hne Hle.
  unfold relay_response, cached_object.
  destruct (relay_within_capacity reads Hne Hle) as (buf & sum & -> & Hsum & Hbuf & _).
  destruct (Z.leb_spec 0 (MAX_OBJECT_SIZE - Z.of_nat (length (concat reads))));
    [|lia].
  destruct (write_to_cache_fills c ls s u sum buf now fuel)
    as (s' & x & ls' & Hrun & Hinv' & e & He & Hu & Hr & Hsz & _); [done..|].
  exists s', x, ls', e, (take (Z.to_nat sum) buf).
  rewrite (bind_done _ _ _ _ _ Hrun).
  split_and!; [done..|].
  rewrite Hsz, length_take. lia.
Qed.

Lemma response_102400_length :
  Z.of_nat (length (concat response_102400)) = 102400.
Proof.
  unfold response_102400. rewrite concat_app, length_app.
  cbn [concat]. rewrite app_nil_r, length_replicate.
  cbn [replicate concat]. rewrite !length_app, !length_replicate. cbn [length]. lia.
Qed.

Lemma cached_object_102400 :
  ∃ bs, cached_object response_102400 = Some bs
      ∧ Z.of_nat (length bs) = 98304
      ∧ bs ≠ concat response_102400.
Proof.
  rewrite cached_object_cases.
  - rewrite response_102400_length. cbn [Z.ltb Z.eqb Z.compare Pos.compare
      Pos.compare_cont MAX_OBJECT_SIZE Pos.eqb].
    eexists. split; [done|].
    unfold response_102400. rewrite removelast_last.
    assert (Hlen : Z.of_nat (length (concat (replicate 12 (replicate (Z.to_nat 8192) 1))))
                   = 98304).
    { cbn [replicate concat]. rewrite !length_app, !length_replicate. cbn [length]. lia. }
    split; [done|].
    intros Heq. apply (f_equal (λ l, Z.of_nat (length l))) in Heq.
    change (Z.of_nat (length (concat (replicate 12 (replicate (Z.to_nat 8192) 1))))
            = Z.of_nat (length (concat response_102400))) in Heq.
    rewrite Hlen, response_102400_length in Heq. lia.
  - unfold response_102400. apply Forall_app. split.
    + apply Forall_replicate.
      intros Heq. apply (f_equal length) in Heq. rewrite length_replicate in Heq.
      cbn [length] in Heq. lia.
    + apply Forall_singleton.
      intros Heq. apply (f_equal length) in Heq. rewrite length_replicate in Heq.
      cbn [length] in Heq. lia.
Qed.



Lemma response_102400_reads : Forall (λ c : list Z, c ≠ []) response_102400.
Proof.
  unfold response_102400. apply Forall_app. split.
  - apply Forall_replicate.
    intros Heq. apply (f_equal length) in Heq. rewrite length_replicate in Heq.
    cbn [length] in Heq. lia.
  - apply Forall_singleton.
    intros Heq. apply (f_equal length) in Heq. rewrite length_replicate in Heq.
    cbn [length] in Heq. lia.
Qed.

(** C9. A response of exactly 102,400 bytes is relayed to the client in
    full and inserted into the cache without its last read: the entry
    made for it holds 98,304 bytes, those of the first twelve reads. *)
Theorem relay_truncates_102400 :
  Z.of_nat (length (concat response_102400)) = MAX_OBJECT_SIZE
  ∧ ∃ c s s' x e bs,
      main_init empty_proxy = Done (c, s)
      ∧ relay_response 4 c "u" response_102400 10 s
        = Done (concat response_102400, s')
      ∧ cache_mem s' !! x = Some e ∧ url e = Some "u"
      ∧ response e = Some bs
      ∧ response_size e = 98304 ∧ Z.of_nat (length bs) = 98304
      ∧ bs ≠ concat response_102400.
Proof.
  split; [apply response_102400_length|].
  destruct main_init_inv as (c & s & Hmain & Hinv).
  destruct cached_object_102400 as (bs & Hbs & Hlen & Hdiff).
  destruct (relay_response_inserts c [] s "u" response_102400 10 4 Hinv)
    as (s' & x & ls' & e & bs' & Hrun & _ & Hbs' & He & Hu & Hr & Hsz);
    [lia|cbn; lia|apply response_102400_reads| |].
  { rewrite response_102400_length. unfold MAX_OBJECT_SIZE. lia. }
  rewrite Hbs in Hbs'. injection Hbs' as <-.
  exists c, s, s', x, e, bs.
  split_and!; [exact Hmain|exact Hrun|exact He|exact Hu|exact Hr|lia|exact Hlen|exact Hdiff].
Qed.

(** *** Lookups *)

(** C3. On a cache that holds "b" (last access 5) in front of "a" (last
    access 3), [find_LRU] returns the entry "b": the first node after the
    sentinel, not the one with the smallest timestamp. *)
Theorem find_LRU_returns_first_entry :
  eval find_LRU_scenario empty_proxy
  = Some (("b", 5), [("b", 5); ("a", 3)]).
Proof. by vm_compute. Qed.

(** On every well-formed cache [find_LRU] returns the first node of the
    list, the entry written last. *)
Lemma find_LRU_is_front c x ls s fuel now :
  cache_inv c (x :: ls) s → 0 < now → (length (x :: ls) ≤ fuel)%nat →
  find_LRU fuel c now s = Done (x, s).
Proof.
  intros [_ (_ & (hd & Hc & Hla & Hl) & _)] Hnow Hfuel.
  apply (find_LRU_head _ _ hd x ls); [done|lia|done..].
Qed.

(** C4. A lookup at time 10 sets [last_access] to 10 on every entry it
    passes: on a hit for "a" also the entry "b" in front of it is
    stamped, and a miss stamps all entries. *)
Theorem search_cache_stamps_passed_entries :
  eval (lookup_scenario "a") empty_proxy
  = Some (true, [("b", 5); ("a", 3)], [("b", 10); ("a", 10)], 3%nat, 4%nat)
  ∧ eval (lookup_scenario "c") empty_proxy
    = Some (false, [("b", 5); ("a", 3)], [("b", 10); ("a", 10)], 3%nat, 4%nat).
Proof. split; by vm_compute. Qed.

Section allocation.
Implicit Types (s : proxy) (p : loc).

Lemma P_inv sem set s r s' :
  P sem set s = Done (r, s') → s' = set (sem s - 1) s.
Proof. unfold P. destruct (0 <? sem s); [|done]. by intros [= _ <-]. Qed.

Lemma V_inv sem set s r s' :
  V sem set s = Done (r, s') → s' = set (sem s + 1) s.
Proof. unfold V. by intros [= _ <-]. Qed.

Lemma assign_dom s p f r s' :
  assign p f s = Done (r, s') → dom (cache_mem s') = dom (cache_mem s).
Proof.
  intros (e & He & ->)%assign_inv. cbn. rewrite dom_insert_L.
  apply elem_of_dom_2 in He. set_solver.
Qed.

Lemma reader_exit_mem s r s' :
  reader_exit s = Done (r, s') → cache_mem s' = cache_mem s.
Proof.
  unfold reader_exit.
  intros (? & s1 & ->%P_inv & H)%bind_inv.
  apply bind_inv in H as (? & s2 & [= _ <-] & H).
  apply bind_inv in H as (rc & s3 & [= <- <-] & H).
  apply bind_inv in H as (? & s4 & H4 & ->%V_inv).
  destruct (_ =? 0).
  - by apply V_inv in H4 as ->.
  - by injection H4 as _ <-.
Qed.

Lemma search_loop_dom fuel :
  ∀ (q : option loc) u now s r s',
    search_loop fuel q u now s = Done (r, s') →
    dom (cache_mem s') = dom (cache_mem s).
Proof.
  induction fuel as [|fuel IH]; intros [p|] u now s r s'; cbn [search_loop].
  - done.
  - intros (? & s1 & H1%reader_exit_mem & [= _ <-])%bind_inv. by rewrite H1.
  - intros (e & s1 & [He ->]%deref_inv & H)%bind_inv.
    destruct (url e) as [v|]; [|done].
    destruct (String.eqb u v).
    + apply bind_inv in H as (? & s2 & ->%P_inv & H).
      apply bind_inv in H as (? & s3 & H3%assign_dom & H).
      apply bind_inv in H as (? & s4 & ->%V_inv & H).
      apply bind_inv in H as (? & s5 & H5%reader_exit_mem & [= _ <-]).
      by rewrite H5.
    + apply bind_inv in H as (? & s2 & H2%assign_dom & H).
      apply bind_inv in H as (e2 & s3 & [_ ->]%deref_inv & H).
      apply IH in H. by rewrite H.
  - intros (? & s1 & H1%reader_exit_mem & [= _ <-])%bind_inv. by rewrite H1.
Qed.

(** C5. Every lookup that returns - hit or miss - leaves one more [Cache]
    node allocated than it found: the node that [search_cache] allocates
    on entry is never freed. *)
Theorem search_cache_allocates fuel c u now s r s' :
  search_cache fuel c u now s = Done (r, s') →
  dom (cache_mem s') = {[fresh (dom (cache_mem s))]} ∪ dom (cache_mem s)
  ∧ size (cache_mem s') = S (size (cache_mem s)).
Proof.
  unfold search_cache.
  intros (? & s1 & [= _ <-] & H)%bind_inv.
  apply bind_inv in H as (? & s2 & ->%P_inv & H).
  apply bind_inv in H as (? & s3 & [= _ <-] & H).
  apply bind_inv in H as (rc & s4 & [= <- <-] & H).
  apply bind_inv in H as (? & s5 & H5 & H).
  apply bind_inv in H as (? & s6 & ->%V_inv & H).
  apply bind_inv in H as (hd & s7 & [_ ->]%deref_inv & H).
  apply search_loop_dom in H.
  assert (cache_mem s5 = <[fresh (dom (cache_mem s)) := uninitialised]> (cache_mem s))
    as Hmem.
  { destruct (_ =? 1).
    - by apply P_inv in H5 as ->.
    - by injection H5 as _ <-. }
  cbn in H. rewrite Hmem in H.
  assert (cache_mem s !! fresh (dom (cache_mem s)) = None) as Hfresh.
  { apply not_elem_of_dom, is_fresh. }
  split.
  - by rewrite H, dom_insert_L.
  - rewrite <- !size_dom, H, dom_insert_L.
    rewrite size_union, size_singleton by (apply not_elem_of_dom in Hfresh; set_solver).
    done.
Qed.

Lemma search_cache_allocates_witness :
  ∃ c s r s',
    two_entries empty_proxy = Done (c, s)
    ∧ search_cache 4 c "a" 10 s = Done (r, s')
    ∧ size (cache_mem s') = S (size (cache_mem s)).
Proof.
  eexists _, _, _, _. split; [by vm_compute|].
  split; [by vm_compute|].
  eapply proj2, (search_cache_allocates 4 1%positive "a" 10). by vm_compute.
Defined.

End allocation.

(** *** Lookups *)

Section lookup.
Variables (u : string) (now rem : Z).
Implicit Types (m : gmap loc Cache) (ls : list loc) (x pv : loc).

(** The loop of [search_cache] on a list whose first entry for [u] is
    [x]: every entry up to and including [x] is stamped with the current
    time, [x] is returned, and the reader leaves. *)
Lemma search_loop_hit l1 x l2 :
  ∀ m pv p fuel,
    dlist m pv p (l1 ++ x :: l2) → NoDup (l1 ++ x :: l2) →
    (∀ y, y ∈ l1 → ∃ e v, m !! y = Some e ∧ url e = Some v ∧ v ≠ u) →
    (∃ e, m !! x = Some e ∧ url e = Some u) →
    (length l1 < fuel)%nat →
    ∃ m',
      search_loop fuel p u now (mkProxy m rem 1 1 1 0)
      = Done (Some x, mkProxy m' rem 0 1 1 1)
      ∧ dom m' = dom m
      ∧ (∀ y, y ∈ l1 ++ [x] → m' !! y = set_last_access now <$> m !! y)
      ∧ (∀ y, y ∉ l1 ++ [x] → m' !! y = m !! y).
Proof.
  induction l1 as [|z l1 IH]; intros m pv p fuel Hl Hnd Hurls Hx Hfuel.
  - destruct Hl as (-> & e & He & _ & _). destruct Hx as (e' & He' & Hu).
    rewrite He in He'. injection He' as <-.
    destruct fuel as [|fuel]; [cbn in Hfuel; lia|].
    eexists. split_and!.
    + cbn [search_loop]. prun1. rewrite Hu, String.eqb_refl.
      do 3 prun1. unfold reader_exit. repeat prun1. reflexivity.
    + flat. rewrite dom_insert_L. apply elem_of_dom_2 in He. set_solver.
    + intros y Hy. flat. assert (y = x) as -> by set_solver.
      by rewrite lookup_insert_eq, He.
    + intros y Hy. flat. rewrite lookup_insert_ne by set_solver. done.
  - destruct Hl as (-> & e & He & _ & Hl).
    destruct (Hurls z) as (e' & v & He' & Hv & Hne); [set_solver|].
    rewrite He in He'. injection He' as <-.
    destruct fuel as [|fuel]; [cbn in Hfuel; lia|].
    cbn [app] in Hnd. apply NoDup_cons in Hnd as [Hz Hnd].
    destruct (IH (<[z := set_last_access now e]> m) z (next e) fuel)
      as (m' & Hrun & Hdom & Hin & Hout).
    { apply (dlist_unchanged m); [done|]. intros y Hy.
      rewrite lookup_insert_ne; [done|set_solver]. }
    { done. }
    { intros y Hy. destruct (Hurls y) as (ey & vy & ? & ? & ?); [set_solver|].
      exists ey, vy. rewrite lookup_insert_ne; [done|set_solver]. }
    { destruct Hx as (ex & ? & ?). exists ex.
      rewrite lookup_insert_ne; [done|set_solver]. }
    { cbn in Hfuel. lia. }
    exists m'. split_and!.
    + cbn [search_loop]. prun1. rewrite Hv.
      destruct (String.eqb_spec u v) as [->|_]; [done|].
      do 2 prun1. cbn [next set_last_access]. exact Hrun.
    + rewrite Hdom, dom_insert_L. apply elem_of_dom_2 in He. set_solver.
    + intros y [->|Hy]%elem_of_cons.
      * rewrite Hout by set_solver. by rewrite lookup_insert_eq, He.
      * rewrite Hin by done. rewrite lookup_insert_ne; [done|set_solver].
    + intros y Hy. rewrite Hout by set_solver.
      rewrite lookup_insert_ne; [done|set_solver].
Qed.

(** The loop on a list without an entry for [u]: every entry is stamped
    and the null pointer is returned. *)
Lemma search_loop_miss ls :
  ∀ m pv p fuel,
    dlist m pv p ls → NoDup ls →
    (∀ y, y ∈ ls → ∃ e v, m !! y = Some e ∧ url e = Some v ∧ v ≠ u) →
    (length ls ≤ fuel)%nat →
    ∃ m',
      search_loop fuel p u now (mkProxy m rem 1 1 1 0)
      = Done (None, mkProxy m' rem 0 1 1 1)
      ∧ dom m' = dom m
      ∧ (∀ y, y ∈ ls → m' !! y = set_last_access now <$> m !! y)
      ∧ (∀ y, y ∉ ls → m' !! y = m !! y).
Proof.
  induction ls as [|z ls IH]; intros m pv p fuel Hl Hnd Hurls Hfuel.
  - cbn in Hl. subst p. exists m. split_and!; [|done|set_solver|done].
    destruct fuel; cbn [search_loop]; unfold reader_exit; repeat prun1; reflexivity.
  - destruct Hl as (-> & e & He & _ & Hl).
    destruct (Hurls z) as (e' & v & He' & Hv & Hne); [set_solver|].
    rewrite He in He'. injection He' as <-.
    destruct fuel as [|fuel]; [cbn in Hfuel; lia|].
    apply NoDup_cons in Hnd as [Hz Hnd].
    destruct (IH (<[z := set_last_access now e]> m) z (next e) fuel)
      as (m' & Hrun & Hdom & Hin & Hout).
    { apply (dlist_unchanged m); [done|]. intros y Hy.
      rewrite lookup_insert_ne; [done|set_solver]. }
    { done. }
    { intros y Hy. destruct (Hurls y) as (ey & vy & ? & ? & ?); [set_solver|].
      exists ey, vy. rewrite lookup_insert_ne; [done|set_solver]. }
    { cbn in Hfuel. lia. }
    exists m'. split_and!.
    + cbn [search_loop]. prun1. rewrite Hv.
      destruct (String.eqb_spec u v) as [->|_]; [done|].
      do 2 prun1. cbn [next set_last_access]. exact Hrun.
    + rewrite Hdom, dom_insert_L. apply elem_of_dom_2 in He. set_solver.
    + intros y [->|Hy]%elem_of_cons.
      * rewrite Hout by set_solver. by rewrite lookup_insert_eq, He.
      * rewrite Hin by done. rewrite lookup_insert_ne; [done|set_solver].
    + intros y Hy. rewrite Hout by set_solver.
      rewrite lookup_insert_ne; [done|set_solver].
Qed.
End lookup.
(** A node that is not on the list can be added to the store without
    touching the list. *)
Lemma cache_ok_alloc c ls m rem new e :
  cache_ok c ls m rem → m !! new = None → cache_ok c ls (<[new := e]> m) rem.
Proof.
  intros (Hnd & (hd & Hc & Hla & Hl) & Hacc) Hnew.
  assert (new ≠ c) by congruence.
  assert (∀ y, y ∈ ls → y ≠ new) as Hne.
  { intros y Hy Heq. subst y. destruct (dlist_allocated _ _ _ _ Hl new Hy). congruence. }
  split_and!; [done| |].
  - exists hd. rewrite lookup_insert_ne by done. split_and!; [done..|].
    apply (dlist_unchanged m); [done|]. intros y Hy.
    rewrite lookup_insert_ne; [done|]. intros Heq. by apply (Hne y Hy).
  - rewrite (total_size_unchanged m); [done|]. intros y Hy.
    rewrite lookup_insert_ne; [done|]. intros Heq. by apply (Hne y Hy).
Qed.

(** Stamping entries of the list keeps the list and the accounting. *)
Lemma cache_ok_stamped c ls m m' rem now :
  cache_ok c ls m rem →
  (∀ y, y ∈ ls → m' !! y = m !! y ∨ m' !! y = set_last_access now <$> m !! y) →
  m' !! c = m !! c →
  cache_ok c ls m' rem.
Proof.
  intros (Hnd & (hd & Hc & Hla & Hl) & Hacc) Hls Hc'.
  split_and!; [done| |].
  - exists hd. rewrite Hc'. split_and!; [done..|].
    apply (dlist_links m); [done|]. intros y e Hy He.
    destruct (Hls y Hy) as [->| ->]; rewrite He; eauto.
  - rewrite (total_size_unchanged m); [done|]. intros y Hy.
    destruct (Hls y Hy) as [->| ->]; [done|]. by destruct (m !! y).
Qed.

(** [search_cache] up to the loop: a node is allocated and dropped, and
    the first reader locks out the writers. *)
Lemma search_cache_enter fuel c u now m rem hd :
  m !! c = Some hd →
  search_cache fuel c u now (mkProxy m rem 0 1 1 1)
  = search_loop fuel (next hd) u now
      (mkProxy (<[fresh (dom m) := uninitialised]> m) rem 1 1 1 0).
Proof.
  intros Hc. unfold search_cache.
  assert (fresh (dom m) ≠ c) as Hne.
  { intros Heq. apply elem_of_dom_2 in Hc. rewrite <- Heq in Hc.
    by apply is_fresh in Hc. }
  repeat prun1. change (1 =? 1) with true. cbv iota. repeat prun1.
  change (0 + 1) with 1. done.
Qed.
Lemma search_cache_hit c l1 x l2 s u now fuel :
  cache_inv c (l1 ++ x :: l2) s →
  (∀ y, y ∈ l1 → ∃ e v, cache_mem s !! y = Some e ∧ url e = Some v ∧ v ≠ u) →
  (∃ e, cache_mem s !! x = Some e ∧ url e = Some u) →
  (length l1 < fuel)%nat →
  ∃ s',
    search_cache fuel c u now s = Done (Some x, s')
    ∧ cache_inv c (l1 ++ x :: l2) s'
    ∧ cache_mem s' !! x = set_last_access now <$> cache_mem s !! x
    ∧ (∀ y, y ∈ l2 → cache_mem s' !! y = cache_mem s !! y).
Proof.
  destruct s as [m rem rc cm lm wm].
  intros [(Hrc & Hcm & Hlm & Hwm) Hok] Hurls Hx Hfuel.
  cbn in Hrc, Hcm, Hlm, Hwm, Hok, Hurls, Hx. subst rc cm lm wm.
  pose proof Hok as (Hnd & (hd & Hc & Hla & Hl) & Hacc).
  set (new := fresh (dom m)).
  assert (m !! new = None) as Hnew by (apply not_elem_of_dom, is_fresh).
  assert (∀ y, y ∈ c :: l1 ++ x :: l2 → y ≠ new) as Hne.
  { intros y [->|Hy]%elem_of_cons Heq; subst; [congruence|].
    destruct (dlist_allocated _ _ _ _ Hl new Hy). congruence. }
  pose proof (cache_ok_alloc c _ m rem new uninitialised Hok Hnew) as Hok0.
  apply NoDup_cons in Hnd as [Hc_notin Hnd].
  destruct Hok0 as (_ & (hd0 & Hc0 & _ & Hl0) & _).
  rewrite lookup_insert_ne in Hc0 by (intros Heq; apply (Hne c); [set_solver|done]).
  rewrite Hc in Hc0. injection Hc0 as <-.
  destruct (search_loop_hit u now rem l1 x l2 (<[new := uninitialised]> m) c (next hd) fuel)
    as (m' & Hrun & Hdom & Hin & Hout); [done|done| | |done|].
  { intros y Hy. destruct (Hurls y Hy) as (e & v & ? & ? & ?). exists e, v.
    rewrite lookup_insert_ne; [done|]. intros Heq. apply (Hne y); [set_solver|done]. }
  { destruct Hx as (e & ? & ?). exists e.
    rewrite lookup_insert_ne; [done|]. intros Heq. apply (Hne x); [set_solver|done]. }
  exists (mkProxy m' rem 0 1 1 1). split_and!.
  - by rewrite (search_cache_enter fuel c u now m rem hd).
  - split; [done|]. cbn [cache_mem remaining_cache_size].
    apply (cache_ok_stamped c _ m m' rem now); [done| |].
    + intros y Hy. assert (y ≠ new) by (apply Hne; set_solver).
      destruct (decide (y ∈ l1 ++ [x])) as [Hyin|Hyout].
      * right. rewrite Hin by done. by rewrite lookup_insert_ne.
      * left. rewrite Hout by done. by rewrite lookup_insert_ne.
    + rewrite Hout by set_solver. rewrite lookup_insert_ne; [done|].
      intros Heq. apply (Hne c); [set_solver|done].
  - cbn [cache_mem]. rewrite Hin by set_solver. rewrite lookup_insert_ne; [done|].
    intros Heq. apply (Hne x); [set_solver|done].
  - intros y Hy. cbn [cache_mem].
    assert (y ∉ l1 ++ [x]) as Hyout.
    { apply NoDup_app in Hnd as (_ & Hdisj & [Hx_notin _]%NoDup_cons).
      intros [Hy1| ->%list_elem_of_singleton]%elem_of_app; [|done].
      apply (Hdisj y Hy1). set_solver. }
    rewrite Hout by done. rewrite lookup_insert_ne; [done|].
    intros Heq. apply (Hne y); [set_solver|done].
Qed.

(** X12. [search_cache] returns the first entry of the list that holds the
    url, stamps it with the current time, and leaves the cache
    consistent with all semaphores released; the entries behind the match
    are not touched. *)
Theorem search_cache_returns_first_match c l1 x l2 s u now fuel :
  cache_inv c (l1 ++ x :: l2) s →
  (∀ y, y ∈ l1 → ∃ e v, cache_mem s !! y = Some e ∧ url e = Some v ∧ v ≠ u) →
  (∃ e, cache_mem s !! x = Some e ∧ url e = Some u) →
  (length l1 < fuel)%nat →
  ∃ s',
    search_cache fuel c u now s = Done (Some x, s')
    ∧ cache_inv c (l1 ++ x :: l2) s'
    ∧ cache_mem s' !! x = set_last_access now <$> cache_mem s !! x
    ∧ (∀ y, y ∈ l2 → cache_mem s' !! y = cache_mem s !! y).
Proof. apply search_cache_hit. Qed.

Lemma search_cache_none c ls s u now fuel :
  cache_inv c ls s →
  (∀ y, y ∈ ls → ∃ e v, cache_mem s !! y = Some e ∧ url e = Some v ∧ v ≠ u) →
  (length ls ≤ fuel)%nat →
  ∃ s', search_cache fuel c u now s = Done (None, s') ∧ cache_inv c ls s'.
Proof.
  destruct s as [m rem rc cm lm wm].
  intros [(Hrc & Hcm & Hlm & Hwm) Hok] Hurls Hfuel.
  cbn in Hrc, Hcm, Hlm, Hwm, Hok, Hurls. subst rc cm lm wm.
  pose proof Hok as (Hnd & (hd & Hc & Hla & Hl) & Hacc).
  set (new := fresh (dom m)).
  assert (m !! new = None) as Hnew by (apply not_elem_of_dom, is_fresh).
  assert (∀ y, y ∈ c :: ls → y ≠ new) as Hne.
  { intros y [->|Hy]%elem_of_cons Heq; subst; [congruence|].
    destruct (dlist_allocated _ _ _ _ Hl new Hy). congruence. }
  pose proof (cache_ok_alloc c _ m rem new uninitialised Hok Hnew) as Hok0.
  apply NoDup_cons in Hnd as [Hc_notin Hnd].
  destruct Hok0 as (_ & (hd0 & Hc0 & _ & Hl0) & _).
  rewrite lookup_insert_ne in Hc0 by (intros Heq; apply (Hne c); [set_solver|done]).
  rewrite Hc in Hc0. injection Hc0 as <-.
  destruct (search_loop_miss u now rem ls (<[new := uninitialised]> m) c (next hd) fuel)
    as (m' & Hrun & Hdom & Hin & Hout); [done|done| |done|].
  { intros y Hy. destruct (Hurls y Hy) as (e & v & ? & ? & ?). exists e, v.
    rewrite lookup_insert_ne; [done|]. intros Heq. apply (Hne y); [set_solver|done]. }
  exists (mkProxy m' rem 0 1 1 1). split.
  - by rewrite (search_cache_enter fuel c u now m rem hd).
  - split; [done|]. cbn [cache_mem remaining_cache_size].
    apply (cache_ok_stamped c _ m m' rem now); [done| |].
    + intros y Hy. assert (y ≠ new) by (apply Hne; set_solver).
      right. rewrite Hin by done. by rewrite lookup_insert_ne.
    + rewrite Hout by set_solver. rewrite lookup_insert_ne; [done|].
      intros Heq. apply (Hne c); [set_solver|done].
Qed.

(** X13. A lookup of a url that no entry holds returns the null pointer and
    leaves the cache consistent with all semaphores released. *)
Theorem search_cache_miss c ls s u now fuel :
  cache_inv c ls s →
  (∀ y, y ∈ ls → ∃ e v, cache_mem s !! y = Some e ∧ url e = Some v ∧ v ≠ u) →
  (length ls ≤ fuel)%nat →
  ∃ s', search_cache fuel c u now s = Done (None, s') ∧ cache_inv c ls s'.
Proof. apply search_cache_none. Qed.

(** X14. What [write_to_cache] stored is what [search_cache] finds: a lookup
    of the url right after the insertion returns the node that holds the
    object. *)
Theorem write_then_search_hits c ls s u obj_size resp now now' fuel fuel' :
  cache_inv c ls s → 0 < now → 0 ≤ obj_size ≤ MAX_OBJECT_SIZE →
  (length ls ≤ fuel)%nat → (1 ≤ fuel')%nat →
  ∃ s1 x s2 e,
    write_to_cache fuel c u obj_size resp now s = Done (tt, s1)
    ∧ search_cache fuel' c u now' s1 = Done (Some x, s2)
    ∧ cache_mem s2 !! x = Some e
    ∧ url e = Some u
    ∧ response e = Some (take (Z.to_nat obj_size) resp)
    ∧ response_size e = obj_size
    ∧ last_access e = now'.
Proof.
  intros Hinv Hnow Hobj Hfuel Hfuel'.
  destruct (write_to_cache_fills c ls s u obj_size resp now fuel)
    as (s1 & x & ls' & Hrun & Hinv1 & e & He & Hu & Hr & Hsz & _); [done..|].
  destruct (search_cache_hit c [] x ls' s1 u now' fuel')
    as (s2 & Hrun2 & _ & Hx & _); [done|set_solver|by exists e|cbn; lia|].
  exists s1, x, s2, (set_last_access now' e).
  rewrite Hx, He. split_and!; done.
Qed.
(** *** The relay and the cache, by the length of the response *)

(** X15. A response of fewer than [MAX_OBJECT_SIZE] bytes is passed on to the
    client and cached whole. *)
Theorem relay_response_caches_short c ls s u reads now fuel :
  cache_inv c ls s → 0 < now → (length ls ≤ fuel)%nat →
  Forall (λ chunk, chunk ≠ []) reads →
  Z.of_nat (length (concat reads)) < MAX_OBJECT_SIZE →
  ∃ s' x ls' e,
    relay_response fuel c u reads now s = Done (concat reads, s')
    ∧ cache_inv c (x :: ls') s'
    ∧ cache_mem s' !! x = Some e ∧ url e = Some u
    ∧ response e = Some (concat reads)
    ∧ response_size e = Z.of_nat (length (concat reads)).
Proof.
  intros Hinv Hnow Hfuel Hne Hlt.
  destruct (relay_response_inserts c ls s u reads now fuel)
    as (s' & x & ls' & e & bs & Hrun & Hinv' & Hbs & He & Hu & Hr & Hsz);
    [done..|lia|].
  rewrite cached_object_cases in Hbs by done.
  destruct (Z.ltb_spec (Z.of_nat (length (concat reads))) MAX_OBJECT_SIZE); [|lia].
  injection Hbs as <-.
  exists s', x, ls', e. done.
Qed.


(** *** Objects larger than the cache *)

(** X17. On an empty cache, [write_to_cache] of an object that is larger than
    the room left takes the sentinel for the entry to evict and follows
    its null [prev] pointer. *)
Theorem write_to_cache_oversize_faults c s hd u obj_size resp now fuel :
  idle s → cache_mem s !! c = Some hd →
  next hd = None → prev hd = None → response_size hd = 0 →
  remaining_cache_size s < obj_size → (1 ≤ fuel)%nat →
  write_to_cache fuel c u obj_size resp now s = Fault.
Proof.
  destruct s as [m rem rc cm lm wm].
  intros (Hrc & Hcm & Hlm & Hwm) Hc Hnext Hprev Hsz Hbig Hfuel.
  cbn in Hrc, Hcm, Hlm, Hwm, Hc, Hbig. subst rc cm lm wm.
  destruct fuel as [|fuel]; [lia|].
  unfold write_to_cache. do 2 prun1.
  destruct (Z.leb_spec obj_size rem) as [Hle|_]; [lia|].
  prun1. unfold find_LRU at 1. repeat prun1. rewrite Hnext.
  cbn [find_LRU_loop]. repeat prun1.
  cbn [evict_loop]. repeat prun1. rewrite Hsz.
  destruct (Z.ltb_spec (0 + rem) obj_size); [|lia].
  repeat prun1. unfold delete_cache_entry at 1. repeat prun1.
  rewrite Hnext, Hprev. done.
Qed.
(** *** Eviction *)

Section eviction.
Variables (rem rc cm lm wm : Z).

End eviction.
Lemma same_object_refl e : same_object e e.
Proof. done. Qed.


Section eviction_order.
Variables (c : loc) (u : string) (obj_size : Z) (resp : list Z) (now : Z).


End eviction_order.
(** *** The scenarios *)

(** The cache after the responses for "a" and "b": the sentinel is node 1,
    "b" is in node 3 at the front and "a" in node 2 behind it. *)
Lemma two_entries_inv :
  ∃ s, two_entries empty_proxy = Done (1%positive, s)
       ∧ cache_inv 1%positive [3; 2]%positive s
       ∧ (∃ e, cache_mem s !! 3%positive = Some e ∧ url e = Some "b")
       ∧ (∃ e, cache_mem s !! 2%positive = Some e ∧ url e = Some "a").
Proof.
  eexists. split; [by vm_compute|]. split_and!.
  - split; [done|]. split_and!.
    + apply (bool_decide_unpack _). by vm_compute.
    + eexists. split; [by vm_compute|]. split; [done|].
      repeat (split; [done|]; eexists; split; [by vm_compute|]; split; [done|]).
      done.
    + by vm_compute.
  - eexists. split; [by vm_compute|]. done.
  - eexists. split; [by vm_compute|]. done.
Qed.

Lemma search_cache_returns_first_match_witness :
  ∃ s s', two_entries empty_proxy = Done (1%positive, s)
    ∧ search_cache 4 1%positive "a" 10 s = Done (Some 2%positive, s')
    ∧ cache_inv 1%positive [3; 2]%positive s'.
Proof.
  destruct two_entries_inv as (s & Hrun & Hinv & (eb & Hb & Hub) & Ha).
  destruct (search_cache_returns_first_match 1%positive [3%positive] 2%positive []
              s "a" 10 4%nat) as (s' & Hs & Hinv' & _).
  - exact Hinv.
  - intros y Hy. apply list_elem_of_singleton in Hy as ->.
    exists eb, "b". split; [done|]. split; [done|]. discriminate.
  - exact Ha.
  - cbn. lia.
  - exists s, s'. split; [done|]. split; [done|]. exact Hinv'.
Defined.

Lemma search_cache_miss_witness :
  ∃ s s', two_entries empty_proxy = Done (1%positive, s)
    ∧ search_cache 4 1%positive "c" 10 s = Done (None, s')
    ∧ cache_inv 1%positive [3; 2]%positive s'.
Proof.
  destruct two_entries_inv as (s & Hrun & Hinv & (eb & Hb & Hub) & (ea & Ha & Hua)).
  destruct (search_cache_miss 1%positive [3; 2]%positive s "c" 10 4%nat)
    as (s' & Hs & Hinv').
  - exact Hinv.
  - intros y Hy. apply elem_of_cons in Hy as [->|Hy].
    + exists eb, "b". split; [done|]. split; [done|]. discriminate.
    + apply list_elem_of_singleton in Hy as ->.
      exists ea, "a". split; [done|]. split; [done|]. discriminate.
  - cbn. lia.
  - exists s, s'. split; [done|]. split; [done|]. exact Hinv'.
Defined.

Lemma write_then_search_hits_witness :
  ∃ c s s1 x s2 e,
    main_init empty_proxy = Done (c, s)
    ∧ write_to_cache 1 c "a" 3 [1; 2; 3; 4] 5 s = Done (tt, s1)
    ∧ search_cache 1 c "a" 9 s1 = Done (Some x, s2)
    ∧ cache_mem s2 !! x = Some e
    ∧ response e = Some [1; 2; 3]
    ∧ last_access e = 9.
Proof.
  destruct main_init_inv as (c & s & Hrun & Hinv).
  destruct (write_then_search_hits c [] s "a" 3 [1; 2; 3; 4] 5 9 1%nat 1%nat)
    as (s1 & x & s2 & e & Hw & Hs & He & _ & Hr & _ & Hl).
  - exact Hinv.
  - lia.
  - unfold MAX_OBJECT_SIZE. lia.
  - cbn. lia.
  - lia.
  - exists c, s, s1, x, s2, e. split_and!; [exact Hrun|exact Hw|exact Hs|exact He|exact Hr|exact Hl].
Defined.

Lemma relay_response_caches_short_witness :
  ∃ c s s' x e,
    main_init empty_proxy = Done (c, s)
    ∧ relay_response 1 c "a" [[1; 2]; [3]] 5 s = Done ([1; 2; 3], s')
    ∧ cache_mem s' !! x = Some e
    ∧ response e = Some [1; 2; 3].
Proof.
  destruct main_init_inv as (c & s & Hrun & Hinv).
  destruct (relay_response_caches_short c [] s "a" [[1; 2]; [3]] 5 1%nat)
    as (s' & x & ls' & e & Hr & _ & He & _ & Hresp & _).
  - exact Hinv.
  - lia.
  - cbn. lia.
  - repeat constructor; discriminate.
  - unfold MAX_OBJECT_SIZE. cbn. lia.
  - exists c, s, s', x, e. split_and!; [exact Hrun|exact Hr|exact He|exact Hresp].
Defined.


Lemma write_to_cache_oversize_faults_witness :
  ∃ c s, main_init empty_proxy = Done (c, s)
    ∧ write_to_cache 1 c "a" (MAX_CACHE_SIZE + 1) [] 5 s = Fault.
Proof.
  eexists _, _. split; [vm_compute; reflexivity|].
  eapply write_to_cache_oversize_faults.
  - done.
  - vm_compute. reflexivity.
  - reflexivity.
  - reflexivity.
  - reflexivity.
  - vm_compute. reflexivity.
  - lia.
Defined.

(** ** The request handling *)

Lemma app_cons a s r : String a s +:+ r = String a (s +:+ r).
Proof. done. Qed.
Lemma app_nil_l r : "" +:+ r = r.
Proof. done. Qed.

Lemma chars_app s r :
  String.list_ascii_of_string (s +:+ r)
  = String.list_ascii_of_string s ++ String.list_ascii_of_string r.
Proof. induction s as [|a s IH]; [done|]. rewrite app_cons. cbn. by rewrite IH. Qed.

Lemma chars_length s : length (String.list_ascii_of_string s) = String.length s.
Proof. induction s as [|a s IH]; [done|]. cbn. by rewrite IH. Qed.

Lemma str_from_app s r : str_from (String.length s) (s +:+ r) = r.
Proof. induction s as [|a s IH]; [by destruct r|]. rewrite app_cons. cbn. done. Qed.

Lemma strcasecmp_eq_length s t :
  strcasecmp_eq s t = true → String.length s = String.length t.
Proof.
  revert t. induction s as [|a s IH]; intros [|b t] H; try done.
  cbn in H. apply andb_true_iff in H as [_ H]. cbn. f_equal. by apply IH.
Qed.

Lemma strncasecmp_eq_app s t r :
  strcasecmp_eq s t = true →
  strncasecmp_eq (s +:+ r) t (String.length t) = true.
Proof.
  revert t. induction s as [|a s IH]; intros [|b t] H; try discriminate.
  - reflexivity.
  - cbn in H. apply andb_true_iff in H as [Hab H]. rewrite app_cons. cbn.
    rewrite Hab. cbn. by apply IH.
Qed.

Lemma strpbrk_none h acc :
  Forall (λ a, a ∉ String.list_ascii_of_string acc) (String.list_ascii_of_string h) →
  strpbrk h acc = None.
Proof.
  induction h as [|a h IH]; [done|]. cbn. intros [Ha Hh]%Forall_cons.
  destruct (existsb _ _) eqn:E.
  - apply existsb_exists in E as (b & Hb & Hab).
    apply Ascii.eqb_eq in Hab as ->. destruct Ha. by apply list_elem_of_In.
  - by rewrite IH.
Qed.

Lemma strpbrk_app h d r acc :
  Forall (λ a, a ∉ String.list_ascii_of_string acc) (String.list_ascii_of_string h) →
  d ∈ String.list_ascii_of_string acc →
  strpbrk (h +:+ String d r) acc = Some (String.length h).
Proof.
  intros Hh Hd. induction h as [|a h IH].
  - rewrite app_nil_l. cbn. assert (existsb (Ascii.eqb d) (String.list_ascii_of_string acc) = true) as ->; [|done].
    apply existsb_exists. exists d. split; [by apply list_elem_of_In|apply Ascii.eqb_refl].
  - rewrite app_cons. cbn in Hh |- *. apply Forall_cons in Hh as [Ha Hh].
    destruct (existsb _ _) eqn:E.
    + apply existsb_exists in E as (b & Hb & Hab).
      apply Ascii.eqb_eq in Hab as ->. destruct Ha. by apply list_elem_of_In.
    + by rewrite IH.
Qed.

Lemma strchr_none h c :
  c ∉ String.list_ascii_of_string h → strchr h c = None.
Proof.
  induction h as [|a h IH]; [done|]. cbn. intros Hc.
  destruct (Ascii.eqb_spec a c) as [->|Hne]; [destruct Hc; left|].
  rewrite IH; [done|]. intros ?. apply Hc. by right.
Qed.

Lemma strchr_app h c r :
  c ∉ String.list_ascii_of_string h →
  strchr (h +:+ String c r) c = Some (String.length h).
Proof.
  induction h as [|a h IH]; intros Hc.
  - rewrite app_nil_l. cbn. by rewrite Ascii.eqb_refl.
  - rewrite app_cons. cbn in Hc |- *.
    destruct (Ascii.eqb_spec a c) as [->|Hne]; [destruct Hc; left|].
    rewrite IH; [done|]. intros ?. apply Hc. by right.
Qed.

Lemma get_app h d r : String.get (String.length h) (h +:+ String d r) = Some d.
Proof. induction h as [|a h IH]; [done|]. rewrite app_cons. cbn. done. Qed.

Lemma strncpy_app dst h r :
  strncpy dst (h +:+ r) (String.length h)
  = char_store dst 0 (String.list_ascii_of_string h).
Proof.
  unfold strncpy. rewrite chars_app, take_app_length' by (symmetry; apply chars_length).
  rewrite length_app, chars_length.
  replace (String.length h - _)%nat with 0%nat by lia. cbn. by rewrite app_nil_r.
Qed.

Lemma host_name_delims h :
  host_name h →
  Forall (λ a, a ∉ String.list_ascii_of_string (String " " (String ":" (String "/" CRLF))))
    (String.list_ascii_of_string h).
Proof. done. Qed.

Lemma host_name_no c h : c ∈ host_delimiters → host_name h → c ∉ String.list_ascii_of_string h.
Proof.
  intros Hc Hh Hin. unfold host_name in Hh. rewrite Forall_forall in Hh.
  by apply (Hh c Hin).
Qed.

Lemma is_nat_pretty_N_char (d : N) :
  (d < 10)%N → Ascii.is_nat (pretty_N_char d) = Some (N.to_nat d).
Proof.
  intros Hd.
  assert (d = 0 ∨ d = 1 ∨ d = 2 ∨ d = 3 ∨ d = 4 ∨ d = 5 ∨ d = 6 ∨ d = 7
          ∨ d = 8 ∨ d = 9)%N as Hc by lia.
  destruct Hc as [->|[->|[->|[->|[->|[->|[->|[->|[->| ->]]]]]]]]]; done.
Qed.

(** The digits that [pretty] prints are read back by [atoi_digits]. *)
Lemma atoi_digits_pretty_go (x : N) :
  ∃ k : Z, 0 ≤ k ∧ ∀ s acc,
    atoi_digits (pretty_N_go x s) acc = atoi_digits s (acc * 10 ^ k + Z.of_N x).
Proof.
  induction (N.lt_wf_0 x) as [x _ IH].
  destruct (decide (x = 0)%N) as [->|Hx].
  - exists 0. split; [done|]. intros s acc. rewrite pretty_N_go_0. f_equal. lia.
  - destruct (IH (x `div` 10)%N) as (k & Hk & Hgo).
    { apply N.div_lt; lia. }
    exists (k + 1). split; [lia|]. intros s acc.
    rewrite pretty_N_go_step by lia. rewrite Hgo.
    assert (x `mod` 10 < 10)%N as Hm by (apply N.mod_lt; lia).
    pose proof (is_nat_pretty_N_char _ Hm) as Hd.
    cbn [atoi_digits]. rewrite Hd. f_equal.
    rewrite Z.pow_add_r by lia.
    pose proof (N.div_mod x 10 ltac:(lia)) as Hdm.
    rewrite N2Z.inj_div. rewrite N_nat_Z.
    assert (Z.of_N x = 10 * (Z.of_N x / 10) + Z.of_N (x `mod` 10)) as Hz.
    { rewrite N2Z.inj_mod. apply Z.div_mod. lia. }
    change (Z.of_N 10) with 10. lia.
Qed.

Lemma pretty_N_go_digits (x : N) s :
  Forall (λ a, is_Some (Ascii.is_nat a)) (String.list_ascii_of_string s) →
  Forall (λ a, is_Some (Ascii.is_nat a)) (String.list_ascii_of_string (pretty_N_go x s)).
Proof.
  revert s. induction (N.lt_wf_0 x) as [x _ IH]. intros s Hs.
  destruct (decide (x = 0)%N) as [->|Hx]; [by rewrite pretty_N_go_0|].
  rewrite pretty_N_go_step by lia. apply IH; [apply N.div_lt; lia|].
  cbn. apply Forall_cons. split; [|done].
  assert (x `mod` 10 < 10)%N as Hm by (apply N.mod_lt; lia).
  rewrite is_nat_pretty_N_char by done. by eexists.
Qed.

Lemma pretty_N_digits (x : N) :
  Forall (λ a, is_Some (Ascii.is_nat a)) (String.list_ascii_of_string (pretty x)).
Proof.
  unfold pretty, pretty_N. destruct (decide (x = 0)%N).
  - repeat constructor. by eexists.
  - by apply pretty_N_go_digits.
Qed.
Lemma str_from_app_cons h d rest :
  str_from (S (String.length h)) (h +:+ String d rest) = rest.
Proof. induction h as [|a h IH]; [by destruct rest|]. rewrite app_cons. done. Qed.

Lemma char_store_0 buf bs :
  (length bs ≤ length buf)%nat →
  char_store buf 0 bs = Some (bs ++ drop (length bs) buf).
Proof. intros H. unfold char_store. rewrite decide_True by (cbn; lia). done. Qed.

Lemma char_store_end buf bs b n :
  n = length bs → (n < length buf)%nat →
  char_store (bs ++ drop n buf) n [b] = Some (bs ++ b :: drop (S n) buf).
Proof.
  intros -> H. unfold char_store.
  rewrite decide_True by (rewrite length_app, length_drop; cbn; lia).
  rewrite take_app_length. cbn [length app]. f_equal. f_equal. f_equal.
  rewrite drop_app_ge by lia. rewrite drop_drop. f_equal. lia.
Qed.

(** [parse_url] on a uri that has a delimiter after the host name. *)
Lemma parse_url_at scheme h d rest host path port :
  strcasecmp_eq scheme "http://" = true →
  host_name h → d ∈ host_delimiters →
  (String.length h < length host)%nat →
  parse_url (scheme +:+ h +:+ String d rest) host path port
  = (port' ← (if bool_decide (d = ":"%char) then atoi rest else Some port);
     path' ← match strchr (h +:+ String d rest) "/" with
             | None => char_store path 0 ["/"%char]
             | Some i => strcpy path (str_from i (h +:+ String d rest))
             end;
     Some (0, String.list_ascii_of_string h ++ NUL :: drop (S (String.length h)) host,
           path', port')).
Proof.
  intros Hs Hh Hd Hlen. unfold parse_url.
  change 7%nat with (String.length "http://") at 1.
  rewrite strncasecmp_eq_app by done. cbn [negb].
  replace 7%nat with (String.length scheme) by (by apply strcasecmp_eq_length in Hs).
  rewrite str_from_app.
  rewrite strpbrk_app; [|by apply host_name_delims|done]. cbn [mbind option_bind].
  rewrite strncpy_app. rewrite (char_store_0 host) by (rewrite chars_length; lia).
  cbn [mbind option_bind].
  rewrite chars_length.
  rewrite (char_store_end host) by (rewrite ?chars_length; done).
  cbn [mbind option_bind].
  rewrite get_app, str_from_app_cons.
  assert (bool_decide (Some d = Some ":"%char) = bool_decide (d = ":"%char)) as ->.
  { apply bool_decide_ext. split; congruence. }
  done.
Qed.

(** *** [parse_url] *)

(** X19. [parse_url] takes a uri of the form http://host/path apart: the host
    name, terminated, is stored at the start of [host], the path with its
    leading slash, terminated, at the start of [path], the port is left
    as it was, and 0 is returned. The scheme is matched without regard
    to case. *)
Theorem parse_url_splits scheme h p host path port :
  strcasecmp_eq scheme "http://" = true →
  host_name h →
  (String.length h < length host)%nat →
  (String.length p + 2 ≤ length path)%nat →
  parse_url (scheme +:+ h +:+ "/" +:+ p) host path port
  = Some (0,
          String.list_ascii_of_string h ++ NUL :: drop (S (String.length h)) host,
          String.list_ascii_of_string ("/" +:+ p) ++ NUL :: drop (String.length p + 2) path,
          port).
Proof.
  intros Hs Hh Hlh Hlp.
  change ("/" +:+ p) with (String "/" p).
  rewrite parse_url_at; [|done|done|set_solver|done].
  rewrite bool_decide_false by discriminate. cbn [mbind option_bind].
  rewrite strchr_app by (apply host_name_no; [set_solver|done]).
  rewrite str_from_app. unfold strcpy.
  rewrite char_store_0 by (rewrite length_app; cbn; rewrite chars_length; lia).
  cbn [mbind option_bind]. do 3 f_equal.
  rewrite <- app_assoc. cbn. do 3 f_equal.
  rewrite length_app, chars_length. cbn. f_equal. lia.
Qed.

Lemma parse_url_splits_witness :
  ∃ host' path',
    parse_url "HTTP://www.cmu.edu/hub/index.html"
      (replicate 64 "x"%char) (replicate 64 "y"%char) 80
    = Some (0, host', path', 80)
    ∧ cstring host' = Some "www.cmu.edu"
    ∧ cstring path' = Some "/hub/index.html".
Proof.
  eexists _, _. split.
  - apply (parse_url_splits "HTTP://" "www.cmu.edu" "hub/index.html"
             (replicate 64 "x"%char) (replicate 64 "y"%char) 80).
    + reflexivity.
    + unfold host_name. apply (bool_decide_unpack _). vm_compute. reflexivity.
    + vm_compute. lia.
    + vm_compute. lia.
  - split; vm_compute; reflexivity.
Defined.

Lemma atoi_pretty (n : N) t :
  Z.of_N n ≤ INT_MAX → (∀ acc, atoi_digits t acc = acc) →
  atoi (pretty n +:+ t) = Some (Z.of_N n).
Proof.
  intros Hn Hd.
  assert (∀ s, Forall (λ a, is_Some (Ascii.is_nat a)) (String.list_ascii_of_string s) →
               s ≠ "" → skip_spaces (s +:+ t) = s +:+ t
               ∧ match s +:+ t with
                 | String "-" s' => - atoi_digits s' 0
                 | String "+" s' => atoi_digits s' 0
                 | s' => atoi_digits s' 0
                 end = atoi_digits (s +:+ t) 0) as Hfirst.
  { intros [|a s] Hs Hne; [done|]. rewrite app_cons. cbn in Hs.
    apply Forall_cons in Hs as [[k Ha] _].
    split.
    - cbn. destruct a as [[] [] [] [] [] [] [] []]; done.
    - destruct a as [[] [] [] [] [] [] [] []]; done. }
  assert (pretty n ≠ "") as Hne.
  { unfold pretty, pretty_N. destruct (decide (n = 0)%N); [done|].
    intros Heq.
    assert (n = 0 ∨ 0 < n)%N as [?|Hpos] by lia; [done|].
    rewrite pretty_N_go_step in Heq by done.
    assert (∀ x s a, pretty_N_go x (String a s) ≠ "") as Hnonempty.
    { clear. intros x. induction (N.lt_wf_0 x) as [x _ IH]. intros s a.
      destruct (decide (x = 0)%N) as [->|Hx]; [by rewrite pretty_N_go_0|].
      rewrite pretty_N_go_step by lia. apply IH. apply N.div_lt; lia. }
    by apply Hnonempty in Heq. }
  destruct (Hfirst (pretty n) (pretty_N_digits n) Hne) as [Hsk Hsg].
  unfold atoi. rewrite Hsk, Hsg.
  assert (atoi_digits (pretty n +:+ t) 0 = Z.of_N n) as ->.
  { unfold pretty, pretty_N. destruct (decide (n = 0)%N) as [->|Hn0].
    - rewrite app_cons, app_nil_l. cbn. by rewrite Hd.
    - assert (∀ x s t, pretty_N_go x s +:+ t = pretty_N_go x (s +:+ t)) as Hshift.
      { clear. intros x. induction (N.lt_wf_0 x) as [x _ IH]. intros s t.
        destruct (decide (x = 0)%N) as [->|Hx]; [by rewrite !pretty_N_go_0|].
        rewrite (pretty_N_go_step x s), (pretty_N_go_step x (s +:+ t)) by lia.
        rewrite IH by (apply N.div_lt; lia). reflexivity. }
      rewrite Hshift, app_nil_l.
      destruct (atoi_digits_pretty_go n) as (k & Hk & Hgo).
      rewrite Hgo, Hd. lia. }
  unfold INT_MIN, INT_MAX in *.
  rewrite andb_true_intro; [done|]. split; apply Z.leb_le; lia.
Qed.

Lemma app_nil_r_string s : s +:+ "" = s.
Proof. induction s as [|a s IH]; [done|]. rewrite app_cons. by rewrite IH. Qed.

(** X20. With a port: for a uri of the form http://host:port/path whose port
    is a decimal numeral of an [int], [parse_url] stores the host and the
    path as before and sets the port to the number. *)
Theorem parse_url_reads_port scheme h (n : N) p host path port :
  strcasecmp_eq scheme "http://" = true →
  host_name h →
  Z.of_N n ≤ INT_MAX →
  (String.length h < length host)%nat →
  (String.length p + 2 ≤ length path)%nat →
  parse_url (scheme +:+ h +:+ ":" +:+ pretty n +:+ "/" +:+ p) host path port
  = Some (0,
          String.list_ascii_of_string h ++ NUL :: drop (S (String.length h)) host,
          String.list_ascii_of_string ("/" +:+ p) ++ NUL :: drop (String.length p + 2) path,
          Z.of_N n).
Proof.
  intros Hs Hh Hn Hlh Hlp.
  change (":" +:+ pretty n +:+ "/" +:+ p) with (String ":" (pretty n +:+ String "/" p)).
  rewrite parse_url_at; [|done|done|set_solver|done].
  rewrite bool_decide_true by done.
  rewrite atoi_pretty by (done || (intros acc; done)). cbn [mbind option_bind].
  assert (h +:+ String ":" (pretty n +:+ String "/" p)
          = (h +:+ ":" +:+ pretty n) +:+ String "/" p) as ->.
  { clear. induction h as [|a h IH]; [done|]. rewrite !app_cons. by rewrite IH. }
  rewrite strchr_app.
  - rewrite str_from_app. unfold strcpy.
    rewrite char_store_0 by (rewrite length_app; cbn; rewrite chars_length; lia).
    cbn [mbind option_bind]. do 3 f_equal.
    change ("/" +:+ p) with (String "/" p).
    rewrite <- app_assoc. cbn. do 3 f_equal.
    rewrite length_app, chars_length. cbn. f_equal. lia.
  - rewrite chars_app. intros [Hin|Hin]%elem_of_app.
    + revert Hin. apply host_name_no; [set_solver|done].
    + change (":" +:+ pretty n) with (String ":" (pretty n)) in Hin. cbn in Hin.
      apply elem_of_cons in Hin as [?|Hin]; [done|].
      pose proof (pretty_N_digits n) as Hdig. rewrite Forall_forall in Hdig.
      by destruct (Hdig _ Hin).
Qed.

Lemma parse_url_reads_port_witness :
  ∃ host' path',
    parse_url "http://localhost:8080/index.html"
      (replicate 64 "x"%char) (replicate 64 "y"%char) 80
    = Some (0, host', path', 8080)
    ∧ cstring host' = Some "localhost"
    ∧ cstring path' = Some "/index.html".
Proof.
  eexists _, _. split.
  - apply (parse_url_reads_port "http://" "localhost" 8080 "index.html"
             (replicate 64 "x"%char) (replicate 64 "y"%char) 80).
    + reflexivity.
    + unfold host_name. apply (bool_decide_unpack _). vm_compute. reflexivity.
    + vm_compute. discriminate.
    + vm_compute. lia.
    + vm_compute. lia.
  - split; vm_compute; reflexivity.
Defined.

(** X21. A uri that ends with the host name, as in http://www.cmu.edu, holds
    no delimiter: [strpbrk] returns the null pointer, and computing the
    length from it and reading it is undefined. *)
Theorem parse_url_bare_host_undefined scheme h host path port :
  strcasecmp_eq scheme "http://" = true →
  host_name h →
  parse_url (scheme +:+ h) host path port = None.
Proof.
  intros Hs Hh. unfold parse_url.
  change 7%nat with (String.length "http://") at 1.
  rewrite strncasecmp_eq_app by done. cbn [negb].
  replace 7%nat with (String.length scheme) by (by apply strcasecmp_eq_length in Hs).
  rewrite str_from_app.
  rewrite strpbrk_none; [done|by apply host_name_delims].
Qed.

Lemma parse_url_bare_host_undefined_witness :
  parse_url "http://www.cmu.edu" (replicate 64 "x"%char) (replicate 64 "y"%char) 80
  = None.
Proof.
  apply (parse_url_bare_host_undefined "http://" "www.cmu.edu").
  - reflexivity.
  - unfold host_name. apply (bool_decide_unpack _). vm_compute. reflexivity.
Defined.

(** X22. A uri with a port and no slash after it, as in http://host:8080,
    gets a slash in the first byte of [path] and nothing else: no
    terminator is stored, and the string at [path] runs on into what the
    array held before. *)
Theorem parse_url_path_not_terminated scheme h (n : N) host path port :
  strcasecmp_eq scheme "http://" = true →
  host_name h →
  Z.of_N n ≤ INT_MAX →
  (String.length h < length host)%nat →
  path ≠ [] →
  parse_url (scheme +:+ h +:+ ":" +:+ pretty n) host path port
  = Some (0,
          String.list_ascii_of_string h ++ NUL :: drop (S (String.length h)) host,
          "/"%char :: drop 1 path,
          Z.of_N n).
Proof.
  intros Hs Hh Hn Hlh Hp.
  change (":" +:+ pretty n) with (String ":" (pretty n)).
  rewrite parse_url_at; [|done|done|set_solver|done].
  rewrite bool_decide_true by done.
  assert (atoi (pretty n) = Some (Z.of_N n)) as ->.
  { rewrite <- (app_nil_r_string (pretty n)) at 1. by apply atoi_pretty. }
  cbn [mbind option_bind].
  rewrite strchr_none.
  - unfold char_store. destruct path as [|a path]; [done|].
    rewrite decide_True by (cbn; lia). cbn. by rewrite drop_0.
  - change (String ":" (pretty n)) with (":" +:+ pretty n).
    rewrite chars_app. intros [Hin|Hin]%elem_of_app.
    + revert Hin. apply host_name_no; [set_solver|done].
    + change (":" +:+ pretty n) with (String ":" (pretty n)) in Hin. cbn in Hin.
      apply elem_of_cons in Hin as [?|Hin]; [done|].
      pose proof (pretty_N_digits n) as Hdig. rewrite Forall_forall in Hdig.
      by destruct (Hdig _ Hin).
Qed.

Lemma parse_url_path_not_terminated_witness :
  ∃ host' path',
    parse_url "http://localhost:8080"
      (replicate 64 "x"%char) ("y"%char :: "y"%char :: "y"%char :: NUL :: replicate 60 "z"%char) 80
    = Some (0, host', path', 8080)
    ∧ cstring path' = Some "/yy".
Proof.
  eexists _, _. split.
  - apply (parse_url_path_not_terminated "http://" "localhost" 8080
             (replicate 64 "x"%char)
             ("y"%char :: "y"%char :: "y"%char :: NUL :: replicate 60 "z"%char) 80).
    + reflexivity.
    + unfold host_name. apply (bool_decide_unpack _). vm_compute. reflexivity.
    + vm_compute. discriminate.
    + vm_compute. lia.
    + discriminate.
  - vm_compute. reflexivity.
Defined.
(** *** The header loop *)


Lemma prefix_app n r : String.prefix n (n +:+ r) = true.
Proof.
  induction n as [|a n IH]; [by destruct r|]. rewrite app_cons. cbn.
  destruct (ascii_dec a a); [done|congruence].
Qed.







(** *** [handle_request] *)

Lemma read_some {S A} (a : A) (s : S) : read (λ _, Some a) s = Done (a, s).
Proof. done. Qed.

(** [handle_request] once the method and the uri are accepted. *)
Lemma handle_request_parsed fuel c method uri lines host path host' path' port
    server now now' s :
  strcasecmp_eq method "GET" = true →
  parse_url uri host path 80 = Some (0, host', path', port) →
  handle_request fuel c method uri lines host path server now now' s
  = (cache_hit <- search_cache fuel c uri now ;;
     match cache_hit with
     | Some hit =>
         e <- deref hit ;;
         bytes <- read (λ _, bs ← response e;
                             if decide (0 ≤ response_size e ≤ Z.of_nat (length bs))
                             then Some (take (Z.to_nat (response_size e)) bs)
                             else None) ;;
         ret (bytes, None)
     | None =>
         h <- read (λ _, cstring host') ;;
         match server h port with
         | None => ret ([], None)
         | Some answer =>
             p <- read (λ _, cstring path') ;;
             let request := request_text method p lines h in
             client <- relay_response fuel c uri (answer request) now' ;;
             ret (client, Some request)
         end
     end) s.
Proof.
  intros Hget Hparse. unfold handle_request. rewrite Hget. cbn [negb].
  rewrite (bind_done _ _ s (0, host', path', port) s)
    by (unfold read; by rewrite Hparse).
  done.
Qed.

Lemma handle_request_hit c l1 x l2 s e bs method uri lines host path host' path' port
    server now now' fuel :
  cache_inv c (l1 ++ x :: l2) s →
  not_cached uri (cache_mem s) l1 →
  cache_mem s !! x = Some e → url e = Some uri →
  response e = Some bs → response_size e = Z.of_nat (length bs) →
  strcasecmp_eq method "GET" = true →
  parse_url uri host path 80 = Some (0, host', path', port) →
  (length l1 < fuel)%nat →
  ∃ s', handle_request fuel c method uri lines host path server now now' s
          = Done ((bs, None), s')
        ∧ cache_inv c (l1 ++ x :: l2) s'.
Proof.
  intros Hinv Hl1 He Hu Hr Hsz Hget Hparse Hfuel.
  destruct (search_cache_hit c l1 x l2 s uri now fuel)
    as (s' & Hrun & Hinv' & Hx & _); [done|done|by exists e|done|].
  exists s'. split; [|done].
  rewrite (handle_request_parsed _ _ _ _ _ _ _ host' path' port) by done.
  rewrite (bind_done _ _ s (Some x) s' Hrun).
  rewrite He in Hx. cbn in Hx.
  rewrite (bind_done _ _ s' _ s' (deref_done _ _ _ Hx)).
  cbn [response response_size set_last_access].
  rewrite Hr, Hsz. cbn [mbind option_bind].
  destruct (decide (0 ≤ Z.of_nat (length bs) ≤ Z.of_nat (length bs))) as [_|Hn]; [|destruct Hn; split; [apply Nat2Z.is_nonneg|apply Z.le_refl]].
  rewrite Nat2Z.id, firstn_all.
  done.
Qed.

(** X25. A GET for a url in the cache is answered with the bytes of the first
    entry that holds the url; no server is contacted, whatever the
    request headers are. *)
Theorem handle_request_serves_hit c l1 x l2 s e bs method uri lines host path
    host' path' port server now now' fuel :
  cache_inv c (l1 ++ x :: l2) s →
  not_cached uri (cache_mem s) l1 →
  cache_mem s !! x = Some e → url e = Some uri →
  response e = Some bs → response_size e = Z.of_nat (length bs) →
  strcasecmp_eq method "GET" = true →
  parse_url uri host path 80 = Some (0, host', path', port) →
  (length l1 < fuel)%nat →
  ∃ s', handle_request fuel c method uri lines host path server now now' s
          = Done ((bs, None), s')
        ∧ cache_inv c (l1 ++ x :: l2) s'.
Proof. apply handle_request_hit. Qed.

(** X26. When the url is not in the cache and the connection to the server
    fails, the client is sent nothing at all, not an error page either;
    the cache stays consistent. *)
Theorem handle_request_no_connection c ls s method uri lines host path
    host' path' port h server now now' fuel :
  cache_inv c ls s →
  not_cached uri (cache_mem s) ls →
  strcasecmp_eq method "GET" = true →
  parse_url uri host path 80 = Some (0, host', path', port) →
  cstring host' = Some h →
  server h port = None →
  (length ls ≤ fuel)%nat →
  ∃ s', handle_request fuel c method uri lines host path server now now' s
          = Done (([], None), s')
        ∧ cache_inv c ls s'.
Proof.
  intros Hinv Hls Hget Hparse Hh Hsrv Hfuel.
  destruct (search_cache_none c ls s uri now fuel) as (s' & Hrun & Hinv');
    [done|done|done|].
  exists s'. split; [|done].
  rewrite (handle_request_parsed _ _ _ _ _ _ _ host' path' port) by done.
  rewrite (bind_done _ _ s None s' Hrun).
  rewrite (bind_done _ _ s' h s') by (unfold read; by rewrite Hh).
  by rewrite Hsrv.
Qed.

Lemma length_app_string a b : String.length (a +:+ b) = (String.length a + String.length b)%nat.
Proof. induction a as [|x a IH]; [done|]. rewrite app_cons. cbn. by rewrite IH. Qed.

(** X24. A request that is not a GET, or whose uri does not begin with
    http://, is answered with an error page, 501 in the first case and
    400 in the second; no server is contacted and the cache is left as
    it is. *)
Theorem handle_request_rejects c method uri lines host path server now now' fuel s :
  (String.length method + 166 < MAXBUF)%nat → host ≠ [] →
  strcasecmp_eq method "GET" = false ∨ strncasecmp_eq uri "http://" 7 = false →
  ∃ page,
    handle_request fuel c method uri lines host path server now now' s
    = Done ((bytes_of_string page, None), s)
    ∧ String.prefix
        ("HTTP/1.0 " +:+ (if strcasecmp_eq method "GET"
                          then "400 Bad Request" else "501 Not Implemented") +:+ CRLF)
        page = true.
Proof.
  intros Hlen Hhost Hrej. unfold handle_request.
  destruct (strcasecmp_eq method "GET") eqn:Hget; cbn [negb].
  - destruct Hrej as [?|Huri]; [done|].
    unfold parse_url. rewrite Huri. cbn [negb].
    destruct host as [|a host]; [done|].
    unfold char_store. rewrite decide_True by (cbn; lia).
    cbn [mbind option_bind take drop app length Nat.add].
    erewrite (bind_done _ _ s); [|apply read_some].
    cbv beta iota zeta delta [Z.eqb Pos.eqb].
    assert (cstring (NUL :: drop 0 host) = Some ""%string) as -> by reflexivity.
    erewrite (bind_done _ _ s); [|apply read_some].
    destruct (clienterror "" "400" "Bad Request" "Proxy could not understand the request")
      as [page|] eqn:E; [|by vm_compute in E].
    erewrite (bind_done _ _ s); [|apply read_some].
    exists page. split; [reflexivity|].
    vm_compute in E. injection E as <-. by vm_compute.
  - unfold clienterror.
    rewrite decide_True.
    + erewrite (bind_done _ _ s); [|apply read_some].
      eexists. split; [reflexivity|].
      exact (prefix_app ("HTTP/1.0 501 Not Implemented" +:+ CRLF) _).
    + rewrite !length_app_string. cbn. unfold MAXBUF in *. lia.
Qed.

Lemma handle_request_rejects_witness :
  ∃ page,
    handle_request 1 1%positive "POST" "http://www.cmu.edu/" [] stack_array stack_array
      origin 5 6 empty_proxy
    = Done ((bytes_of_string page, None), empty_proxy)
    ∧ String.prefix ("HTTP/1.0 501 Not Implemented" +:+ CRLF) page = true.
Proof.
  apply (handle_request_rejects 1%positive "POST" "http://www.cmu.edu/" []
           stack_array stack_array origin 5 6 1%nat empty_proxy).
  - vm_compute. lia.
  - discriminate.
  - left. reflexivity.
Defined.

Lemma one_entry_inv :
  ∃ s e, one_entry empty_proxy = Done (1%positive, s)
       ∧ cache_inv 1%positive [2]%positive s
       ∧ cache_mem s !! 2%positive = Some e
       ∧ url e = Some "http://www.cmu.edu/"
       ∧ response e = Some [72; 105; 10]
       ∧ response_size e = 3.
Proof.
  eexists _, _. split; [by vm_compute|]. split_and!.
  - split; [done|]. split_and!.
    + apply (bool_decide_unpack _). by vm_compute.
    + eexists. split; [by vm_compute|]. split; [done|].
      repeat (split; [done|]; eexists; split; [by vm_compute|]; split; [done|]).
      done.
    + by vm_compute.
  - by vm_compute.
  - done.
  - done.
  - done.
Qed.

Lemma handle_request_serves_hit_witness :
  ∃ s s', one_entry empty_proxy = Done (1%positive, s)
    ∧ handle_request 1 1%positive "GET" "http://www.cmu.edu/" [] stack_array stack_array
        unreachable 5 6 s
      = Done (([72; 105; 10], None), s').
Proof.
  destruct one_entry_inv as (s & e & Hrun & Hinv & He & Hu & Hr & Hsz).
  destruct (handle_request_serves_hit 1%positive [] 2%positive [] s e [72; 105; 10]
              "GET" "http://www.cmu.edu/" [] stack_array stack_array
              (String.list_ascii_of_string "www.cmu.edu" ++ NUL :: drop 12 stack_array)
              (String.list_ascii_of_string "/" ++ NUL :: drop 2 stack_array)
              80 unreachable 5 6 1%nat)
    as (s' & Hreq & _).
  - exact Hinv.
  - intros y Hy. by apply elem_of_nil in Hy.
  - exact He.
  - exact Hu.
  - exact Hr.
  - exact Hsz.
  - reflexivity.
  - vm_compute. reflexivity.
  - cbn. lia.
  - exists s, s'. split; [exact Hrun|exact Hreq].
Defined.

Lemma handle_request_no_connection_witness :
  ∃ c s s', main_init empty_proxy = Done (c, s)
    ∧ handle_request 1 c "GET" "http://www.cmu.edu/" [] stack_array stack_array
        unreachable 5 6 s
      = Done (([], None), s').
Proof.
  destruct main_init_inv as (c & s & Hrun & Hinv).
  destruct (handle_request_no_connection c [] s
              "GET" "http://www.cmu.edu/" [] stack_array stack_array
              (String.list_ascii_of_string "www.cmu.edu" ++ NUL :: drop 12 stack_array)
              (String.list_ascii_of_string "/" ++ NUL :: drop 2 stack_array)
              80 "www.cmu.edu" unreachable 5 6 1%nat)
    as (s' & Hreq & _).
  - exact Hinv.
  - intros y Hy. by apply elem_of_nil in Hy.
  - reflexivity.
  - vm_compute. reflexivity.
  - vm_compute. reflexivity.
  - reflexivity.
  - cbn. lia.
  - exists c, s, s'. split; [exact Hrun|exact Hreq].
Defined.


End ProxyProps.
